(** * Playlist codec and edit session of the audio playlist manager

    A shallow embedding of [src/components/playlist-manager.tsx]: the
    helpers [removeFileExtension], [parsePlaylistContent],
    [generatePlaylistContent], [buildPathForFile], [addFileToPlaylist],
    [removeFileFromPlaylist], [savePlaylist], [resetPlaylist] and
    [handleDrop], together with the ECMAScript built-ins they call
    ([String.prototype.split], [trim], [replace], [decodeURIComponent],
    [encodeURIComponent], [Array.prototype.splice], ...).

    Around it, the code the component works with: its list of playlists
    ([loadInitialData]), the folder configuration ([validateConfig],
    [getConfigInfo]), the component [DirectoryConfig], the component
    [PlaylistOperations] ([createNewPlaylist]), the hook [useDragDrop]
    and the request methods of the storage client ([updateFile],
    [getFileContent], [listFiles]), whose network is a parameter.

    A JavaScript string is a sequence of UTF-16 code units; it is modelled
    as a list of [N].  React state is modelled by explicit state passing:
    every event handler is a function from the committed state to the next
    one.  A thrown exception is the [Throw] case of [result]. *)

From Stdlib Require Import NArith ZArith List Bool String Ascii Lia.
From Stdlib Require Import Permutation.
Import ListNotations.

Set Implicit Arguments.

Ltac Zify.zify_post_hook ::= Z.to_euclidean_division_equations.

(** ** Exceptions *)

Inductive exn : Type :=
| URIError.

Inductive result (A : Type) : Type :=
| Ok (a : A)
| Throw (e : exn).

Arguments Ok {A} a.
Arguments Throw {A} e.

Definition bind {A B : Type} (r : result A) (k : A -> result B) : result B :=
  match r with
  | Ok a => k a
  | Throw e => Throw e
  end.

Notation "x <- r ;; k" := (bind r (fun x => k))
  (at level 61, r at next level, right associativity).

Definition rmap {A B : Type} (f : A -> B) (r : result A) : result B :=
  x <- r ;; Ok (f x).

(** ** JavaScript strings and the built-ins used by the component *)

Module JS.

Open Scope N_scope.

(** A string value: its UTF-16 code units, in order. *)
Definition jsstring : Type := list N.

(** An ASCII literal as a string value. *)
Definition js (s : string) : jsstring :=
  map N_of_ascii (list_ascii_of_string s).

Definition LF : N := 10.
Definition BACKSLASH : N := 92.
Definition SLASH : N := 47.
Definition PIPE : N := 124.
Definition PERCENT : N := 37.
Definition PLUS : N := 43.
Definition SPACE : N := 32.
Definition DOT : N := 46.
Definition GT : N := 62.
Definition DOLLAR : N := 36.

Fixpoint jseqb (a b : jsstring) : bool :=
  match a, b with
  | [], [] => true
  | x :: a', y :: b' => (x =? y) && jseqb a' b'
  | _, _ => false
  end.

(** [s.startsWith(p)] *)
Fixpoint startsWith (s p : jsstring) : bool :=
  match p, s with
  | [], _ => true
  | x :: p', y :: s' => (x =? y) && startsWith s' p'
  | _ :: _, [] => false
  end.

(** [s.includes(p)] *)
Fixpoint includes (s p : jsstring) : bool :=
  startsWith s p ||
  match s with
  | [] => false
  | _ :: s' => includes s' p
  end.

(** The remainder of [s] after the prefix [p], when [s] starts with [p]. *)
Fixpoint stripPrefix (p s : jsstring) : option jsstring :=
  match p, s with
  | [], _ => Some s
  | x :: p', y :: s' => if x =? y then stripPrefix p' s' else None
  | _ :: _, [] => None
  end.

(** Longest prefix whose code units satisfy [f], and the rest. *)
Fixpoint span (f : N -> bool) (s : jsstring) : jsstring * jsstring :=
  match s with
  | [] => ([], [])
  | c :: s' =>
      if f c then let (a, b) := span f s' in (c :: a, b) else ([], s)
  end.

(** [s.split(sep)] for a separator of one code unit: never empty, and
    [''.split(sep)] is [['']]. *)
Fixpoint split (sep : N) (s : jsstring) : list jsstring :=
  match s with
  | [] => [[]]
  | c :: s' =>
      if c =? sep then [] :: split sep s'
      else match split sep s' with
           | [] => [[c]]
           | t :: ts => (c :: t) :: ts
           end
  end.

(** [parts.join(sep)] for a separator of one code unit. *)
Fixpoint join (sep : N) (parts : list jsstring) : jsstring :=
  match parts with
  | [] => []
  | [p] => p
  | p :: ps => p ++ sep :: join sep ps
  end.

(** [arr.pop()] on a freshly built array: its last element
    ([undefined], here [None], on the empty array). *)
Fixpoint pop (arr : list jsstring) : option jsstring :=
  match arr with
  | [] => None
  | [x] => Some x
  | _ :: xs => pop xs
  end.

(** [a || b] on strings: the empty string and [undefined] are falsy. *)
Definition orElse (a : option jsstring) (b : jsstring) : jsstring :=
  match a with
  | Some ((_ :: _) as x) => x
  | _ => b
  end.

(** ECMAScript LineTerminator: LF, CR, LS, PS.  The regular expression
    atom [.] (without the [s] flag) matches every code unit but these. *)
Definition isLineTerminator (c : N) : bool :=
  (c =? 10) || (c =? 13) || (c =? 8232) || (c =? 8233).

(** ECMAScript WhiteSpace and LineTerminator, the code units removed by
    [trim]: TAB, LF, VT, FF, CR, SP, NBSP, U+1680, U+2000..U+200A, LS, PS,
    U+202F, U+205F, U+3000, U+FEFF. *)
Definition isWhiteSpace (c : N) : bool :=
  (c =? 9) || (c =? 10) || (c =? 11) || (c =? 12) || (c =? 13) ||
  (c =? 32) || (c =? 160) || (c =? 5760) ||
  ((8192 <=? c) && (c <=? 8202)) ||
  (c =? 8232) || (c =? 8233) || (c =? 8239) || (c =? 8287) ||
  (c =? 12288) || (c =? 65279).

Fixpoint trimStart (s : jsstring) : jsstring :=
  match s with
  | [] => []
  | c :: s' => if isWhiteSpace c then trimStart s' else s
  end.

Fixpoint trimEnd (s : jsstring) : jsstring :=
  match s with
  | [] => []
  | c :: s' =>
      match trimEnd s' with
      | [] => if isWhiteSpace c then [] else [c]
      | t => c :: t
      end
  end.

(** [s.trim()] *)
Definition trim (s : jsstring) : jsstring := trimEnd (trimStart s).

(** Truthiness of a string: non-empty. *)
Definition truthy (s : jsstring) : bool :=
  match s with
  | [] => false
  | _ :: _ => true
  end.

(** First occurrence of the non-empty pattern [p] in [s]: the text before
    it and the text after it. *)
Fixpoint indexOf (p s : jsstring) : option (jsstring * jsstring) :=
  match stripPrefix p s with
  | Some after => Some ([], after)
  | None =>
      match s with
      | [] => None
      | c :: s' =>
          match indexOf p s' with
          | Some (before, after) => Some (c :: before, after)
          | None => None
          end
      end
  end.

(** GetSubstitution (ECMA-262) for a string pattern, which has no capture
    groups: in the replacement template [$$] is a dollar sign, [$&] the
    matched text, [$`] the text before the match, [$'] the text after it;
    every other code unit, and a dollar sign before anything else, stands
    for itself. *)
Fixpoint GetSubstitution (matched before after template : jsstring)
  : jsstring :=
  match template with
  | [] => []
  | c :: t =>
      if c =? DOLLAR then
        match t with
        | [] => [c]
        | d :: t' =>
            if d =? DOLLAR then DOLLAR :: GetSubstitution matched before after t'
            else if d =? 96 then before ++ GetSubstitution matched before after t'
            else if d =? 38 then matched ++ GetSubstitution matched before after t'
            else if d =? 39 then after ++ GetSubstitution matched before after t'
            else c :: GetSubstitution matched before after t
        end
      else c :: GetSubstitution matched before after t
  end.

(** [s.replace(p, r)] with a string pattern: the first occurrence only. *)
Definition replace (s p r : jsstring) : jsstring :=
  match indexOf p s with
  | None => s
  | Some (before, after) =>
      before ++ GetSubstitution p before after r ++ after
  end.

(** [s.replace(/\+/g, " ")] *)
Definition replacePlusBySpace (s : jsstring) : jsstring :=
  map (fun c => if c =? PLUS then SPACE else c) s.

(** [s.replace(/%20/g, "+")]: matches are found left to right and do not
    overlap. *)
Fixpoint replacePercent20ByPlus (s : jsstring) : jsstring :=
  match s with
  | [] => []
  | c1 :: t =>
      match t with
      | c2 :: c3 :: r =>
          if (c1 =? PERCENT) && (c2 =? 50) && (c3 =? 48)
          then PLUS :: replacePercent20ByPlus r
          else c1 :: replacePercent20ByPlus t
      | _ => c1 :: replacePercent20ByPlus t
      end
  end.

(** [s.endsWith(p)] *)
Definition endsWith (s p : jsstring) : bool :=
  startsWith (rev s) (rev p).

(** [parts.join(sep)] for any separator. *)
Fixpoint joinWith (sep : jsstring) (parts : list jsstring) : jsstring :=
  match parts with
  | [] => []
  | [p] => p
  | p :: ps => p ++ sep ++ joinWith sep ps
  end.

(** [arr.indexOf(x)] on an array of strings: the first position of [x]
    ([None] stands for -1). *)
Fixpoint arrayIndexOf (x : jsstring) (arr : list jsstring) : option nat :=
  match arr with
  | [] => None
  | y :: arr' =>
      if jseqb y x then Some O
      else match arrayIndexOf x arr' with
           | Some i => Some (S i)
           | None => None
           end
  end.

(** [arr.filter((x, index) => f(x, index))], positions counted from
    [start]. *)
Fixpoint filterWithIndex {A : Type} (f : A -> nat -> bool) (start : nat)
                         (arr : list A) : list A :=
  match arr with
  | [] => []
  | x :: arr' =>
      if f x start then x :: filterWithIndex f (S start) arr'
      else filterWithIndex f (S start) arr'
  end.

(** [[...new Set(arr)]]: the distinct strings of [arr], each at the place
    of its first occurrence. *)
Fixpoint uniqueInOrder (seen arr : list jsstring) : list jsstring :=
  match arr with
  | [] => []
  | x :: arr' =>
      if existsb (jseqb x) seen then uniqueInOrder seen arr'
      else x :: uniqueInOrder (x :: seen) arr'
  end.

End JS.

(** ** [encodeURIComponent] and [decodeURIComponent] (ECMA-262, 19.2.6) *)

Module URI.

Import JS.
Open Scope N_scope.

(** Value of a hexadecimal digit, in either case. *)
Definition hexValue (c : N) : option N :=
  if (48 <=? c) && (c <=? 57) then Some (c - 48)
  else if (65 <=? c) && (c <=? 70) then Some (c - 55)
  else if (97 <=? c) && (c <=? 102) then Some (c - 87)
  else None.

(** ParseHexOctet: the octet written by two hexadecimal digits. *)
Definition ParseHexOctet (h1 h2 : N) : option N :=
  match hexValue h1, hexValue h2 with
  | Some a, Some b => Some (16 * a + b)
  | _, _ => None
  end.

(** An escape sequence [%XX] read at three successive code units. *)
Definition escapeOctet (p h1 h2 : N) : option N :=
  if p =? PERCENT then ParseHexOctet h1 h2 else None.

(** Upper-case hexadecimal digit of a value below 16. *)
Definition hexDigit (d : N) : N :=
  if d <? 10 then 48 + d else 55 + d.

(** The escape sequence of one octet: [%] and two upper-case digits. *)
Definition percentOctet (b : N) : jsstring :=
  [PERCENT; hexDigit (b / 16); hexDigit (b mod 16)].

Definition percentOctets (octets : list N) : jsstring :=
  flat_map percentOctet octets.

(** Number of leading 1 bits of an octet (5 stands for five or more). *)
Definition leadingOnes (B : N) : nat :=
  if B <? 128 then 0
  else if B <? 192 then 1
  else if B <? 224 then 2
  else if B <? 240 then 3
  else if B <? 248 then 4
  else 5.

Definition isContinuation (b : N) : bool := (128 <=? b) && (b <? 192).

Definition isLeadingSurrogate (c : N) : bool := (55296 <=? c) && (c <=? 56319).
Definition isTrailingSurrogate (c : N) : bool := (56320 <=? c) && (c <=? 57343).

(** The code point of a well-formed UTF-8 sequence of two to four octets
    (Unicode, table 3-7): continuation octets are [10xxxxxx], the value is
    not over-long, not a surrogate and at most U+10FFFF. *)
Definition utf8CodePoint (octets : list N) : option N :=
  match octets with
  | [b0; b1] =>
      let v := (b0 - 192) * 64 + (b1 - 128) in
      if isContinuation b1 && (128 <=? v) then Some v else None
  | [b0; b1; b2] =>
      let v := (b0 - 224) * 4096 + (b1 - 128) * 64 + (b2 - 128) in
      if isContinuation b1 && isContinuation b2 && (2048 <=? v)
         && negb ((55296 <=? v) && (v <=? 57343))
      then Some v else None
  | [b0; b1; b2; b3] =>
      let v := (b0 - 240) * 262144 + (b1 - 128) * 4096
               + (b2 - 128) * 64 + (b3 - 128) in
      if isContinuation b1 && isContinuation b2 && isContinuation b3
         && (65536 <=? v) && (v <=? 1114111)
      then Some v else None
  | _ => None
  end.

(** UTF-8 encoding of a code point. *)
Definition utf8Encode (cp : N) : list N :=
  if cp <? 128 then [cp]
  else if cp <? 2048 then [192 + cp / 64; 128 + cp mod 64]
  else if cp <? 65536 then
    [224 + cp / 4096; 128 + (cp / 64) mod 64; 128 + cp mod 64]
  else
    [240 + cp / 262144; 128 + (cp / 4096) mod 64;
     128 + (cp / 64) mod 64; 128 + cp mod 64].

Definition UTF16EncodeCodePoint (cp : N) : jsstring :=
  if cp <=? 65535 then [cp]
  else [(cp - 65536) / 1024 + 55296; (cp - 65536) mod 1024 + 56320].

Definition UTF16SurrogatePairToCodePoint (lead trail : N) : N :=
  (lead - 55296) * 1024 + (trail - 56320) + 65536.

(** All octets of a multi-octet sequence were read and form one code
    point. *)
Definition octetsCodePoint (B : N) (rest : list (option N)) : option N :=
  match fold_right
          (fun o acc =>
             match o, acc with
             | Some b, Some l => Some (b :: l)
             | _, _ => None
             end) (Some []) rest with
  | Some l => utf8CodePoint (B :: l)
  | None => None
  end.

(** Decode with an empty set of preserved escapes.  A code unit other
    than [%] is copied; [%XX] with no leading 1 bit is the code unit XX;
    with n = 2, 3 or 4 leading 1 bits, n - 1 further escapes are read and
    the n octets must be the UTF-8 form of one code point, which is
    appended in UTF-16.  Everything else throws URIError. *)
Fixpoint Decode (s : jsstring) : result jsstring :=
  match s with
  | [] => Ok []
  | C :: s1 =>
      if negb (C =? PERCENT) then rmap (cons C) (Decode s1)
      else
        match s1 with
        | h1 :: h2 :: s2 =>
            match ParseHexOctet h1 h2 with
            | None => Throw URIError
            | Some B =>
                match leadingOnes B with
                | 0%nat => rmap (cons B) (Decode s2)
                | 2%nat =>
                    match s2 with
                    | p1 :: a1 :: a2 :: s3 =>
                        match octetsCodePoint B [escapeOctet p1 a1 a2] with
                        | Some V =>
                            rmap (app (UTF16EncodeCodePoint V)) (Decode s3)
                        | None => Throw URIError
                        end
                    | _ => Throw URIError
                    end
                | 3%nat =>
                    match s2 with
                    | p1 :: a1 :: a2 :: p2 :: b1 :: b2 :: s4 =>
                        match octetsCodePoint B
                                [escapeOctet p1 a1 a2; escapeOctet p2 b1 b2] with
                        | Some V =>
                            rmap (app (UTF16EncodeCodePoint V)) (Decode s4)
                        | None => Throw URIError
                        end
                    | _ => Throw URIError
                    end
                | 4%nat =>
                    match s2 with
                    | p1 :: a1 :: a2 :: p2 :: b1 :: b2
                         :: p3 :: c1 :: c2 :: s5 =>
                        match octetsCodePoint B
                                [escapeOctet p1 a1 a2; escapeOctet p2 b1 b2;
                                 escapeOctet p3 c1 c2] with
                        | Some V =>
                            rmap (app (UTF16EncodeCodePoint V)) (Decode s5)
                        | None => Throw URIError
                        end
                    | _ => Throw URIError
                    end
                | _ => Throw URIError
                end
            end
        | _ => Throw URIError
        end
  end.

Definition decodeURIComponent (s : jsstring) : result jsstring := Decode s.

(** Code units never escaped by [encodeURIComponent]: ASCII letters and
    digits and [- _ . ! ~ * ' ( )]. *)
Definition uriUnescaped (c : N) : bool :=
  ((48 <=? c) && (c <=? 57)) || ((65 <=? c) && (c <=? 90)) ||
  ((97 <=? c) && (c <=? 122)) ||
  (c =? 45) || (c =? 95) || (c =? 46) || (c =? 33) || (c =? 126) ||
  (c =? 42) || (c =? 39) || (c =? 40) || (c =? 41).

(** Encode with no extra unescaped code units.  The code point at the
    current position is read as by CodePointAt; an unpaired surrogate
    throws URIError. *)
Fixpoint Encode (s : jsstring) : result jsstring :=
  match s with
  | [] => Ok []
  | C :: s1 =>
      if uriUnescaped C then rmap (cons C) (Encode s1)
      else if isLeadingSurrogate C then
        match s1 with
        | C2 :: s2 =>
            if isTrailingSurrogate C2 then
              rmap (app (percentOctets
                           (utf8Encode (UTF16SurrogatePairToCodePoint C C2))))
                   (Encode s2)
            else Throw URIError
        | [] => Throw URIError
        end
      else if isTrailingSurrogate C then Throw URIError
      else rmap (app (percentOctets (utf8Encode C))) (Encode s1)
  end.

Definition encodeURIComponent (s : jsstring) : result jsstring := Encode s.

(** A string without unpaired surrogates.  (The bound on the other code
    units only says that the list is one of 16-bit code units.) *)
Fixpoint wellFormed (s : jsstring) : bool :=
  match s with
  | [] => true
  | C :: s1 =>
      if isLeadingSurrogate C then
        match s1 with
        | C2 :: s2 => isTrailingSurrogate C2 && wellFormed s2
        | [] => false
        end
      else negb (isTrailingSurrogate C) && (C <? 65536) && wellFormed s1
  end.

End URI.

(** ** The storage client's data ([lib/google-drive]) *)

Module GoogleDriveFile.
Record t : Type := { id : JS.jsstring; name : JS.jsstring }.
End GoogleDriveFile.

Module AudioDirectory.
Record t : Type :=
  { name : JS.jsstring; driveId : JS.jsstring; localPath : JS.jsstring }.
End AudioDirectory.

(** ** The component [PlaylistManager] *)

Module PlaylistManager.

Import JS URI.
Open Scope N_scope.

(** An entry of [playlistItems]. *)
Record TrackRef : Type := { path : jsstring; filename : jsstring }.

(** The component's state variables that the codec and the edit handlers
    read or write. *)
Record State : Type :=
  { selectedPlaylist : option GoogleDriveFile.t;
    audioDirectories : list AudioDirectory.t;
    selectedDirectoryName : jsstring;
    originalContent : jsstring;
    playlistItems : list TrackRef;
    containerName : jsstring;
    isSaving : bool;
    saveError : option jsstring }.

Definition setSelectedPlaylist (v : option GoogleDriveFile.t) (s : State) :=
  {| selectedPlaylist := v;
     audioDirectories := audioDirectories s;
     selectedDirectoryName := selectedDirectoryName s;
     originalContent := originalContent s;
     playlistItems := playlistItems s;
     containerName := containerName s;
     isSaving := isSaving s;
     saveError := saveError s |}.

Definition setOriginalContent (v : jsstring) (s : State) :=
  {| selectedPlaylist := selectedPlaylist s;
     audioDirectories := audioDirectories s;
     selectedDirectoryName := selectedDirectoryName s;
     originalContent := v;
     playlistItems := playlistItems s;
     containerName := containerName s;
     isSaving := isSaving s;
     saveError := saveError s |}.

Definition setPlaylistItems (v : list TrackRef) (s : State) :=
  {| selectedPlaylist := selectedPlaylist s;
     audioDirectories := audioDirectories s;
     selectedDirectoryName := selectedDirectoryName s;
     originalContent := originalContent s;
     playlistItems := v;
     containerName := containerName s;
     isSaving := isSaving s;
     saveError := saveError s |}.

Definition setContainerName (v : jsstring) (s : State) :=
  {| selectedPlaylist := selectedPlaylist s;
     audioDirectories := audioDirectories s;
     selectedDirectoryName := selectedDirectoryName s;
     originalContent := originalContent s;
     playlistItems := playlistItems s;
     containerName := v;
     isSaving := isSaving s;
     saveError := saveError s |}.

Definition setIsSaving (v : bool) (s : State) :=
  {| selectedPlaylist := selectedPlaylist s;
     audioDirectories := audioDirectories s;
     selectedDirectoryName := selectedDirectoryName s;
     originalContent := originalContent s;
     playlistItems := playlistItems s;
     containerName := containerName s;
     isSaving := v;
     saveError := saveError s |}.

Definition setSaveError (v : option jsstring) (s : State) :=
  {| selectedPlaylist := selectedPlaylist s;
     audioDirectories := audioDirectories s;
     selectedDirectoryName := selectedDirectoryName s;
     originalContent := originalContent s;
     playlistItems := playlistItems s;
     containerName := containerName s;
     isSaving := isSaving s;
     saveError := v |}.

(** What a handler shows or reports besides the state it sets. *)
Inductive Event : Type :=
| Toast (title description variant : jsstring)
| OnAuthError.

(** The [message] of a thrown built-in error (the text is the engine's;
    this is V8's). *)
Definition exnMessage (e : exn) : jsstring :=
  match e with
  | URIError => js "URI malformed"
  end.

(** *** [removeFileExtension]: [filename.replace(/\.[^/.]+$/, "")] *)

(** The pattern [\.[^/.]+$] matches the whole of [s]: a dot, then one or
    more code units that are neither a slash nor a dot, up to the end. *)
Definition extensionHere (s : jsstring) : bool :=
  match s with
  | c :: (_ :: _) as r =>
      (c =? DOT)
      && forallb (fun x => negb (x =? SLASH) && negb (x =? DOT)) r
  | _ => false
  end.

(** The leftmost match is replaced by the empty string: what remains is
    the text before it. *)
Fixpoint removeFileExtension (filename : jsstring) : jsstring :=
  if extensionHere filename then []
  else match filename with
       | [] => []
       | c :: t => c :: removeFileExtension t
       end.

(** *** [parsePlaylistContent] *)

(** The pattern [Container=<([^>]+)>(.+)] matches at the start of [s]:
    the groups.  Both quantifiers are greedy and nothing after them can
    make the engine give characters back: the first group runs to the
    first [>] (the code unit on which the first span stops), the second
    to the first line terminator or the end. *)
Definition containerMatchHere (s : jsstring)
  : option (jsstring * jsstring) :=
  match stripPrefix (js "Container=<") s with
  | None => None
  | Some r =>
      match span (fun c => negb (c =? GT)) r with
      | ((_ :: _) as m1, _ :: r') =>
          match span (fun c => negb (isLineTerminator c)) r' with
          | ((_ :: _) as m2, _) => Some (m1, m2)
          | _ => None
          end
      | _ => None
      end
  end.

(** [line.match(/Container=<([^>]+)>(.+)/)]: the leftmost position where
    the pattern matches. *)
Fixpoint containerMatch (line : jsstring) : option (jsstring * jsstring) :=
  match containerMatchHere line with
  | Some m => Some m
  | None =>
      match line with
      | [] => None
      | _ :: t => containerMatch t
      end
  end.

(** [p.split("\\").pop() || p.split("/").pop() || p] *)
Definition fullFilename (p : jsstring) : jsstring :=
  orElse (pop (split BACKSLASH p)) (orElse (pop (split SLASH p)) p).

(** The body of [paths.forEach]. *)
Definition pushPath (items : list TrackRef) (p : jsstring) : list TrackRef :=
  if truthy (trim p) then
    items ++ [{| path := trim p;
                 filename := removeFileExtension (fullFilename p) |}]
  else items.

(** The local variables [name] and [items] of [parsePlaylistContent]. *)
Record Document : Type := { name : jsstring; items : list TrackRef }.

(** The body of the loop over the lines. *)
Definition parseLine (acc : Document) (line : jsstring) : result Document :=
  if startsWith line (js "#EXTM3U") then Ok acc
  else if startsWith line (js "Container=") then
    match containerMatch line with
    | Some (m1, m2) =>
        name' <- decodeURIComponent (replacePlusBySpace m1) ;;
        Ok {| name := name';
              items := fold_left pushPath (split PIPE m2) (items acc) |}
    | None => Ok acc
    end
  else Ok acc.

Fixpoint parseLines (lines : list jsstring) (acc : Document)
  : result Document :=
  match lines with
  | [] => Ok acc
  | line :: rest => acc' <- parseLine acc line ;; parseLines rest acc'
  end.

(** [content.split("\n").filter((l) => l.trim())] *)
Definition contentLines (content : jsstring) : list jsstring :=
  filter (fun l => truthy (trim l)) (split LF content).

(** The document computed by [parsePlaylistContent] before it is stored. *)
Definition decode (content : jsstring) : result Document :=
  parseLines (contentLines content) {| name := []; items := [] |}.

Definition parsePlaylistContent (content : jsstring) (s : State)
  : result State :=
  d <- decode content ;;
  Ok (setPlaylistItems (items d) (setContainerName (name d) s)).

(** *** [generatePlaylistContent] *)

(** The text computed by [generatePlaylistContent] from the two state
    variables it reads, [playlistItems] and [containerName]. *)
Definition encode (d : Document) : result jsstring :=
  match items d with
  | [] => Ok (js "#EXTM3U" ++ [LF])
  | _ :: _ =>
      let paths := join PIPE (map path (items d)) in
      e <- encodeURIComponent (orElse (Some (name d)) (js "Not predefined")) ;;
      let encodedName := replacePercent20ByPlus e in
      Ok (js "#EXTM3U" ++ [LF] ++ js "Container=<" ++ encodedName
            ++ [GT] ++ paths ++ [LF])
  end.

(** The document held by the state. *)
Definition document (s : State) : Document :=
  {| name := containerName s; items := playlistItems s |}.

Definition generatePlaylistContent (s : State) : result jsstring :=
  encode (document s).

(** *** Adding and removing tracks *)

(** [audioDirectories.find((d) => d.name === selectedDirectoryName)] *)
Definition selectedDirectory (s : State) : option AudioDirectory.t :=
  find (fun d => jseqb (AudioDirectory.name d) (selectedDirectoryName s))
       (audioDirectories s).

Definition buildPathForFile (file : GoogleDriveFile.t)
                            (directory : option AudioDirectory.t) : jsstring :=
  match directory with
  | Some d =>
      replace (AudioDirectory.localPath d) (js "{audio_filename}")
              (GoogleDriveFile.name file)
  | None => js "T:\My Drive\Audio\" ++ GoogleDriveFile.name file
  end.

(** [playlistItems.some((it) => it.path === p)] *)
Definition hasPath (p : jsstring) (l : list TrackRef) : bool :=
  existsb (fun it => jseqb (path it) p) l.

Definition isInPlaylist (file : GoogleDriveFile.t) (s : State) : bool :=
  hasPath (buildPathForFile file (selectedDirectory s)) (playlistItems s).

Definition addFileToPlaylist (file : GoogleDriveFile.t) (s : State)
  : State * list Event :=
  match selectedPlaylist s with
  | None =>
      (s, [Toast (js "Select a playlist")
                 (js "Please select a playlist before adding audio files.")
                 (js "error")])
  | Some _ =>
      let p := buildPathForFile file (selectedDirectory s) in
      if hasPath p (playlistItems s) then (s, [])
      else
        (setPlaylistItems
           (playlistItems s
              ++ [{| path := p;
                     filename := removeFileExtension
                                   (GoogleDriveFile.name file) |}]) s,
         [])
  end.

Definition removeFileFromPlaylist (file : GoogleDriveFile.t) (s : State)
  : State :=
  let p := buildPathForFile file (selectedDirectory s) in
  setPlaylistItems
    (filter (fun it => negb (jseqb (path it) p)) (playlistItems s)) s.

(** [prev.filter((_, i) => i !== index)], the handler of the button on a
    playlist row. *)
Fixpoint filterIndexNot {A : Type} (index : nat) (l : list A) : list A :=
  match l, index with
  | [], _ => []
  | _ :: t, O => t
  | x :: t, S i => x :: filterIndexNot i t
  end.

Definition removeItemAt (index : nat) (s : State) : State :=
  setPlaylistItems (filterIndexNot index (playlistItems s)) s.

(** *** Reordering by drag and drop *)

(** [arr.splice(start, deleteCount, ...ins)] for non-negative integers:
    the array afterwards.  [start] is clamped to the length and
    [deleteCount] to what is left after [start]. *)
Definition splice {A : Type} (start deleteCount : nat) (ins arr : list A)
  : list A :=
  let len := List.length arr in
  let actualStart := Nat.min start len in
  let actualDeleteCount := Nat.min deleteCount (len - actualStart) in
  firstn actualStart arr ++ ins ++ skipn (actualStart + actualDeleteCount) arr.

(** [handleDrop] with the index carried by the drag event already
    parsed.  [newItems[dragIndex]] is [undefined] when [dragIndex] is out
    of range; [playlistItems] then receives an entry that is no track, a
    state this model does not represent: the result is [None]. *)
Definition handleDrop (dragIndex dropIndex : nat) (s : State)
  : option State :=
  if Nat.eqb dragIndex dropIndex then Some s
  else
    match nth_error (playlistItems s) dragIndex with
    | Some draggedItem =>
        Some (setPlaylistItems
                (splice dropIndex 0 [draggedItem]
                        (splice dragIndex 1 [] (playlistItems s))) s)
    | None => None
    end.

(** *** Saving, loading and resetting *)

(** How a call of the storage client ends: the promise resolves, or it
    rejects with an error whose [message] may be missing. *)
Inductive UpdateResult : Type :=
| Resolved
| Rejected (message : option jsstring).

Inductive FetchResult : Type :=
| Fetched (content : jsstring)
| FetchRejected (message : option jsstring).

Definition isAuthenticationError (errorMessage : jsstring) : bool :=
  includes errorMessage (js "Authentication expired")
  || includes errorMessage (js "Not authenticated").

Definition lowerASCII (c : N) : N :=
  if (65 <=? c) && (c <=? 90) then c + 32 else c.

(** [s.replace(/\.m3u8$/i, "")] *)
Fixpoint stripM3u8 (s : jsstring) : jsstring :=
  if jseqb (map lowerASCII s) (js ".m3u8") then []
  else match s with
       | [] => []
       | c :: t => c :: stripM3u8 t
       end.

(** The [catch] block of [savePlaylist], followed by its [finally]. *)
Definition saveFailed (onAuthError : bool) (message : option jsstring)
                      (s : State) : State * list Event :=
  let errorMessage := orElse message (js "Failed to save playlist") in
  if isAuthenticationError errorMessage then
    (setIsSaving false s, if onAuthError then [OnAuthError] else [])
  else (setIsSaving false (setSaveError (Some errorMessage) s), []).

(** [savePlaylist].  [updateFile] stands for the storage client and
    [onAuthError] tells whether the optional callback was supplied. *)
Definition savePlaylist (updateFile : jsstring -> jsstring -> UpdateResult)
                        (onAuthError : bool) (s : State)
  : State * list Event :=
  match selectedPlaylist s with
  | None => (s, [])
  | Some pl =>
      let s1 := setSaveError None (setIsSaving true s) in
      match generatePlaylistContent s1 with
      | Throw e => saveFailed onAuthError (Some (exnMessage e)) s1
      | Ok content =>
          match updateFile (GoogleDriveFile.id pl) content with
          | Resolved =>
              (setIsSaving false (setOriginalContent content s1),
               [Toast (js "Playlist saved")
                      (stripM3u8 (GoogleDriveFile.name pl)
                         ++ js " was updated successfully.")
                      (js "success")])
          | Rejected message => saveFailed onAuthError message s1
          end
      end
  end.

(** The [catch] block of the loading effect: only an authentication
    error is reported. *)
Definition loadFailed (onAuthError : bool) (message : option jsstring)
  : list Event :=
  let errorMessage :=
    match message with
    | Some m => m
    | None => js "Failed to load playlist content"
    end in
  if isAuthenticationError errorMessage && onAuthError then [OnAuthError]
  else [].

(** The effect run when [selectedPlaylist] changes. *)
Definition load (getFileContent : jsstring -> FetchResult)
                (onAuthError : bool) (s : State) : State * list Event :=
  match selectedPlaylist s with
  | None =>
      (setContainerName []
         (setPlaylistItems [] (setOriginalContent (js "#EXTM3U" ++ [LF]) s)),
       [])
  | Some pl =>
      match getFileContent (GoogleDriveFile.id pl) with
      | Fetched content =>
          let s1 := setOriginalContent content s in
          match parsePlaylistContent content s1 with
          | Ok s2 => (s2, [])
          | Throw e => (s1, loadFailed onAuthError (Some (exnMessage e)))
          end
      | FetchRejected message => (s, loadFailed onAuthError message)
      end
  end.

Definition resetPlaylist (s : State) : result State :=
  parsePlaylistContent (originalContent s) s.

(** *** The state at mount *)

(** The initial values of the state variables, for the configured
    directories ([DEFAULT_AUDIO_DIRECTORIES]). *)
Definition initialState (directories : list AudioDirectory.t) : State :=
  {| selectedPlaylist := None;
     audioDirectories := directories;
     selectedDirectoryName :=
       match directories with
       | d :: _ => AudioDirectory.name d
       | [] => []
       end;
     originalContent := js "#EXTM3U" ++ [LF];
     playlistItems := [];
     containerName := [];
     isSaving := false;
     saveError := None |}.

(** *** The edit session of the specification *)

(** Load: the playlist [pl] is selected and its text [raw] is fetched. *)
Definition Load (pl : GoogleDriveFile.t) (raw : jsstring) (s : State)
  : State :=
  fst (load (fun _ => Fetched raw) true (setSelectedPlaylist (Some pl) s)).

Inductive Edit : Type :=
| Add (file : GoogleDriveFile.t)
| Remove (file : GoogleDriveFile.t)
| RemoveAt (index : nat)
| Reorder (fromIndex toIndex : nat).

Definition applyEdit (s : State) (e : Edit) : option State :=
  match e with
  | Add file => Some (fst (addFileToPlaylist file s))
  | Remove file => Some (removeFileFromPlaylist file s)
  | RemoveAt index => Some (removeItemAt index s)
  | Reorder fromIndex toIndex => handleDrop fromIndex toIndex s
  end.

Fixpoint applyEdits (s : State) (es : list Edit) : option State :=
  match es with
  | [] => Some s
  | e :: es' =>
      match applyEdit s e with
      | Some s' => applyEdits s' es'
      | None => None
      end
  end.

End PlaylistManager.

(** ** The list of playlists of [PlaylistManager] ([loadInitialData]) *)

Module PlaylistList.

Import JS PlaylistManager.

(** The state variables written by [loadInitialData]. *)
Record State : Type :=
  { playlists : list GoogleDriveFile.t;
    isLoading : bool;
    error : option jsstring }.

(** How [googleDriveService.listFiles] ends. *)
Inductive ListResult : Type :=
| Listed (files : list GoogleDriveFile.t)
| ListRejected (message : option jsstring).

(** [(file) => file.name.endsWith(".m3u8")] *)
Definition isM3u8 (file : GoogleDriveFile.t) : bool :=
  endsWith (GoogleDriveFile.name file) (js ".m3u8").

(** [loadInitialData] for the configured playlist folder.  [listFiles]
    stands for the storage client, whose token the function sets first;
    [message] is [None] for a thrown value that is no [Error]. *)
Definition loadInitialData (folderId : jsstring)
                           (listFiles : jsstring -> ListResult)
                           (onAuthError : bool) (s : State)
  : State * list Event :=
  if negb (truthy folderId) then
    ({| playlists := playlists s; isLoading := false;
        error := Some (js "Playlist folder not configured. Please configure your Google Drive folders in the settings.") |},
     [])
  else
    match listFiles folderId with
    | Listed playlistFiles =>
        ({| playlists := filter isM3u8 playlistFiles; isLoading := false;
            error := None |}, [])
    | ListRejected message =>
        let errorMessage :=
          match message with
          | Some m => m
          | None => js "Failed to load playlists"
          end in
        if isAuthenticationError errorMessage then
          ({| playlists := playlists s; isLoading := false; error := None |},
           if onAuthError then [OnAuthError] else [])
        else
          ({| playlists := playlists s; isLoading := false;
              error := Some errorMessage |}, [])
    end.

(** *** The list shown ([filteredPlaylists]) *)

Section Shown.

(** [String.prototype.toLowerCase] and [String.prototype.localeCompare]
    of the engine, whose results depend on its Unicode and locale
    data. *)
Variable toLowerCase : jsstring -> jsstring.
Variable localeCompare : jsstring -> jsstring -> Z.

(** [arr.sort((a, b) => a.name.localeCompare(b.name))].  The sort is
    stable and [localeCompare] is a consistent comparator, so the result
    is that of putting each element before the first one that it does
    not come after. *)
Fixpoint insertByName (x : GoogleDriveFile.t) (sorted : list GoogleDriveFile.t)
  : list GoogleDriveFile.t :=
  match sorted with
  | [] => [x]
  | y :: sorted' =>
      if (0 <? localeCompare (GoogleDriveFile.name x) (GoogleDriveFile.name y))%Z
      then y :: insertByName x sorted'
      else x :: sorted
  end.

Definition sortByName (arr : list GoogleDriveFile.t) : list GoogleDriveFile.t :=
  fold_right insertByName [] arr.

(** The memo [filteredPlaylists] for a search text: the list it returns
    and the state it leaves.  [sort] works in place: without a search
    text the array sorted is the state array itself, which is then also
    the list returned; with one it is the copy made by [filter]. *)
Definition filteredPlaylists (playlistSearch : jsstring) (s : State)
  : State * list GoogleDriveFile.t :=
  if truthy playlistSearch then
    (s,
     sortByName
       (filter (fun pl => includes (toLowerCase (GoogleDriveFile.name pl))
                                   (toLowerCase playlistSearch))
               (playlists s)))
  else
    let sorted := sortByName (playlists s) in
    ({| playlists := sorted; isLoading := isLoading s; error := error s |},
     sorted).

End Shown.

End PlaylistList.

(** ** The folder configuration ([lib/folder-config]) *)

Module FolderConfig.

Import JS.

(** The active (test) configuration. *)
Definition DEFAULT_AUDIO_DIRECTORIES : list AudioDirectory.t :=
  [ {| AudioDirectory.name := js "IDs-";
       AudioDirectory.driveId := js "1cy56CgC1KtxCgZI-kGOEWTTNuC5rjzh_";
       AudioDirectory.localPath := js "T:\REGFM RadioBOSS\IDs\{audio_filename}" |};
    {| AudioDirectory.name := js "CSAs - Audio";
       AudioDirectory.driveId := js "14Oy00clKujI6ldWv7NW35DybZVBN_MPm";
       AudioDirectory.localPath :=
         js "T:\REGFM RadioBOSS\CSAs Audio\{audio_filename}" |};
    {| AudioDirectory.name := js "Promos - Audio";
       AudioDirectory.driveId := js "1PzkL-eDZVPU-g3D7c5IUY93g14-SV3l6";
       AudioDirectory.localPath :=
         js "T:\REGFM RadioBOSS\Promos\{audio_filename}" |};
    {| AudioDirectory.name := js "Sponsors - Audio";
       AudioDirectory.driveId := js "1B_LOIo2jl_-P-1UrWoRZ4W688_lk0NQC";
       AudioDirectory.localPath :=
         js "T:\REGFM RadioBOSS\Sponsors\{audio_filename}" |} ].

Definition PLAYLIST_FOLDER_ID : jsstring :=
  js "1sPxn5mFxy7DagMtpmGGq4-K1c98BX_-b".

(** The object returned by [getConfigInfo]: the fields of [CONFIG_INFO]
    and three computed ones. *)
Record ConfigInfo : Type :=
  { version : jsstring;
    lastUpdated : jsstring;
    environment : jsstring;
    description : jsstring;
    totalDirectories : nat;
    configuredDirectories : nat;
    playlistFolderConfigured : bool }.

(** The body of [getConfigInfo], for any values of the two constants. *)
Definition getConfigInfoOf (folderId : jsstring)
                           (directories : list AudioDirectory.t) : ConfigInfo :=
  {| version := js "1.0.0";
     lastUpdated := js "2025-09-25";
     environment := js "test";
     description := js "Audio Playlist Manager folder configuration";
     totalDirectories := List.length directories;
     configuredDirectories :=
       List.length
         (filter (fun d => truthy (AudioDirectory.driveId d)) directories);
     playlistFolderConfigured := truthy folderId |}.

Definition getConfigInfo : ConfigInfo :=
  getConfigInfoOf PLAYLIST_FOLDER_ID DEFAULT_AUDIO_DIRECTORIES.

Record Validation : Type := { isValid : bool; errors : list jsstring }.

(** [name, index, arr => arr.indexOf(name) !== index] *)
Definition notFirstOccurrence (arr : list jsstring) (name : jsstring)
                              (index : nat) : bool :=
  match arrayIndexOf name arr with
  | Some i => negb (Nat.eqb i index)
  | None => true
  end.

(** The body of [validateConfig], for any values of the two constants. *)
Definition validateConfigOf (folderId : jsstring)
                            (directories : list AudioDirectory.t) : Validation :=
  let errors1 :=
    if truthy folderId then []
    else [js "Playlist folder ID is not configured"] in
  let unconfiguredDirs :=
    filter (fun d => negb (truthy (AudioDirectory.driveId d))) directories in
  let errors2 :=
    if Nat.ltb 0 (List.length unconfiguredDirs) then
      errors1
        ++ [js "Unconfigured directories: "
              ++ joinWith (js ", ") (map AudioDirectory.name unconfiguredDirs)]
    else errors1 in
  let names := map AudioDirectory.name directories in
  let duplicateNames := filterWithIndex (notFirstOccurrence names) 0 names in
  let errors3 :=
    if Nat.ltb 0 (List.length duplicateNames) then
      errors2
        ++ [js "Duplicate directory names: "
              ++ joinWith (js ", ") duplicateNames]
    else errors2 in
  {| isValid := Nat.eqb (List.length errors3) 0; errors := errors3 |}.

Definition validateConfig : Validation :=
  validateConfigOf PLAYLIST_FOLDER_ID DEFAULT_AUDIO_DIRECTORIES.

End FolderConfig.

(** ** The component [DirectoryConfig] *)

Module DirectoryConfig.

Import JS.
Open Scope N_scope.

(** The class [[a-zA-Z0-9-_]]. *)
Definition isIdChar (c : N) : bool :=
  ((97 <=? c) && (c <=? 122)) || ((65 <=? c) && (c <=? 90))
  || ((48 <=? c) && (c <=? 57)) || (c =? 45) || (c =? 95).

(** The pattern [folders\/([a-zA-Z0-9-_]+)] matches at the start of [s]:
    its group, the longest run of class members after the slash. *)
Definition foldersMatchHere (s : jsstring) : option jsstring :=
  match stripPrefix (js "folders/") s with
  | None => None
  | Some r =>
      match span isIdChar r with
      | ((_ :: _) as id, _) => Some id
      | _ => None
      end
  end.

(** [url.match(/folders\/([a-zA-Z0-9-_]+)/)]: the group of the leftmost
    match. *)
Fixpoint foldersMatch (url : jsstring) : option jsstring :=
  match foldersMatchHere url with
  | Some id => Some id
  | None =>
      match url with
      | [] => None
      | _ :: t => foldersMatch t
      end
  end.

Definition extractFolderIdFromUrl (url : jsstring) : jsstring :=
  match foldersMatch url with
  | Some id => id
  | None => url
  end.

(** The state variables of the component. *)
Record State : Type :=
  { isOpen : bool;
    editingDirectories : list AudioDirectory.t;
    newDirectory : AudioDirectory.t;
    showAddForm : bool }.

Definition emptyDirectory : AudioDirectory.t :=
  {| AudioDirectory.name := []; AudioDirectory.driveId := [];
     AudioDirectory.localPath := [] |}.

(** The state at mount, for the [directories] given to the component. *)
Definition initial (directories : list AudioDirectory.t) : State :=
  {| isOpen := false; editingDirectories := directories;
     newDirectory := emptyDirectory; showAddForm := false |}.

(** [keyof AudioDirectory] *)
Inductive Field : Type :=
| Name
| DriveId
| LocalPath.

(** [{ ...directory, [field]: value }] *)
Definition withField (field : Field) (value : jsstring)
                     (directory : AudioDirectory.t) : AudioDirectory.t :=
  match field with
  | Name =>
      {| AudioDirectory.name := value;
         AudioDirectory.driveId := AudioDirectory.driveId directory;
         AudioDirectory.localPath := AudioDirectory.localPath directory |}
  | DriveId =>
      {| AudioDirectory.name := AudioDirectory.name directory;
         AudioDirectory.driveId := value;
         AudioDirectory.localPath := AudioDirectory.localPath directory |}
  | LocalPath =>
      {| AudioDirectory.name := AudioDirectory.name directory;
         AudioDirectory.driveId := AudioDirectory.driveId directory;
         AudioDirectory.localPath := value |}
  end.

(** [updated[index] = f(updated[index])] on a copy of the array, for an
    index of the array; [None] for any other index. *)
Fixpoint updateAt {A : Type} (index : nat) (f : A -> A) (arr : list A)
  : option (list A) :=
  match arr, index with
  | [], _ => None
  | x :: arr', O => Some (f x :: arr')
  | x :: arr', S i =>
      match updateAt i f arr' with
      | Some updated => Some (x :: updated)
      | None => None
      end
  end.

(** [handleDirectoryChange], called for the rows shown. *)
Definition handleDirectoryChange (index : nat) (field : Field)
                                 (value : jsstring) (s : State)
  : option State :=
  match updateAt index (withField field value) (editingDirectories s) with
  | Some updated =>
      Some {| isOpen := isOpen s; editingDirectories := updated;
              newDirectory := newDirectory s; showAddForm := showAddForm s |}
  | None => None
  end.

Definition handleAddDirectory (s : State) : State :=
  if negb (truthy (AudioDirectory.name (newDirectory s)))
     || negb (truthy (AudioDirectory.driveId (newDirectory s)))
     || negb (truthy (AudioDirectory.localPath (newDirectory s)))
  then s
  else
    {| isOpen := isOpen s;
       editingDirectories := editingDirectories s ++ [newDirectory s];
       newDirectory := emptyDirectory;
       showAddForm := false |}.

Definition handleRemoveDirectory (index : nat) (s : State) : State :=
  {| isOpen := isOpen s;
     editingDirectories :=
       PlaylistManager.filterIndexNot index (editingDirectories s);
     newDirectory := newDirectory s;
     showAddForm := showAddForm s |}.

(** [handleSave]: the state, and the list given to
    [onDirectoriesUpdated]. *)
Definition handleSave (s : State) : State * list AudioDirectory.t :=
  ({| isOpen := false; editingDirectories := editingDirectories s;
      newDirectory := newDirectory s; showAddForm := showAddForm s |},
   editingDirectories s).

(** [handleCancel], for the [directories] given to the component. *)
Definition handleCancel (directories : list AudioDirectory.t) (s : State)
  : State :=
  {| isOpen := false; editingDirectories := directories;
     newDirectory := newDirectory s; showAddForm := false |}.

(** The change handlers of the two folder fields: what is typed goes
    through [extractFolderIdFromUrl]. *)
Definition changeDriveId (index : nat) (typed : jsstring) (s : State)
  : option State :=
  handleDirectoryChange index DriveId (extractFolderIdFromUrl typed) s.

Definition changeNewDriveId (typed : jsstring) (s : State) : State :=
  {| isOpen := isOpen s; editingDirectories := editingDirectories s;
     newDirectory := withField DriveId (extractFolderIdFromUrl typed)
                               (newDirectory s);
     showAddForm := showAddForm s |}.

(** The change handlers of the other two fields of the form. *)
Definition changeNewName (typed : jsstring) (s : State) : State :=
  {| isOpen := isOpen s; editingDirectories := editingDirectories s;
     newDirectory := withField Name typed (newDirectory s);
     showAddForm := showAddForm s |}.

Definition changeNewLocalPath (typed : jsstring) (s : State) : State :=
  {| isOpen := isOpen s; editingDirectories := editingDirectories s;
     newDirectory := withField LocalPath typed (newDirectory s);
     showAddForm := showAddForm s |}.

End DirectoryConfig.

(** ** The component [PlaylistOperations] *)

Module PlaylistOperations.

Import JS.

(** The state variables of the component. *)
Record State : Type :=
  { isCreateOpen : bool;
    newPlaylistName : jsstring;
    isCreating : bool;
    error : option jsstring }.

(** How the upload request ends: a response with its [ok] flag, or a
    rejected fetch. *)
Inductive UploadResult : Type :=
| Responded (ok : bool)
| UploadRejected.

Inductive Event : Type :=
| OnPlaylistCreated.

(** The text of the new file. *)
Definition initialContent : jsstring := js "#EXTM3U" ++ [LF].

(** The name given to the new file. *)
Definition fileNameOf (newPlaylistName : jsstring) : jsstring :=
  if endsWith newPlaylistName (js ".m3u8") then newPlaylistName
  else newPlaylistName ++ js ".m3u8".

(** [createNewPlaylist].  [upload] stands for the request that creates
    the file and is given the file name put into its metadata. *)
Definition createNewPlaylist (upload : jsstring -> UploadResult) (s : State)
  : State * list Event :=
  if negb (truthy (trim (newPlaylistName s))) then (s, [])
  else
    match upload (fileNameOf (newPlaylistName s)) with
    | Responded true =>
        ({| isCreateOpen := false; newPlaylistName := [];
            isCreating := false; error := None |},
         [OnPlaylistCreated])
    | _ =>
        ({| isCreateOpen := isCreateOpen s;
            newPlaylistName := newPlaylistName s;
            isCreating := false;
            error := Some (js "Failed to create new playlist. Please try again.") |},
         [])
    end.

End PlaylistOperations.

(** ** The hook [useDragDrop] *)

Module DragDrop.

Import JS.

Section Items.

(** The dragged items and their truthiness. *)
Variable Item : Type.
Variable truthyItem : Item -> bool.

(** The state of the hook and the counter it keeps in a ref. *)
Record State : Type :=
  { isDragging : bool;
    draggedItem : option Item;
    dropTarget : option jsstring;
    dragCounter : Z }.

Definition initial : State :=
  {| isDragging := false; draggedItem := None; dropTarget := None;
     dragCounter := 0%Z |}.

Definition handleDragStart (item : option Item) (s : State) : State :=
  {| isDragging := true; draggedItem := item;
     dropTarget := dropTarget s; dragCounter := dragCounter s |}.

Definition handleDragEnd (s : State) : State := initial.

Definition handleDragEnter (targetId : jsstring) (s : State) : State :=
  {| isDragging := isDragging s; draggedItem := draggedItem s;
     dropTarget := Some targetId; dragCounter := (dragCounter s + 1)%Z |}.

Definition handleDragLeave (s : State) : State :=
  let counter := (dragCounter s - 1)%Z in
  {| isDragging := isDragging s; draggedItem := draggedItem s;
     dropTarget := if (counter =? 0)%Z then None else dropTarget s;
     dragCounter := counter |}.

(** [handleDrop]: the item handed to [onDrop], if any, and the state. *)
Definition handleDrop (s : State) : State * option Item :=
  (handleDragEnd s,
   match draggedItem s with
   | Some item => if truthyItem item then Some item else None
   | None => None
   end).

(** The events of the hook that do not end the drag. *)
Inductive Hover : Type :=
| Enter (targetId : jsstring)
| Leave.

Definition hover (s : State) (h : Hover) : State :=
  match h with
  | Enter targetId => handleDragEnter targetId s
  | Leave => handleDragLeave s
  end.

End Items.

End DragDrop.

(** ** The storage client ([lib/google-drive]) *)

Module GoogleDriveService.

Import JS URI PlaylistManager.
Open Scope N_scope.

(** [localStorage]: the stored pairs. *)
Definition Storage : Type := list (jsstring * jsstring).

Definition getItem (key : jsstring) (st : Storage) : option jsstring :=
  match find (fun kv => jseqb (fst kv) key) st with
  | Some kv => Some (snd kv)
  | None => None
  end.

Definition removeItem (key : jsstring) (st : Storage) : Storage :=
  filter (fun kv => negb (jseqb (fst kv) key)) st.

Definition STORAGE_TOKEN_KEY : jsstring := js "google_access_token".
Definition STORAGE_EXP_KEY : jsstring := js "google_access_token_expires_at".
Definition STORAGE_REFRESH_TOKEN_KEY : jsstring := js "google_refresh_token".
Definition STORAGE_USER_INFO_KEY : jsstring := js "google_user_info".

(** The fields of the service that its request methods read and write,
    with the [localStorage] of the browser it runs in;
    [pendingPromise] tells whether the field holds a promise. *)
Record t : Type :=
  { accessToken : option jsstring;
    pendingPromise : bool;
    localStorage : Storage }.

Definition clearStoredTokens (sv : t) : t :=
  {| accessToken := accessToken sv;
     pendingPromise := pendingPromise sv;
     localStorage :=
       removeItem STORAGE_USER_INFO_KEY
         (removeItem STORAGE_REFRESH_TOKEN_KEY
            (removeItem STORAGE_EXP_KEY
               (removeItem STORAGE_TOKEN_KEY (localStorage sv)))) |}.

(** The token, when [this.accessToken] is truthy. *)
Definition token (sv : t) : option jsstring :=
  match accessToken sv with
  | Some tk => if truthy tk then Some tk else None
  | None => None
  end.

Definition isAuthenticated (sv : t) : bool :=
  match token sv with
  | Some _ => true
  | None => false
  end.

Definition getAccessToken (sv : t) : option jsstring := accessToken sv.

Definition setAccessToken (tk : jsstring) (sv : t) : t :=
  {| accessToken := Some tk;
     pendingPromise := pendingPromise sv;
     localStorage := localStorage sv |}.

Definition clearAuthentication (sv : t) : t :=
  clearStoredTokens
    {| accessToken := None; pendingPromise := false;
       localStorage := localStorage sv |}.

(** What the request methods do on a response with status 401:
    [clearStoredTokens()], then the two fields are set to [null]. *)
Definition expire (sv : t) : t :=
  let sv1 := clearStoredTokens sv in
  {| accessToken := None; pendingPromise := false;
     localStorage := localStorage sv1 |}.

(** [String(n)] for a number that is a natural number below 10^21: its
    decimal digits. *)
Fixpoint digits (u : Decimal.uint) : jsstring :=
  match u with
  | Decimal.Nil => []
  | Decimal.D0 u' => 48 :: digits u'
  | Decimal.D1 u' => 49 :: digits u'
  | Decimal.D2 u' => 50 :: digits u'
  | Decimal.D3 u' => 51 :: digits u'
  | Decimal.D4 u' => 52 :: digits u'
  | Decimal.D5 u' => 53 :: digits u'
  | Decimal.D6 u' => 54 :: digits u'
  | Decimal.D7 u' => 55 :: digits u'
  | Decimal.D8 u' => 56 :: digits u'
  | Decimal.D9 u' => 57 :: digits u'
  end.

Definition numberToString (n : N) : jsstring := digits (N.to_uint n).

(** A request as the methods build it. *)
Record Request : Type :=
  { method : jsstring;
    url : jsstring;
    authorization : jsstring;
    contentType : option jsstring;
    body : option jsstring }.

(** How reading a response body ends: the value read, or a rejection
    with the message of the error (none for a value that is no
    [Error]). *)
Inductive Body (A : Type) : Type :=
| Read (a : A)
| ReadFails (message : option jsstring).

Arguments Read {A} a.
Arguments ReadFails {A} message.

(** The object read by [response.json()] in [listFiles]. *)
Record Page : Type :=
  { files : option (list GoogleDriveFile.t);
    nextPageToken : option jsstring }.

(** A response: its status line and what [text()] and [json()] give. *)
Record Response : Type :=
  { status : N;
    statusText : jsstring;
    text : Body jsstring;
    json : Body Page }.

(** [response.ok]: the status is in the range 200 to 299. *)
Definition ok (r : Response) : bool :=
  (200 <=? status r) && (status r <=? 299).

(** How [fetch] ends. *)
Inductive Outcome : Type :=
| Responds (r : Response)
| FetchFails (message : option jsstring).

Definition bearer (tk : jsstring) : jsstring := js "Bearer " ++ tk.

(** The request of [updateFile]. *)
Definition updateRequest (tk fileId content : jsstring) : Request :=
  {| method := js "PATCH";
     url := js "https://www.googleapis.com/upload/drive/v3/files/"
              ++ fileId ++ js "?uploadType=media&supportsAllDrives=true";
     authorization := bearer tk;
     contentType := Some (js "text/plain");
     body := Some content |}.

(** The request of [getFileContent]. *)
Definition contentRequest (tk fileId : jsstring) : Request :=
  {| method := js "GET";
     url := js "https://www.googleapis.com/drive/v3/files/"
              ++ fileId ++ js "?alt=media";
     authorization := bearer tk;
     contentType := None;
     body := None |}.

(** The request of [listFiles] for the page at [pageAddress]. *)
Definition pageRequest (tk pageAddress : jsstring) : Request :=
  {| method := js "GET";
     url := pageAddress;
     authorization := bearer tk;
     contentType := None;
     body := None |}.

(** [updateFile] *)
Definition updateFile (fetch : Request -> Outcome) (fileId content : jsstring)
                      (sv : t) : t * UpdateResult :=
  match token sv with
  | None => (sv, Rejected (Some (js "Not authenticated. Please sign in first.")))
  | Some tk =>
      match fetch (updateRequest tk fileId content) with
      | FetchFails message => (sv, Rejected message)
      | Responds response =>
          if negb (ok response) then
            match text response with
            | ReadFails message => (sv, Rejected message)
            | Read errorText =>
                if status response =? 401 then
                  (expire sv,
                   Rejected (Some (js "Authentication expired. Please sign in again.")))
                else
                  (sv,
                   Rejected (Some (js "Failed to update file: "
                                     ++ numberToString (status response)
                                     ++ js " " ++ statusText response)))
            end
          else (sv, Resolved)
      end
  end.

(** [getFileContent] *)
Definition getFileContent (fetch : Request -> Outcome) (fileId : jsstring)
                          (sv : t) : t * FetchResult :=
  match token sv with
  | None =>
      (sv, FetchRejected (Some (js "Not authenticated. Please sign in first.")))
  | Some tk =>
      match fetch (contentRequest tk fileId) with
      | FetchFails message => (sv, FetchRejected message)
      | Responds response =>
          if negb (ok response) then
            match text response with
            | ReadFails message => (sv, FetchRejected message)
            | Read errorText =>
                if status response =? 401 then
                  (expire sv,
                   FetchRejected
                     (Some (js "Authentication expired. Please sign in again.")))
                else
                  (sv,
                   FetchRejected
                     (Some (js "Failed to fetch file content: "
                              ++ numberToString (status response)
                              ++ js " " ++ statusText response)))
            end
          else
            match text response with
            | ReadFails message => (sv, FetchRejected message)
            | Read content => (sv, Fetched content)
            end
      end
  end.

(** The address of one page of [listFiles]. *)
Definition pageUrl (folderId : jsstring) (pageToken : option jsstring)
  : result jsstring :=
  let q := js "%22" ++ folderId
              ++ js "%22%20in%20parents%20and%20trashed%3Dfalse" in
  let fields :=
    js "nextPageToken,files(id,name,mimeType,parents,webViewLink,size,modifiedTime)" in
  let url := js "https://www.googleapis.com/drive/v3/files?q=" ++ q
                ++ js "&fields=" ++ fields ++ js "&pageSize=" ++ numberToString 1000 in
  match pageToken with
  | Some tk =>
      if truthy tk then
        e <- encodeURIComponent tk ;;
        Ok (url ++ js "&pageToken=" ++ e)
      else Ok url
  | None => Ok url
  end.

Definition folderNotFound (folderId : jsstring) : jsstring :=
  js "Folder not found (404). Please check:" ++ [LF]
    ++ js "1. The folder ID " ++ [34] ++ folderId ++ [34]
    ++ js " exists in your Google Drive" ++ [LF]
    ++ js "2. You have access to this folder" ++ [LF]
    ++ js "3. The folder hasn't been moved or deleted" ++ [LF; LF]
    ++ js "Folder ID: " ++ folderId.

Definition fetchFilesFailed (response : Response) (errorText folderId : jsstring)
  : jsstring :=
  js "Failed to fetch files: " ++ numberToString (status response)
    ++ js " " ++ statusText response ++ [LF; LF]
    ++ js "Details: " ++ errorText ++ [LF]
    ++ js "Folder ID: " ++ folderId.

(** The loop of [listFiles]: one turn for each unit of [fuel], [None]
    when the fuel runs out before the last page. *)
Fixpoint listPages (fuel : nat) (fetch : Request -> Outcome)
                   (folderId tk : jsstring)
                   (allFiles : list GoogleDriveFile.t)
                   (pageToken : option jsstring) (sv : t)
  : option (t * PlaylistList.ListResult) :=
  match fuel with
  | O => None
  | S fuel' =>
      match pageUrl folderId pageToken with
      | Throw e => Some (sv, PlaylistList.ListRejected (Some (exnMessage e)))
      | Ok pageAddress =>
          match fetch (pageRequest tk pageAddress) with
          | FetchFails message =>
              Some (sv, PlaylistList.ListRejected message)
          | Responds response =>
              if negb (ok response) then
                match text response with
                | ReadFails message =>
                    Some (sv, PlaylistList.ListRejected message)
                | Read errorText =>
                    if status response =? 401 then
                      Some (expire sv,
                            PlaylistList.ListRejected
                              (Some (js "Authentication expired. Please sign in again.")))
                    else if status response =? 404 then
                      Some (sv,
                            PlaylistList.ListRejected
                              (Some (folderNotFound folderId)))
                    else
                      Some (sv,
                            PlaylistList.ListRejected
                              (Some (fetchFilesFailed response errorText
                                                      folderId)))
                end
              else
                match json response with
                | ReadFails message =>
                    Some (sv, PlaylistList.ListRejected message)
                | Read data =>
                    let allFiles' :=
                      allFiles ++ match files data with
                                  | Some fs => fs
                                  | None => []
                                  end in
                    match nextPageToken data with
                    | Some next =>
                        if truthy next then
                          listPages fuel' fetch folderId tk allFiles'
                                    (Some next) sv
                        else Some (sv, PlaylistList.Listed allFiles')
                    | None => Some (sv, PlaylistList.Listed allFiles')
                    end
                end
          end
      end
  end.

(** [listFiles] *)
Definition listFiles (fuel : nat) (fetch : Request -> Outcome)
                     (folderId : jsstring) (sv : t)
  : option (t * PlaylistList.ListResult) :=
  match token sv with
  | None =>
      Some (sv,
            PlaylistList.ListRejected
              (Some (js "Not authenticated. Please refresh the page and try again.")))
  | Some tk => listPages fuel fetch folderId tk [] None sv
  end.

(** [window.location], as far as the two lists of origins read it. *)
Record Location : Type :=
  { origin : jsstring;
    port : jsstring }.

(** [getAuthorizedOrigins]; [window] is [None] outside a browser. *)
Definition getAuthorizedOrigins (window : option Location) : list jsstring :=
  let currentOrigin :=
    match window with
    | Some location => origin location
    | None => []
    end in
  let origins :=
    [ js "http://localhost:3000";
      js "http://localhost:3001";
      js "https://localhost:3000";
      js "https://localhost:3001";
      js "http://127.0.0.1:3000";
      js "http://127.0.0.1:3001";
      js "https://127.0.0.1:3000";
      js "https://127.0.0.1:3001";
      currentOrigin ] in
  filter truthy (uniqueInOrder [] origins).

(** [GoogleAuthDebugger.checkRequiredOrigins] *)
Definition checkRequiredOrigins (window : option Location) : list jsstring :=
  match window with
  | None => []
  | Some location =>
      let requiredOrigins :=
        [ origin location;
          js "http://localhost:3001";
          js "https://localhost:3001";
          js "http://localhost:3000";
          js "https://localhost:3000";
          js "http://127.0.0.1:3001";
          js "https://127.0.0.1:3001";
          js "http://127.0.0.1:3000";
          js "https://127.0.0.1:3000" ] in
      let requiredOrigins' :=
        if truthy (port location)
           && negb (jseqb (port location) (js "3000"))
           && negb (jseqb (port location) (js "3001"))
        then
          requiredOrigins
            ++ [ js "http://localhost:" ++ port location;
                 js "https://localhost:" ++ port location;
                 js "http://127.0.0.1:" ++ port location;
                 js "https://127.0.0.1:" ++ port location ]
        else requiredOrigins in
      uniqueInOrder [] requiredOrigins'
  end.

End GoogleDriveService.

(** ** The specification's wording, as definitions of its own *)

Module Spec.

Import JS PlaylistManager.
Open Scope N_scope.

(** The sequence without its element at position [n]. *)
Fixpoint removeNth {A : Type} (n : nat) (l : list A) : list A :=
  match n, l with
  | _, [] => []
  | O, _ :: t => t
  | S n', x :: t => x :: removeNth n' t
  end.

(** The sequence with [x] put at position [n]. *)
Fixpoint insertNth {A : Type} (n : nat) (x : A) (l : list A) : list A :=
  match n, l with
  | O, _ => x :: l
  | S _, [] => [x]
  | S n', y :: t => y :: insertNth n' x t
  end.

(** "Removes the item at [fromIndex] and reinserts it at [toIndex] in the
    remaining sequence." *)
Definition moveItem {A : Type} (fromIndex toIndex : nat) (l : list A)
  : list A :=
  match nth_error l fromIndex with
  | Some x => insertNth toIndex x (removeNth fromIndex l)
  | None => l
  end.

(** The text after the last [c] in [s]; all of [s] when it has no [c]. *)
Fixpoint afterLast (c : N) (s : jsstring) : jsstring :=
  match s with
  | [] => []
  | x :: t =>
      if existsb (N.eqb c) t then afterLast c t
      else if x =? c then t else s
  end.

(** "The last path segment (splitting on both [\] and [/], preferring
    whichever produces a non-empty final token)": the backslash is tried
    first, as in the code. *)
Definition lastSegment (p : jsstring) : jsstring :=
  match afterLast BACKSLASH p with
  | [] => afterLast SLASH p
  | t => t
  end.

(** Position of the last [c] in [s]. *)
Fixpoint lastIndexOf (c : N) (s : jsstring) : option nat :=
  match s with
  | [] => None
  | x :: t =>
      match lastIndexOf c t with
      | Some i => Some (S i)
      | None => if x =? c then Some O else None
      end
  end.

(** "Stripping a trailing extension (the substring from the last [.] to
    the end, if any, excluding a leading-dot-only filename)." *)
Definition stripExtension (s : jsstring) : jsstring :=
  match lastIndexOf DOT s with
  | None => s
  | Some O => s
  | Some i => firstn i s
  end.

Definition displayName (p : jsstring) : jsstring :=
  stripExtension (lastSegment p).

End Spec.

Import JS URI PlaylistManager.
Open Scope N_scope.

Unset Implicit Arguments.

(** ** Predicates used in the statements *)

(** A code unit that the first group of the manifest pattern accepts. *)
Definition notGT (c : N) : bool := negb (c =? GT).

(** A code unit that the second group of the manifest pattern accepts. *)
Definition notLineTerminator (c : N) : bool := negb (isLineTerminator c).

(** A code unit that may stand in an encoded name without ending the
    name or the line. *)
Definition nameChar (c : N) : Prop := c <> GT /\ c <> LF.

(** A string that does not start with white space. *)
Definition startsClean (s : jsstring) : Prop :=
  match s with
  | [] => True
  | c :: _ => isWhiteSpace c = false
  end.

(** The item pushed for the entry [p] of a manifest line. *)
Definition entryOf (p : jsstring) : TrackRef :=
  {| path := trim p; filename := removeFileExtension (fullFilename p) |}.

(** An item made from an entry [p] of a manifest line. *)
Definition DecodedItem (it : TrackRef) : Prop :=
  exists p, it = entryOf p /\ trim p <> [] /\ ~ In PIPE p
            /\ Forall (fun c => notLineTerminator c = true) p.

(** A path as the decoder stores it. *)
Definition storedPath (p : jsstring) : Prop :=
  p <> [] /\ trim p = p /\ ~ In PIPE p
  /\ Forall (fun c => notLineTerminator c = true) p.

(** The two tests on a line that lead to the manifest pattern. *)
Definition isManifestLine (line : jsstring) : bool :=
  negb (startsWith line (js "#EXTM3U")) && startsWith line (js "Container=").

(** What the loop keeps true of its two variables. *)
Definition wellDecoded (d : Document) : Prop :=
  Forall DecodedItem (items d) /\ (items d <> [] -> name d <> []).

(** The items that one line of the text contributes. *)
Definition lineItems (line : jsstring) : list TrackRef :=
  if isManifestLine line then
    match containerMatch line with
    | Some (_, m2) =>
        map entryOf (filter (fun p => truthy (trim p)) (split PIPE m2))
    | None => []
    end
  else [].

(** The entries of one line of the text that become items: the pieces
    between [|] of the second group of a manifest line that are not
    blank, untrimmed. *)
Definition lineEntries (line : jsstring) : list jsstring :=
  if isManifestLine line then
    match containerMatch line with
    | Some (_, m2) => filter (fun p => truthy (trim p)) (split PIPE m2)
    | None => []
    end
  else [].

(** The entries of a text, line after line. *)
Definition manifestEntries (raw : jsstring) : list jsstring :=
  flat_map lineEntries (contentLines raw).

(** The playlists held after the renders that follow a load, one for
    each search text, in the order of the renders. *)
Definition afterRenders (toLowerCase : jsstring -> jsstring)
                        (localeCompare : jsstring -> jsstring -> Z)
                        (searches : list jsstring) (s : PlaylistList.State)
  : PlaylistList.State :=
  fold_left
    (fun st q =>
       fst (PlaylistList.filteredPlaylists toLowerCase localeCompare q st))
    searches s.

(** The same text with Windows line ends: CR before every LF. *)
Definition toCRLF (raw : jsstring) : jsstring :=
  flat_map (fun c => if c =? LF then [13; LF] else [c]) raw.

(** The pieces of a text split at LF, when a CR stands before every LF:
    each piece but the last ends with the CR. *)
Fixpoint withCR (pieces : list jsstring) : list jsstring :=
  match pieces with
  | [] => []
  | [p] => [p]
  | p :: ps => (p ++ [13]) :: withCR ps
  end.

(** The files of a page of a listing: [data.files || []]. *)
Definition filesOf (p : GoogleDriveService.Page) : list GoogleDriveFile.t :=
  match GoogleDriveService.files p with
  | Some fs => fs
  | None => []
  end.

(** The server answers the requests of [listFiles] with [pages], one
    after the other, from the page asked for with [pageToken] on: each
    page but the last names the next one. *)
Fixpoint servesPages (fetch : GoogleDriveService.Request
                              -> GoogleDriveService.Outcome)
                     (folderId tk : jsstring) (pageToken : option jsstring)
                     (pages : list GoogleDriveService.Page) : Prop :=
  match pages with
  | [] => False
  | p :: ps =>
      exists address response,
        GoogleDriveService.pageUrl folderId pageToken = Ok address
        /\ fetch (GoogleDriveService.pageRequest tk address)
           = GoogleDriveService.Responds response
        /\ GoogleDriveService.ok response = true
        /\ GoogleDriveService.json response = GoogleDriveService.Read p
        /\ match ps with
           | [] =>
               match GoogleDriveService.nextPageToken p with
               | Some next => next = []
               | None => True
               end
           | _ :: _ =>
               exists next,
                 GoogleDriveService.nextPageToken p = Some next
                 /\ next <> []
                 /\ servesPages fetch folderId tk (Some next) ps
           end
  end.

(** The four keys under which the service stores a session. *)
Definition sessionKeys : list jsstring :=
  [ GoogleDriveService.STORAGE_TOKEN_KEY;
    GoogleDriveService.STORAGE_EXP_KEY;
    GoogleDriveService.STORAGE_REFRESH_TOKEN_KEY;
    GoogleDriveService.STORAGE_USER_INFO_KEY ].

(** A directory with its three fields filled in. *)
Definition complete (d : AudioDirectory.t) : Prop :=
  AudioDirectory.name d <> [] /\ AudioDirectory.driveId d <> []
  /\ AudioDirectory.localPath d <> [].

(** The origins of the development servers. *)
Definition localOrigins : list jsstring :=
  [ js "http://localhost:3000"; js "http://localhost:3001";
    js "https://localhost:3000"; js "https://localhost:3001";
    js "http://127.0.0.1:3000"; js "http://127.0.0.1:3001";
    js "https://127.0.0.1:3000"; js "https://127.0.0.1:3001" ].

(** Targets entered less targets left in a run of hover events. *)
Fixpoint balance (hs : list DragDrop.Hover) : Z :=
  match hs with
  | [] => 0%Z
  | DragDrop.Enter _ :: hs' => (1 + balance hs')%Z
  | DragDrop.Leave :: hs' => (balance hs' - 1)%Z
  end.

(** The name read back from a written text: the placeholder stands for
    the empty name. *)
Definition writtenName (n : jsstring) : jsstring :=
  match n with
  | [] => js "Not predefined"
  | _ :: _ => n
  end.

(** ** The built-ins on known inputs *)

Example decodeURIComponent_two_octets :
  decodeURIComponent (js "caf%C3%A9") = Ok (js "caf" ++ [233]).
Proof. reflexivity. Qed.

Example decodeURIComponent_lower_case_digits :
  decodeURIComponent (js "%e2%82%ac") = Ok [8364].
Proof. reflexivity. Qed.

Example decodeURIComponent_surrogate_pair :
  decodeURIComponent (js "%F0%9F%98%80") = Ok [55357; 56832].
Proof. reflexivity. Qed.

Example decodeURIComponent_overlong :
  decodeURIComponent (js "%C0%80") = Throw URIError.
Proof. reflexivity. Qed.

Example decodeURIComponent_encoded_surrogate :
  decodeURIComponent (js "%ED%A0%80") = Throw URIError.
Proof. reflexivity. Qed.

Example decodeURIComponent_truncated :
  decodeURIComponent (js "%E2%82") = Throw URIError.
Proof. reflexivity. Qed.

Example encodeURIComponent_mixed :
  encodeURIComponent (js "a b&" ++ [233; 8364; 55357; 56832] ++ js "-_.!~*'()")
  = Ok (js "a%20b%26%C3%A9%E2%82%AC%F0%9F%98%80-_.!~*'()").
Proof. reflexivity. Qed.

Example split_keeps_empty_pieces :
  split PIPE (js "|a||b|") = [[]; js "a"; []; js "b"; []].
Proof. reflexivity. Qed.

Example trim_white_space :
  trim ([9; 32; 160] ++ js "a b" ++ [13; 10; 65279]) = js "a b".
Proof. reflexivity. Qed.

Example replace_first_occurrence_only :
  replace (js "T:\{audio_filename}\{audio_filename}") (js "{audio_filename}")
          (js "x.mp3")
  = js "T:\x.mp3\{audio_filename}".
Proof. reflexivity. Qed.

Example replace_dollar_patterns :
  replace (js "T:\{audio_filename}") (js "{audio_filename}") (js "a$$b$&c$1.mp3")
  = js "T:\a$b{audio_filename}c$1.mp3".
Proof. reflexivity. Qed.

Example removeFileExtension_known :
  map removeFileExtension
      [js "song.mp3"; js "a.tar.gz"; js "noext"; js ".hidden"; js "a."; js "a.b/c"]
  = [js "song"; js "a.tar"; js "noext"; []; js "a."; js "a.b/c"].
Proof. reflexivity. Qed.

Example containerMatch_later_start :
  containerMatch (js "Container=<>Container=<a>b" ++ [13] ++ js "c")
  = Some (js "a", js "b").
Proof. reflexivity. Qed.

(** ** Strings: equality, prefixes, membership *)

Lemma jseqb_eq (a b : jsstring) : jseqb a b = true <-> a = b.
Proof.
  revert b; induction a as [|x a IH]; intros [|y b]; simpl;
    try (split; (reflexivity || discriminate)).
  rewrite andb_true_iff, N.eqb_eq, IH.
  split; [intros [-> ->]; reflexivity | intros [= -> ->]; auto].
Qed.

Lemma jseqb_refl (a : jsstring) : jseqb a a = true.
Proof. apply jseqb_eq; reflexivity. Qed.

Lemma jseqb_neq (a b : jsstring) : jseqb a b = false <-> a <> b.
Proof.
  rewrite <- jseqb_eq. destruct (jseqb a b); split; congruence.
Qed.

Lemma hasPath_true (p : jsstring) (l : list TrackRef) :
  hasPath p l = true <-> exists it, In it l /\ path it = p.
Proof.
  unfold hasPath. rewrite existsb_exists.
  split; intros [it [Hin H]]; exists it; split; auto; now apply jseqb_eq.
Qed.

Lemma hasPath_false (p : jsstring) (l : list TrackRef) :
  hasPath p l = false <-> forall it, In it l -> path it <> p.
Proof.
  split.
  - intros H it Hin Hp.
    assert (hasPath p l = true) by (apply hasPath_true; eauto). congruence.
  - intros H. destruct (hasPath p l) eqn:E; auto.
    apply hasPath_true in E. destruct E as [it [Hin Hp]].
    exfalso; eapply H; eauto.
Qed.

(** ** Encoding a document without items *)

(** C5: whatever the container name, a document without items is encoded
    as the format line and a newline, without a container line; so is the
    text generated from any state whose [playlistItems] is empty, and so
    is the document named X. *)
Theorem encode_empty_items :
  (forall containerName : jsstring,
      encode {| name := containerName; items := [] |}
      = Ok (js "#EXTM3U" ++ [LF]))
  /\ (forall s : State,
         generatePlaylistContent (setPlaylistItems [] s)
         = Ok (js "#EXTM3U" ++ [LF]))
  /\ encode {| name := js "X"; items := [] |}
     = Ok [35; 69; 88; 84; 77; 51; 85; 10].
Proof. repeat split. Qed.

(** ** Reordering *)

Section Reordering.

Local Open Scope nat_scope.

Variable A : Type.
Implicit Types (l : list A) (x : A).

Lemma removeNth_firstn_skipn (n : nat) l :
  Spec.removeNth n l = firstn n l ++ skipn (S n) l.
Proof.
  revert n; induction l as [|y l IH]; intros [|n]; simpl; try reflexivity.
  f_equal. apply IH.
Qed.

Lemma insertNth_firstn_skipn (n : nat) x l :
  Spec.insertNth n x l = firstn n l ++ x :: skipn n l.
Proof.
  revert n; induction l as [|y l IH]; intros [|n]; simpl; try reflexivity.
  f_equal. apply IH.
Qed.

Lemma splice_remove (n : nat) l :
  splice n 1 [] l = Spec.removeNth n l.
Proof.
  rewrite removeNth_firstn_skipn. unfold splice. cbn [app].
  destruct (Nat.lt_ge_cases n (List.length l)) as [H|H].
  - rewrite Nat.min_l by lia.
    replace (Nat.min 1 (List.length l - n)) with 1 by lia.
    now rewrite Nat.add_1_r.
  - rewrite Nat.min_r by lia.
    rewrite !firstn_all2 by lia. rewrite !skipn_all2 by lia. reflexivity.
Qed.

Lemma splice_insert (n : nat) x l :
  splice n 0 [x] l = Spec.insertNth n x l.
Proof.
  rewrite insertNth_firstn_skipn. unfold splice. cbn [app Nat.min].
  rewrite Nat.add_0_r.
  destruct (Nat.lt_ge_cases n (List.length l)) as [H|H].
  - now rewrite Nat.min_l by lia.
  - rewrite Nat.min_r by lia.
    rewrite !firstn_all2 by lia. rewrite !skipn_all2 by lia. reflexivity.
Qed.

Lemma length_removeNth (n : nat) l :
  n < List.length l -> S (List.length (Spec.removeNth n l)) = List.length l.
Proof.
  revert n; induction l as [|y l IH]; intros [|n] Hn; simpl in *;
    try lia. rewrite IH; lia.
Qed.

Lemma length_insertNth (n : nat) x l :
  List.length (Spec.insertNth n x l) = S (List.length l).
Proof.
  revert n; induction l as [|y l IH]; intros [|n]; simpl; auto.
Qed.

Lemma nth_error_insertNth (n : nat) x l :
  n <= List.length l -> nth_error (Spec.insertNth n x l) n = Some x.
Proof.
  revert n; induction l as [|y l IH]; intros [|n] Hn; simpl in *;
    try reflexivity; try lia. apply IH; lia.
Qed.

Lemma removeNth_insertNth (n : nat) x l :
  n <= List.length l -> Spec.removeNth n (Spec.insertNth n x l) = l.
Proof.
  revert n; induction l as [|y l IH]; intros [|n] Hn; simpl in *;
    try reflexivity; try lia. f_equal. apply IH; lia.
Qed.

Lemma insertNth_removeNth (n : nat) x l :
  nth_error l n = Some x -> Spec.insertNth n x (Spec.removeNth n l) = l.
Proof.
  revert n; induction l as [|y l IH]; intros [|n] Hn; simpl in *;
    try discriminate.
  - congruence.
  - destruct l as [|z l'].
    + destruct n; discriminate.
    + f_equal. apply IH; assumption.
Qed.

End Reordering.

(** C4: with both indices inside the list, [handleDrop] takes the item at
    [fromIndex] out and puts it back at [toIndex] of what remains: the
    result is [Spec.moveItem], it holds the moved item at [toIndex], and
    without that position it is the old list without [fromIndex]; the
    other state variables are untouched.  In particular [A; B; C] with
    indices 0 and 2 becomes [B; C; A]. *)
Theorem handleDrop_moves :
  (forall (s : State) (fromIndex toIndex : nat),
      (fromIndex < List.length (playlistItems s))%nat ->
      (toIndex < List.length (playlistItems s))%nat ->
      exists x s',
        nth_error (playlistItems s) fromIndex = Some x
        /\ handleDrop fromIndex toIndex s = Some s'
        /\ playlistItems s'
           = Spec.moveItem fromIndex toIndex (playlistItems s)
        /\ playlistItems s'
           = Spec.insertNth toIndex x
               (Spec.removeNth fromIndex (playlistItems s))
        /\ nth_error (playlistItems s') toIndex = Some x
        /\ Spec.removeNth toIndex (playlistItems s')
           = Spec.removeNth fromIndex (playlistItems s)
        /\ List.length (playlistItems s') = List.length (playlistItems s)
        /\ containerName s' = containerName s
        /\ originalContent s' = originalContent s)
  /\ (forall (A B C : TrackRef) (s : State),
         handleDrop 0 2 (setPlaylistItems [A; B; C] s)
         = Some (setPlaylistItems [B; C; A] s)).
Proof.
  split; [|reflexivity].
  intros s i j Hi Hj.
  destruct (nth_error (playlistItems s) i) as [x|] eqn:Hx;
    [|apply nth_error_None in Hx; lia].
  assert (Hlen : (j <= List.length (Spec.removeNth i (playlistItems s)))%nat)
    by (pose proof (@length_removeNth _ i (playlistItems s) Hi); lia).
  unfold handleDrop. rewrite Hx.
  destruct (Nat.eqb i j) eqn:E.
  - apply Nat.eqb_eq in E; subst j.
    exists x, s. unfold Spec.moveItem. rewrite Hx.
    rewrite insertNth_removeNth by assumption. repeat split; auto.
  - exists x. eexists. split; [reflexivity|]. split; [reflexivity|].
    cbn [playlistItems setPlaylistItems containerName originalContent].
    rewrite splice_remove, splice_insert.
    unfold Spec.moveItem. rewrite Hx.
    rewrite nth_error_insertNth, removeNth_insertNth, length_insertNth
      by assumption.
    pose proof (@length_removeNth _ i (playlistItems s) Hi).
    repeat split; auto.
Qed.

Lemma handleDrop_moves_witness :
  exists x s',
    nth_error [ {| path := js "a"; filename := js "a" |};
                {| path := js "b"; filename := js "b" |};
                {| path := js "c"; filename := js "c" |} ] 0 = Some x
    /\ handleDrop 0 2
         (setPlaylistItems
            [ {| path := js "a"; filename := js "a" |};
              {| path := js "b"; filename := js "b" |};
              {| path := js "c"; filename := js "c" |} ] (initialState []))
       = Some s'
    /\ playlistItems s'
       = [ {| path := js "b"; filename := js "b" |};
           {| path := js "c"; filename := js "c" |}; x ].
Proof.
  destruct (proj1 handleDrop_moves
              (setPlaylistItems
                 [ {| path := js "a"; filename := js "a" |};
                   {| path := js "b"; filename := js "b" |};
                   {| path := js "c"; filename := js "c" |} ]
                 (initialState [])) 0%nat 2%nat)
    as (x & s' & H1 & H2 & H3 & _).
  - simpl; lia.
  - simpl; lia.
  - exists x, s'. split; [exact H1|]. split; [exact H2|].
    rewrite H3. simpl in H1. injection H1 as <-. reflexivity.
Defined.

(** ** Removing a track *)

Lemma filter_keeps_all {A : Type} (f : A -> bool) (l : list A) :
  (forall x, In x l -> f x = true) -> filter f l = l.
Proof.
  induction l as [|x l IH]; simpl; intros H; auto.
  rewrite (H x) by now left. f_equal. apply IH. intros y Hy. apply H. now right.
Qed.

(** C10: [removeFileFromPlaylist] keeps exactly the items whose path
    differs from the resolved path, in their order: afterwards no item
    has that path, however many had it; every other item stays; a list
    without that path is unchanged.  The state decoded from a file that
    names one path twice loses both entries at once. *)
Theorem removeFileFromPlaylist_removes_every_match :
  (forall (file : GoogleDriveFile.t) (s : State),
      let p := buildPathForFile file (selectedDirectory s) in
      let s' := removeFileFromPlaylist file s in
      (forall it, In it (playlistItems s') <->
                  In it (playlistItems s) /\ path it <> p)
      /\ hasPath p (playlistItems s') = false
      /\ playlistItems s'
         = filter (fun it => negb (jseqb (path it) p)) (playlistItems s)
      /\ (hasPath p (playlistItems s) = false ->
          playlistItems s' = playlistItems s)
      /\ containerName s' = containerName s
      /\ originalContent s' = originalContent s)
  /\ (let file := {| GoogleDriveFile.id := js "1";
                     GoogleDriveFile.name := js "a.mp3" |} in
      let raw := js "#EXTM3U" ++ [LF]
                 ++ js "Container=<n>T:\My Drive\Audio\a.mp3|T:\b.mp3|T:\My Drive\Audio\a.mp3"
                 ++ [LF] in
      let s := Load file raw (initialState []) in
      map path (playlistItems s)
      = [js "T:\My Drive\Audio\a.mp3"; js "T:\b.mp3";
         js "T:\My Drive\Audio\a.mp3"]
      /\ map path (playlistItems (removeFileFromPlaylist file s))
         = [js "T:\b.mp3"]).
Proof.
  split; [|split; vm_compute; reflexivity].
  intros file s p s'. subst s'. unfold removeFileFromPlaylist. fold p.
  cbn [playlistItems setPlaylistItems containerName originalContent].
  assert (Hin : forall it,
             In it (filter (fun it => negb (jseqb (path it) p))
                           (playlistItems s))
             <-> In it (playlistItems s) /\ path it <> p).
  { intros it. rewrite filter_In, negb_true_iff, jseqb_neq. reflexivity. }
  repeat split; try apply Hin; auto.
  - apply hasPath_false. intros it H. now apply Hin in H.
  - intros H. rewrite hasPath_false in H.
    apply filter_keeps_all. intros it Hit.
    apply negb_true_iff, jseqb_neq, H, Hit.
Qed.

(** ** Adding a track *)

Lemma selectedDirectory_setPlaylistItems (l : list TrackRef) (s : State) :
  selectedDirectory (setPlaylistItems l s) = selectedDirectory s.
Proof. reflexivity. Qed.

Lemma hasPath_app (p : jsstring) (l1 l2 : list TrackRef) :
  hasPath p (l1 ++ l2) = hasPath p l1 || hasPath p l2.
Proof. unfold hasPath. apply existsb_app. Qed.

(** C6, as stated, fails: at mount no playlist is selected, the list is
    empty and holds no track with the resolved path, yet
    [addFileToPlaylist] appends nothing. *)
Lemma addFileToPlaylist_needs_selected_playlist :
  let file := {| GoogleDriveFile.id := js "1";
                 GoogleDriveFile.name := js "a.mp3" |} in
  let s := initialState [] in
  let p := buildPathForFile file (selectedDirectory s) in
  hasPath p (playlistItems s) = false
  /\ playlistItems (fst (addFileToPlaylist file s)) = []
  /\ playlistItems (fst (addFileToPlaylist file s))
     <> playlistItems s
        ++ [{| path := p;
               filename := removeFileExtension (GoogleDriveFile.name file) |}].
Proof. repeat split. discriminate. Qed.

(** C6, amended: [addFileToPlaylist] changes nothing when a track with
    the resolved path is already in [playlistItems], and nothing when no
    playlist is selected; otherwise it appends the track, with the file
    name without its extension as display name, at the end.  Adding the
    same file a second time changes nothing, so the length stays. *)
Theorem addFileToPlaylist_idempotent (file : GoogleDriveFile.t) (s : State) :
  let p := buildPathForFile file (selectedDirectory s) in
  let s' := fst (addFileToPlaylist file s) in
  (hasPath p (playlistItems s) = true -> s' = s)
  /\ (selectedPlaylist s = None -> s' = s)
  /\ (selectedPlaylist s <> None ->
      hasPath p (playlistItems s) = false ->
      playlistItems s'
      = playlistItems s
        ++ [{| path := p;
               filename := removeFileExtension (GoogleDriveFile.name file) |}])
  /\ fst (addFileToPlaylist file s') = s'
  /\ List.length (playlistItems (fst (addFileToPlaylist file s')))
     = List.length (playlistItems s').
Proof.
  intros p s'.
  assert (Hidem : fst (addFileToPlaylist file s') = s').
  { subst s'. unfold addFileToPlaylist. fold p.
    destruct (selectedPlaylist s) as [pl|] eqn:Hsel; cbn [fst].
    - destruct (hasPath p (playlistItems s)) eqn:Hp; cbn [fst].
      + rewrite Hsel. fold p. now rewrite Hp.
      + cbn [selectedPlaylist setPlaylistItems playlistItems].
        rewrite Hsel, selectedDirectory_setPlaylistItems. fold p.
        rewrite hasPath_app.
        replace (hasPath p [{| path := p;
                               filename := removeFileExtension
                                             (GoogleDriveFile.name file) |}])
          with true; [now rewrite orb_true_r|].
        symmetry. apply hasPath_true. eexists; split; [now left|reflexivity].
    - now rewrite Hsel. }
  repeat split.
  - intros Hp. subst s'. unfold addFileToPlaylist. fold p.
    destruct (selectedPlaylist s); [rewrite Hp|]; reflexivity.
  - intros Hsel. subst s'. unfold addFileToPlaylist. now rewrite Hsel.
  - intros Hsel Hp. subst s'. unfold addFileToPlaylist. fold p.
    destruct (selectedPlaylist s); [|congruence]. now rewrite Hp.
  - exact Hidem.
  - now rewrite Hidem.
Qed.

Lemma addFileToPlaylist_idempotent_witness :
  let file := {| GoogleDriveFile.id := js "1";
                 GoogleDriveFile.name := js "a.mp3" |} in
  let s := setSelectedPlaylist
             (Some {| GoogleDriveFile.id := js "7";
                      GoogleDriveFile.name := js "show.m3u8" |})
             (initialState []) in
  playlistItems (fst (addFileToPlaylist file s))
  = [{| path := js "T:\My Drive\Audio\a.mp3"; filename := js "a" |}].
Proof.
  intros file s.
  destruct (addFileToPlaylist_idempotent file s) as (_ & _ & H & _).
  rewrite H.
  - reflexivity.
  - discriminate.
  - reflexivity.
Defined.

(** ** Saving *)

Lemma generatePlaylistContent_saving (s : State) (b : bool)
      (e : option jsstring) :
  generatePlaylistContent (setSaveError e (setIsSaving b s))
  = generatePlaylistContent s.
Proof. reflexivity. Qed.

(** The callback is an optional property.  A component given none
    would take the "Authentication expired" error of the storage client
    in silence: [saveError] stays null and nothing is reported.  The
    page never mounts the component that way: it always passes
    [handleAuthError]. *)
Lemma savePlaylist_failure_can_be_silent :
  let pl := {| GoogleDriveFile.id := js "7";
               GoogleDriveFile.name := js "show.m3u8" |} in
  let s := setSelectedPlaylist (Some pl) (initialState []) in
  let updateFile := fun _ _ : jsstring =>
        Rejected (Some (js "Authentication expired. Please sign in again.")) in
  savePlaylist updateFile false s = (s, [])
  /\ saveError (fst (savePlaylist updateFile false s)) = None
  /\ snd (savePlaylist updateFile false s) = [].
Proof. repeat split. Qed.



(** ** Resetting *)

Lemma originalContent_Load (pl : GoogleDriveFile.t) (raw : jsstring)
      (s : State) :
  originalContent (Load pl raw s) = raw.
Proof.
  unfold Load, load, parsePlaylistContent.
  cbn [selectedPlaylist setSelectedPlaylist].
  destruct (decode raw); reflexivity.
Qed.

Lemma document_Load (pl : GoogleDriveFile.t) (raw : jsstring) (s : State)
      (d : Document) :
  decode raw = Ok d -> document (Load pl raw s) = d.
Proof.
  intros H. unfold Load, load, parsePlaylistContent.
  cbn [selectedPlaylist setSelectedPlaylist]. rewrite H.
  destruct d; reflexivity.
Qed.

Lemma originalContent_applyEdit (s s' : State) (e : Edit) :
  applyEdit s e = Some s' -> originalContent s' = originalContent s.
Proof.
  destruct e as [file|file|index|i j]; simpl.
  - intros [= <-]. unfold addFileToPlaylist.
    destruct (selectedPlaylist s); [|reflexivity].
    destruct (hasPath _ _); reflexivity.
  - intros [= <-]. reflexivity.
  - intros [= <-]. reflexivity.
  - unfold handleDrop. destruct (Nat.eqb i j); [now intros [= <-]|].
    destruct (nth_error _ _); [now intros [= <-]|discriminate].
Qed.

Lemma originalContent_applyEdits (es : list Edit) (s s' : State) :
  applyEdits s es = Some s' -> originalContent s' = originalContent s.
Proof.
  revert s; induction es as [|e es IH]; simpl; intros s.
  - now intros [= <-].
  - destruct (applyEdit s e) as [s1|] eqn:E; [|discriminate].
    intros H. rewrite (IH _ H). eapply originalContent_applyEdit; eauto.
Qed.

(** C8, as stated, fails when the loaded text has a manifest line
    whose name is no valid percent-encoding: the decoder throws at the
    load, which keeps the document it had, an added track stays in the
    list, and [resetPlaylist] throws the same error instead of storing a
    document. *)
Lemma resetPlaylist_throws_on_malformed_original :
  let pl := {| GoogleDriveFile.id := js "7";
               GoogleDriveFile.name := js "show.m3u8" |} in
  let raw := js "#EXTM3U" ++ [LF] ++ js "Container=<100%>C:\a.mp3" ++ [LF] in
  let file := {| GoogleDriveFile.id := js "1";
                 GoogleDriveFile.name := js "c.mp3" |} in
  let s1 := fst (addFileToPlaylist file (Load pl raw (initialState []))) in
  decode raw = Throw URIError
  /\ applyEdits (Load pl raw (initialState [])) [Add file] = Some s1
  /\ map path (playlistItems s1) = [js "T:\My Drive\Audio\c.mp3"]
  /\ resetPlaylist s1 = Throw URIError.
Proof. repeat split. Qed.

(** C8, amended: after the text [raw] was loaded and any sequence of
    additions, removals and reorderings was applied, [originalContent] is
    still [raw] and [resetPlaylist] runs the decoder on it.  When the
    decoder returns a document, that document replaces the edited one,
    whatever the edits were; when it throws, [resetPlaylist] throws the
    same error. *)
Theorem resetPlaylist_discards_edits
        (pl : GoogleDriveFile.t) (raw : jsstring) (s0 s1 : State)
        (edits : list Edit) :
  applyEdits (Load pl raw s0) edits = Some s1 ->
  originalContent s1 = raw
  /\ resetPlaylist s1
     = (d <- decode raw ;;
        Ok (setPlaylistItems (items d) (setContainerName (name d) s1)))
  /\ (forall d, decode raw = Ok d ->
                exists s2, resetPlaylist s1 = Ok s2
                           /\ document s2 = d
                           /\ originalContent s2 = raw)
  /\ (forall e, decode raw = Throw e -> resetPlaylist s1 = Throw e).
Proof.
  intros H. apply originalContent_applyEdits in H.
  rewrite originalContent_Load in H.
  unfold resetPlaylist, parsePlaylistContent. rewrite H.
  repeat split.
  - intros d Hd. rewrite Hd. eexists. split; [reflexivity|].
    destruct d; split; [reflexivity|exact H].
  - intros e He. now rewrite He.
Qed.

Lemma resetPlaylist_discards_edits_witness :
  let pl := {| GoogleDriveFile.id := js "7";
               GoogleDriveFile.name := js "show.m3u8" |} in
  let raw := js "#EXTM3U" ++ [LF]
             ++ js "Container=<Morning+Show>C:\a.mp3|C:\b.wav" ++ [LF] in
  let file := {| GoogleDriveFile.id := js "1";
                 GoogleDriveFile.name := js "c.mp3" |} in
  exists s1 s2,
    applyEdits (Load pl raw (initialState []))
               [Add file; Reorder 2 0; RemoveAt 1] = Some s1
    /\ map path (playlistItems s1)
       = [js "T:\My Drive\Audio\c.mp3"; js "C:\b.wav"]
    /\ resetPlaylist s1 = Ok s2
    /\ map path (playlistItems s2) = [js "C:\a.mp3"; js "C:\b.wav"]
    /\ containerName s2 = js "Morning Show".
Proof.
  intros pl raw file.
  destruct (applyEdits (Load pl raw (initialState []))
                       [Add file; Reorder 2 0; RemoveAt 1]) as [s1|] eqn:E;
    [|vm_compute in E; discriminate].
  destruct (resetPlaylist_discards_edits pl raw (initialState []) s1
              [Add file; Reorder 2 0; RemoveAt 1] E)
    as (_ & _ & H & _).
  destruct (H {| name := js "Morning Show";
                 items := [{| path := js "C:\a.mp3"; filename := js "a" |};
                           {| path := js "C:\b.wav"; filename := js "b" |}] |}
              eq_refl) as (s2 & H2 & H3 & _).
  exists s1, s2. split; [reflexivity|].
  split; [vm_compute in E; injection E as <-; reflexivity|].
  split; [exact H2|].
  unfold document in H3. injection H3 as Hn Hi.
  rewrite Hn, Hi. split; reflexivity.
Defined.

(** ** Percent escapes *)

Lemma hexValue_hexDigit (d : N) : d < 16 -> hexValue (hexDigit d) = Some d.
Proof.
  intros H. unfold hexValue, hexDigit.
  destruct (d <? 10) eqn:E.
  - apply N.ltb_lt in E.
    replace ((48 <=? 48 + d) && (48 + d <=? 57)) with true
      by (symmetry; apply andb_true_iff; split; apply N.leb_le; lia).
    f_equal; lia.
  - apply N.ltb_ge in E.
    replace ((48 <=? 55 + d) && (55 + d <=? 57)) with false
      by (symmetry; apply andb_false_iff; right; apply N.leb_gt; lia).
    replace ((65 <=? 55 + d) && (55 + d <=? 70)) with true
      by (symmetry; apply andb_true_iff; split; apply N.leb_le; lia).
    f_equal; lia.
Qed.

Lemma hexDigit_range (d : N) :
  d < 16 -> 48 <= hexDigit d <= 57 \/ 65 <= hexDigit d <= 70.
Proof.
  intros H. unfold hexDigit. destruct (d <? 10) eqn:E.
  - apply N.ltb_lt in E. lia.
  - apply N.ltb_ge in E. lia.
Qed.

Lemma ParseHexOctet_hexDigits (b : N) :
  b < 256 -> ParseHexOctet (hexDigit (b / 16)) (hexDigit (b mod 16)) = Some b.
Proof.
  intros H. unfold ParseHexOctet.
  rewrite !hexValue_hexDigit by lia. f_equal. lia.
Qed.

Lemma escapeOctet_hexDigits (b : N) :
  b < 256 ->
  escapeOctet PERCENT (hexDigit (b / 16)) (hexDigit (b mod 16)) = Some b.
Proof. intros H. unfold escapeOctet. simpl. now apply ParseHexOctet_hexDigits. Qed.

Lemma leadingOnes_0 b : b < 128 -> leadingOnes b = 0%nat.
Proof. intros H. unfold leadingOnes. now rewrite (proj2 (N.ltb_lt _ _) H). Qed.

Lemma leadingOnes_2 b : 192 <= b < 224 -> leadingOnes b = 2%nat.
Proof.
  intros H. unfold leadingOnes.
  rewrite (proj2 (N.ltb_ge b 128)), (proj2 (N.ltb_ge b 192)),
    (proj2 (N.ltb_lt b 224)) by lia. reflexivity.
Qed.

Lemma leadingOnes_3 b : 224 <= b < 240 -> leadingOnes b = 3%nat.
Proof.
  intros H. unfold leadingOnes.
  rewrite (proj2 (N.ltb_ge b 128)), (proj2 (N.ltb_ge b 192)),
    (proj2 (N.ltb_ge b 224)), (proj2 (N.ltb_lt b 240)) by lia. reflexivity.
Qed.

Lemma leadingOnes_4 b : 240 <= b < 248 -> leadingOnes b = 4%nat.
Proof.
  intros H. unfold leadingOnes.
  rewrite (proj2 (N.ltb_ge b 128)), (proj2 (N.ltb_ge b 192)),
    (proj2 (N.ltb_ge b 224)), (proj2 (N.ltb_ge b 240)),
    (proj2 (N.ltb_lt b 248)) by lia. reflexivity.
Qed.

Lemma Decode_literal (c : N) (s : jsstring) :
  c <> PERCENT -> Decode (c :: s) = rmap (cons c) (Decode s).
Proof.
  intros H. cbn [Decode]. now rewrite (proj2 (N.eqb_neq c PERCENT) H).
Qed.

Lemma Decode_percent (h1 h2 : N) (s : jsstring) :
  Decode (PERCENT :: h1 :: h2 :: s)
  = match ParseHexOctet h1 h2 with
    | None => Throw URIError
    | Some B =>
        match leadingOnes B with
        | 0%nat => rmap (cons B) (Decode s)
        | 2%nat =>
            match s with
            | p1 :: a1 :: a2 :: s3 =>
                match octetsCodePoint B [escapeOctet p1 a1 a2] with
                | Some V => rmap (app (UTF16EncodeCodePoint V)) (Decode s3)
                | None => Throw URIError
                end
            | _ => Throw URIError
            end
        | 3%nat =>
            match s with
            | p1 :: a1 :: a2 :: p2 :: b1 :: b2 :: s4 =>
                match octetsCodePoint B
                        [escapeOctet p1 a1 a2; escapeOctet p2 b1 b2] with
                | Some V => rmap (app (UTF16EncodeCodePoint V)) (Decode s4)
                | None => Throw URIError
                end
            | _ => Throw URIError
            end
        | 4%nat =>
            match s with
            | p1 :: a1 :: a2 :: p2 :: b1 :: b2 :: p3 :: c1 :: c2 :: s5 =>
                match octetsCodePoint B
                        [escapeOctet p1 a1 a2; escapeOctet p2 b1 b2;
                         escapeOctet p3 c1 c2] with
                | Some V => rmap (app (UTF16EncodeCodePoint V)) (Decode s5)
                | None => Throw URIError
                end
            | _ => Throw URIError
            end
        | _ => Throw URIError
        end
    end.
Proof. reflexivity. Qed.

Lemma Decode_escape1 (b : N) (s : jsstring) :
  b < 128 -> Decode (percentOctet b ++ s) = rmap (cons b) (Decode s).
Proof.
  intros H. unfold percentOctet. cbn [app]. rewrite Decode_percent.
  rewrite ParseHexOctet_hexDigits by lia. now rewrite leadingOnes_0.
Qed.

Lemma Decode_escape2 (b0 b1 : N) (s : jsstring) :
  192 <= b0 < 224 -> b1 < 256 ->
  Decode (percentOctet b0 ++ percentOctet b1 ++ s)
  = match utf8CodePoint [b0; b1] with
    | Some V => rmap (app (UTF16EncodeCodePoint V)) (Decode s)
    | None => Throw URIError
    end.
Proof.
  intros H0 H1. unfold percentOctet. cbn [app]. rewrite Decode_percent.
  rewrite ParseHexOctet_hexDigits by lia. rewrite leadingOnes_2 by lia.
  unfold octetsCodePoint. cbn [fold_right].
  now rewrite escapeOctet_hexDigits.
Qed.

Lemma Decode_escape3 (b0 b1 b2 : N) (s : jsstring) :
  224 <= b0 < 240 -> b1 < 256 -> b2 < 256 ->
  Decode (percentOctet b0 ++ percentOctet b1 ++ percentOctet b2 ++ s)
  = match utf8CodePoint [b0; b1; b2] with
    | Some V => rmap (app (UTF16EncodeCodePoint V)) (Decode s)
    | None => Throw URIError
    end.
Proof.
  intros H0 H1 H2. unfold percentOctet. cbn [app]. rewrite Decode_percent.
  rewrite ParseHexOctet_hexDigits by lia. rewrite leadingOnes_3 by lia.
  unfold octetsCodePoint. cbn [fold_right].
  now rewrite !escapeOctet_hexDigits.
Qed.

Lemma Decode_escape4 (b0 b1 b2 b3 : N) (s : jsstring) :
  240 <= b0 < 248 -> b1 < 256 -> b2 < 256 -> b3 < 256 ->
  Decode (percentOctet b0 ++ percentOctet b1 ++ percentOctet b2
            ++ percentOctet b3 ++ s)
  = match utf8CodePoint [b0; b1; b2; b3] with
    | Some V => rmap (app (UTF16EncodeCodePoint V)) (Decode s)
    | None => Throw URIError
    end.
Proof.
  intros H0 H1 H2 H3. unfold percentOctet. cbn [app]. rewrite Decode_percent.
  rewrite ParseHexOctet_hexDigits by lia. rewrite leadingOnes_4 by lia.
  unfold octetsCodePoint. cbn [fold_right].
  now rewrite !escapeOctet_hexDigits.
Qed.

(** ** UTF-8 and UTF-16 *)

Ltac bool_true :=
  repeat (apply andb_true_iff; split);
  try (apply negb_true_iff, andb_false_iff);
  rewrite ?N.leb_le, ?N.ltb_lt, ?N.leb_gt, ?N.ltb_ge; lia.

Lemma utf8CodePoint_utf8Encode (cp : N) :
  128 <= cp <= 1114111 -> ~ (55296 <= cp <= 57343) ->
  utf8CodePoint (utf8Encode cp) = Some cp.
Proof.
  intros H Hs. unfold utf8Encode.
  destruct (cp <? 128) eqn:E1; [apply N.ltb_lt in E1; lia|].
  destruct (cp <? 2048) eqn:E2; [|destruct (cp <? 65536) eqn:E3].
  - apply N.ltb_lt in E2. unfold utf8CodePoint.
    replace ((192 + cp / 64 - 192) * 64 + (128 + cp mod 64 - 128))
      with cp by lia.
    replace (isContinuation (128 + cp mod 64) && (128 <=? cp)) with true;
      [reflexivity|].
    symmetry. unfold isContinuation. bool_true.
  - apply N.ltb_ge in E2. apply N.ltb_lt in E3. unfold utf8CodePoint.
    replace ((224 + cp / 4096 - 224) * 4096
             + (128 + (cp / 64) mod 64 - 128) * 64
             + (128 + cp mod 64 - 128)) with cp by lia.
    replace (isContinuation (128 + (cp / 64) mod 64)
             && isContinuation (128 + cp mod 64) && (2048 <=? cp)
             && negb ((55296 <=? cp) && (cp <=? 57343))) with true;
      [reflexivity|].
    symmetry. unfold isContinuation.
    repeat (apply andb_true_iff; split);
      rewrite ?N.leb_le, ?N.ltb_lt; try lia.
    apply negb_true_iff, andb_false_iff.
    rewrite !N.leb_gt. lia.
  - apply N.ltb_ge in E2. apply N.ltb_ge in E3. unfold utf8CodePoint.
    replace ((240 + cp / 262144 - 240) * 262144
             + (128 + (cp / 4096) mod 64 - 128) * 4096
             + (128 + (cp / 64) mod 64 - 128) * 64
             + (128 + cp mod 64 - 128)) with cp by lia.
    replace (isContinuation (128 + (cp / 4096) mod 64)
             && isContinuation (128 + (cp / 64) mod 64)
             && isContinuation (128 + cp mod 64)
             && (65536 <=? cp) && (cp <=? 1114111)) with true;
      [reflexivity|].
    symmetry. unfold isContinuation. bool_true.
Qed.

Lemma UTF16EncodeCodePoint_unit (c : N) :
  c < 65536 -> UTF16EncodeCodePoint c = [c].
Proof.
  intros H. unfold UTF16EncodeCodePoint.
  now rewrite (proj2 (N.leb_le c 65535)) by lia.
Qed.

Lemma UTF16EncodeCodePoint_pair (lead trail : N) :
  isLeadingSurrogate lead = true -> isTrailingSurrogate trail = true ->
  UTF16EncodeCodePoint (UTF16SurrogatePairToCodePoint lead trail)
  = [lead; trail].
Proof.
  unfold isLeadingSurrogate, isTrailingSurrogate.
  rewrite !andb_true_iff, !N.leb_le. intros [H1 H2] [H3 H4].
  unfold UTF16EncodeCodePoint, UTF16SurrogatePairToCodePoint.
  rewrite (proj2 (N.leb_gt _ _)) by lia.
  f_equal; [|f_equal]; lia.
Qed.

Lemma surrogatePair_range (lead trail : N) :
  isLeadingSurrogate lead = true -> isTrailingSurrogate trail = true ->
  65536 <= UTF16SurrogatePairToCodePoint lead trail <= 1114111.
Proof.
  unfold isLeadingSurrogate, isTrailingSurrogate.
  rewrite !andb_true_iff, !N.leb_le. intros [H1 H2] [H3 H4].
  unfold UTF16SurrogatePairToCodePoint. lia.
Qed.

Lemma utf8Encode_octets (cp : N) :
  128 <= cp <= 1114111 -> Forall (fun b => 128 <= b < 256) (utf8Encode cp).
Proof.
  intros H. unfold utf8Encode.
  destruct (cp <? 128) eqn:E1; [apply N.ltb_lt in E1; lia|].
  destruct (cp <? 2048) eqn:E2; [|destruct (cp <? 65536) eqn:E3];
    rewrite ?N.ltb_lt, ?N.ltb_ge in *;
    repeat constructor; lia.
Qed.

Lemma Decode_utf8Encode (cp : N) (r : jsstring) :
  128 <= cp <= 1114111 -> ~ (55296 <= cp <= 57343) ->
  Decode (percentOctets (utf8Encode cp) ++ r)
  = rmap (app (UTF16EncodeCodePoint cp)) (Decode r).
Proof.
  intros H Hs.
  pose proof (utf8CodePoint_utf8Encode cp H Hs) as Hv.
  pose proof (utf8Encode_octets cp H) as Hb.
  unfold utf8Encode in *.
  destruct (cp <? 128) eqn:E1; [apply N.ltb_lt in E1; lia|].
  destruct (cp <? 2048) eqn:E2; [|destruct (cp <? 65536) eqn:E3];
    rewrite ?N.ltb_lt, ?N.ltb_ge in *;
    unfold percentOctets; cbn [flat_map];
    rewrite ?app_nil_r, <- ?app_assoc.
  - inversion Hb as [|? ? G0 Hb1]; inversion Hb1 as [|? ? G1 _]; subst.
    rewrite Decode_escape2 by lia. now rewrite Hv.
  - inversion Hb as [|? ? G0 Hb1]; inversion Hb1 as [|? ? G1 Hb2];
      inversion Hb2 as [|? ? G2 _]; subst.
    rewrite Decode_escape3 by lia. now rewrite Hv.
  - inversion Hb as [|? ? G0 Hb1]; inversion Hb1 as [|? ? G1 Hb2];
      inversion Hb2 as [|? ? G2 Hb3]; inversion Hb3 as [|? ? G3 _]; subst.
    rewrite Decode_escape4 by lia. now rewrite Hv.
Qed.

(** ** The two replacements around the encoded name *)

Lemma replacePercent20ByPlus_cons (c : N) (t : jsstring) :
  c <> PERCENT ->
  replacePercent20ByPlus (c :: t) = c :: replacePercent20ByPlus t.
Proof.
  intros H. cbn [replacePercent20ByPlus].
  rewrite (proj2 (N.eqb_neq c PERCENT) H). cbn [andb].
  destruct t as [|c2 [|c3 r]]; reflexivity.
Qed.

Lemma hexDigit_not_percent (d : N) : d < 16 -> hexDigit d <> PERCENT.
Proof. intros H. pose proof (hexDigit_range d H). unfold PERCENT. lia. Qed.

Lemma replacePercent20ByPlus_three (c1 c2 c3 : N) (r : jsstring) :
  replacePercent20ByPlus (c1 :: c2 :: c3 :: r)
  = if (c1 =? PERCENT) && (c2 =? 50) && (c3 =? 48)
    then PLUS :: replacePercent20ByPlus r
    else c1 :: replacePercent20ByPlus (c2 :: c3 :: r).
Proof. reflexivity. Qed.

Lemma replacePercent20ByPlus_octet (b : N) (r : jsstring) :
  b < 256 ->
  replacePercent20ByPlus (percentOctet b ++ r)
  = if b =? 32 then PLUS :: replacePercent20ByPlus r
    else percentOctet b ++ replacePercent20ByPlus r.
Proof.
  intros H. unfold percentOctet. cbn [app].
  rewrite replacePercent20ByPlus_three.
  rewrite N.eqb_refl. cbn [andb].
  destruct (b =? 32) eqn:E.
  - apply N.eqb_eq in E. subst b. reflexivity.
  - apply N.eqb_neq in E.
    replace ((hexDigit (b / 16) =? 50) && (hexDigit (b mod 16) =? 48))
      with false.
    + rewrite !replacePercent20ByPlus_cons
        by (apply hexDigit_not_percent; lia).
      reflexivity.
    + symmetry. apply andb_false_iff.
      rewrite !N.eqb_neq. unfold hexDigit.
      destruct (b / 16 <? 10) eqn:E1; destruct (b mod 16 <? 10) eqn:E2;
        rewrite ?N.ltb_lt, ?N.ltb_ge in *; lia.
Qed.

Lemma replacePercent20ByPlus_octets (bs : list N) (r : jsstring) :
  Forall (fun b => 128 <= b < 256) bs ->
  replacePercent20ByPlus (percentOctets bs ++ r)
  = percentOctets bs ++ replacePercent20ByPlus r.
Proof.
  induction 1 as [|b bs Hb _ IH]; [reflexivity|].
  unfold percentOctets in *. cbn [flat_map]. rewrite <- app_assoc.
  rewrite replacePercent20ByPlus_octet by lia.
  rewrite (proj2 (N.eqb_neq b 32)) by lia. now rewrite IH.
Qed.

Lemma replacePlusBySpace_octets (bs : list N) (r : jsstring) :
  Forall (fun b => b < 256) bs ->
  replacePlusBySpace (percentOctets bs ++ r)
  = percentOctets bs ++ replacePlusBySpace r.
Proof.
  intros H. unfold replacePlusBySpace. rewrite map_app. f_equal.
  induction H as [|b bs Hb _ IH]; [reflexivity|].
  unfold percentOctets in *. cbn [flat_map]. rewrite map_app, IH. f_equal.
  unfold percentOctet. cbn [map].
  pose proof (hexDigit_range (b / 16) ltac:(lia)).
  pose proof (hexDigit_range (b mod 16) ltac:(lia)).
  rewrite !(proj2 (N.eqb_neq _ PLUS)) by (unfold PLUS, PERCENT; lia).
  reflexivity.
Qed.

(** ** Encoding a well-formed name and decoding it again *)

Lemma wellFormed_cases (P : jsstring -> Prop) :
  P [] ->
  (forall c s,
      isLeadingSurrogate c = false -> isTrailingSurrogate c = false ->
      c < 65536 -> wellFormed s = true -> P s -> P (c :: s)) ->
  (forall lead trail s,
      isLeadingSurrogate lead = true -> isTrailingSurrogate trail = true ->
      wellFormed s = true -> P s -> P (lead :: trail :: s)) ->
  forall s, wellFormed s = true -> P s.
Proof.
  intros H0 H1 H2.
  assert (G : forall (n : nat) s,
             (List.length s <= n)%nat -> wellFormed s = true -> P s).
  { induction n as [|n IH]; intros [|c s] Hlen Hwf; try exact H0.
    - simpl in Hlen. lia.
    - cbn [wellFormed] in Hwf. simpl in Hlen.
      destruct (isLeadingSurrogate c) eqn:E.
      + destruct s as [|c2 s2]; [discriminate|].
        apply andb_true_iff in Hwf as [Ht Hw].
        apply H2; auto. apply IH; auto. simpl in Hlen. lia.
      + apply andb_true_iff in Hwf as [Hwf Hw].
        apply andb_true_iff in Hwf as [Ht Hc].
        apply negb_true_iff in Ht. apply N.ltb_lt in Hc.
        apply H1; auto. apply IH; auto. lia. }
  intros s. apply (G (List.length s)). lia.
Qed.

Lemma uriUnescaped_plain (c : N) :
  uriUnescaped c = true ->
  c <> PERCENT /\ c <> PLUS /\ nameChar c.
Proof.
  unfold uriUnescaped, nameChar, PERCENT, PLUS, GT, LF.
  rewrite !orb_true_iff, !andb_true_iff, !N.leb_le, !N.eqb_eq. lia.
Qed.

Lemma nameChar_octets (bs : list N) :
  Forall (fun b => b < 256) bs -> Forall nameChar (percentOctets bs).
Proof.
  induction 1 as [|b bs Hb _ IH]; [constructor|].
  unfold percentOctets in *. cbn [flat_map]. apply Forall_app. split; auto.
  pose proof (hexDigit_range (b / 16) ltac:(lia)).
  pose proof (hexDigit_range (b mod 16) ltac:(lia)).
  unfold percentOctet, nameChar, PERCENT, GT, LF.
  repeat constructor; lia.
Qed.

Lemma Forall_weaken_octets (bs : list N) :
  Forall (fun b => 128 <= b < 256) bs -> Forall (fun b => b < 256) bs.
Proof. apply Forall_impl. intros; lia. Qed.

(** One code point, escaped as its UTF-8 octets, survives the two
    replacements and is decoded to its UTF-16 form. *)
Lemma escaped_code_point (cp : N) (units e s : jsstring) :
  128 <= cp <= 1114111 -> ~ (55296 <= cp <= 57343) ->
  UTF16EncodeCodePoint cp = units ->
  Decode (replacePlusBySpace (replacePercent20ByPlus e)) = Ok s ->
  Forall nameChar (replacePercent20ByPlus e) ->
  Decode (replacePlusBySpace
            (replacePercent20ByPlus (percentOctets (utf8Encode cp) ++ e)))
  = Ok (units ++ s)
  /\ Forall nameChar
       (replacePercent20ByPlus (percentOctets (utf8Encode cp) ++ e))
  /\ replacePercent20ByPlus (percentOctets (utf8Encode cp) ++ e) <> [].
Proof.
  intros H Hs Hu Hd Hc.
  pose proof (utf8Encode_octets cp H) as Hb.
  rewrite replacePercent20ByPlus_octets by assumption.
  rewrite replacePlusBySpace_octets by now apply Forall_weaken_octets.
  rewrite Decode_utf8Encode, Hd, Hu by assumption.
  split; [reflexivity|]. split.
  - apply Forall_app. split; auto.
    now apply nameChar_octets, Forall_weaken_octets.
  - unfold utf8Encode.
    destruct (cp <? 128); [|destruct (cp <? 2048); [|destruct (cp <? 65536)]];
      discriminate.
Qed.

Lemma Encode_roundtrip (n : jsstring) :
  wellFormed n = true ->
  exists e,
    Encode n = Ok e
    /\ Decode (replacePlusBySpace (replacePercent20ByPlus e)) = Ok n
    /\ Forall nameChar (replacePercent20ByPlus e)
    /\ (n <> [] -> replacePercent20ByPlus e <> []).
Proof.
  intros Hwf. pattern n. revert n Hwf. apply wellFormed_cases.
  - exists []. repeat split; auto.
  - intros c s Hl Ht Hc _ (e & He & Hd & Hn & _).
    cbn [Encode]. rewrite He, Hl, Ht.
    destruct (uriUnescaped c) eqn:Hu.
    + apply uriUnescaped_plain in Hu as (Hp & Hplus & Hname).
      exists (c :: e). split; [reflexivity|].
      rewrite replacePercent20ByPlus_cons by assumption.
      cbn [replacePlusBySpace map].
      rewrite (proj2 (N.eqb_neq c PLUS) Hplus).
      rewrite Decode_literal by assumption.
      fold (replacePlusBySpace (replacePercent20ByPlus e)). rewrite Hd.
      repeat split; auto; discriminate.
    + exists (percentOctets (utf8Encode c) ++ e). split; [reflexivity|].
      destruct (N.lt_ge_cases c 128) as [Hlow|Hhigh].
      * unfold utf8Encode. rewrite (proj2 (N.ltb_lt c 128) Hlow).
        unfold percentOctets. cbn [flat_map]. rewrite app_nil_r.
        rewrite replacePercent20ByPlus_octet by lia.
        pose proof (hexDigit_range (c / 16) ltac:(lia)).
        pose proof (hexDigit_range (c mod 16) ltac:(lia)).
        destruct (c =? 32) eqn:E.
        -- apply N.eqb_eq in E. subst c.
           cbn [replacePlusBySpace map]. rewrite N.eqb_refl.
           rewrite Decode_literal by discriminate.
           fold (replacePlusBySpace (replacePercent20ByPlus e)). rewrite Hd.
           repeat split; try discriminate.
           constructor; auto. split; discriminate.
        -- change (percentOctet c ++ replacePercent20ByPlus e)
             with (percentOctets [c] ++ replacePercent20ByPlus e) at 1.
           rewrite replacePlusBySpace_octets by (repeat constructor; lia).
           unfold percentOctets. cbn [flat_map]. rewrite app_nil_r.
           rewrite Decode_escape1, Hd by assumption.
           repeat split; try discriminate.
           apply Forall_app. split; auto.
           unfold percentOctet, nameChar, PERCENT, GT, LF.
           repeat constructor; lia.
      * unfold isLeadingSurrogate, isTrailingSurrogate in Hl, Ht.
        rewrite andb_false_iff, !N.leb_gt in Hl, Ht.
        destruct (@escaped_code_point c [c] e s) as (G1 & G2 & G3);
          auto; try lia.
        now apply UTF16EncodeCodePoint_unit.
  - intros lead trail s Hl Ht _ (e & He & Hd & Hn & _).
    cbn [Encode]. rewrite He, Ht.
    replace (uriUnescaped lead) with false.
    2:{ symmetry. unfold isLeadingSurrogate in Hl.
        rewrite andb_true_iff, !N.leb_le in Hl.
        destruct (uriUnescaped lead) eqn:Hu; auto.
        unfold uriUnescaped in Hu.
        rewrite !orb_true_iff, !andb_true_iff, !N.leb_le, !N.eqb_eq in Hu.
        lia. }
    rewrite Hl.
    exists (percentOctets
              (utf8Encode (UTF16SurrogatePairToCodePoint lead trail)) ++ e).
    split; [reflexivity|].
    pose proof (surrogatePair_range lead trail Hl Ht).
    destruct (@escaped_code_point
                (UTF16SurrogatePairToCodePoint lead trail)
                [lead; trail] e s) as (G1 & G2 & G3); auto; try lia.
    now apply UTF16EncodeCodePoint_pair.
Qed.

(** ** Splitting, joining, spans *)

Lemma split_not_nil (c : N) (s : jsstring) : split c s <> [].
Proof.
  induction s as [|x s IH]; simpl; [discriminate|].
  destruct (x =? c); [discriminate|].
  destruct (split c s); [contradiction|discriminate].
Qed.

Lemma split_without_separator (c : N) (s : jsstring) :
  ~ In c s -> split c s = [s].
Proof.
  induction s as [|x s IH]; simpl; intros H; [reflexivity|].
  rewrite (proj2 (N.eqb_neq x c)) by intuition.
  rewrite IH by intuition. reflexivity.
Qed.

Lemma split_app_separator (c : N) (a b : jsstring) :
  ~ In c a -> split c (a ++ c :: b) = a :: split c b.
Proof.
  induction a as [|x a IH]; simpl; intros H.
  - now rewrite N.eqb_refl.
  - rewrite (proj2 (N.eqb_neq x c)) by intuition.
    rewrite IH by intuition. reflexivity.
Qed.

Lemma split_join (c : N) (parts : list jsstring) :
  parts <> [] -> Forall (fun p => ~ In c p) parts ->
  split c (join c parts) = parts.
Proof.
  intros Hne H. induction H as [|p ps Hp Hps IH]; [contradiction|].
  destruct ps as [|q ps].
  - simpl. now apply split_without_separator.
  - change (join c (p :: q :: ps)) with (p ++ c :: join c (q :: ps)).
    rewrite split_app_separator by assumption.
    f_equal. apply IH. discriminate.
Qed.

Lemma in_split (c : N) (s t : jsstring) :
  In t (split c s) -> ~ In c t /\ incl t s.
Proof.
  revert t; induction s as [|x s IH]; simpl; intros t H.
  - destruct H as [<-|[]]. split; [intros []|apply incl_refl].
  - destruct (x =? c) eqn:E.
    + destruct H as [<-|H].
      * split; [intros []|intros y []].
      * destruct (IH _ H) as [H1 H2]. split; auto.
        now apply incl_tl.
    + apply N.eqb_neq in E.
      destruct (split c s) as [|u us] eqn:Es;
        [exfalso; eapply split_not_nil; eauto|].
      destruct H as [<-|H].
      * destruct (IH u (or_introl eq_refl)) as [H1 H2]. split.
        -- intros [->|Hin]; auto.
        -- intros y [<-|Hy]; [now left|right; now apply H2].
      * destruct (IH t (or_intror H)) as [H1 H2]. split; auto.
        now apply incl_tl.
Qed.

Lemma join_chars (c : N) (P : N -> Prop) (parts : list jsstring) :
  P c -> Forall (Forall P) parts -> Forall P (join c parts).
Proof.
  intros Hc H. induction H as [|p ps Hp Hps IH]; [constructor|].
  destruct ps as [|q ps]; [exact Hp|].
  change (join c (p :: q :: ps)) with (p ++ c :: join c (q :: ps)).
  apply Forall_app. split; auto.
Qed.

Lemma join_not_nil (c : N) (parts : list jsstring) :
  parts <> [] -> Forall (fun p => p <> []) parts -> join c parts <> [].
Proof.
  intros Hne H. destruct H as [|p ps Hp Hps]; [contradiction|].
  destruct ps; simpl; [assumption|].
  destruct p; [contradiction|discriminate].
Qed.

Lemma span_app (f : N -> bool) (a b : jsstring) (x : N) :
  Forall (fun c => f c = true) a -> f x = false ->
  span f (a ++ x :: b) = (a, x :: b).
Proof.
  intros H Hx. induction H as [|c a Hc _ IH]; simpl.
  - now rewrite Hx.
  - now rewrite Hc, IH.
Qed.

Lemma span_all (f : N -> bool) (a : jsstring) :
  Forall (fun c => f c = true) a -> span f a = (a, []).
Proof.
  induction 1 as [|c a Hc _ IH]; simpl; [reflexivity|].
  now rewrite Hc, IH.
Qed.

Lemma span_spec (f : N -> bool) (s a b : jsstring) :
  span f s = (a, b) ->
  s = a ++ b /\ Forall (fun c => f c = true) a
  /\ match b with [] => True | x :: _ => f x = false end.
Proof.
  revert a b; induction s as [|c s IH]; simpl; intros a b H.
  - injection H as <- <-. auto.
  - destruct (f c) eqn:E.
    + destruct (span f s) as [a' b'] eqn:Es. injection H as <- <-.
      destruct (IH _ _ eq_refl) as (H1 & H2 & H3).
      subst s. repeat split; auto.
    + injection H as <- <-. repeat split; auto.
Qed.

Lemma stripPrefix_app (p s : jsstring) : stripPrefix p (p ++ s) = Some s.
Proof. induction p as [|x p IH]; simpl; [reflexivity|]. now rewrite N.eqb_refl. Qed.

Lemma stripPrefix_spec (p s r : jsstring) :
  stripPrefix p s = Some r -> s = p ++ r.
Proof.
  revert s; induction p as [|x p IH]; intros [|y s]; simpl; intros H;
    try discriminate; try (injection H as <-; reflexivity).
  destruct (x =? y) eqn:E; [|discriminate].
  apply N.eqb_eq in E. subst y. f_equal. now apply IH.
Qed.

(** ** Trimming *)

Lemma trimStart_clean (s : jsstring) : startsClean (trimStart s).
Proof.
  induction s as [|c s IH]; simpl; auto.
  destruct (isWhiteSpace c) eqn:E; simpl; auto.
Qed.

Lemma trimStart_of_clean (s : jsstring) : startsClean s -> trimStart s = s.
Proof. destruct s as [|c s]; simpl; intros H; [reflexivity|now rewrite H]. Qed.

Lemma trimEnd_clean (s : jsstring) : startsClean s -> startsClean (trimEnd s).
Proof.
  destruct s as [|c s]; simpl; auto. intros H.
  destruct (trimEnd s); simpl; [rewrite H|]; auto.
Qed.

Lemma trimEnd_idempotent (s : jsstring) : trimEnd (trimEnd s) = trimEnd s.
Proof.
  induction s as [|c s IH]; simpl; [reflexivity|].
  destruct (trimEnd s) as [|d t] eqn:E.
  - destruct (isWhiteSpace c) eqn:Ec; simpl; [reflexivity|now rewrite Ec].
  - change (trimEnd (c :: d :: t))
      with (match trimEnd (d :: t) with
            | [] => if isWhiteSpace c then [] else [c]
            | u => c :: u
            end).
    rewrite IH. reflexivity.
Qed.

Lemma trim_idempotent (s : jsstring) : trim (trim s) = trim s.
Proof.
  unfold trim.
  rewrite (trimStart_of_clean (trimEnd (trimStart s)))
    by apply trimEnd_clean, trimStart_clean.
  apply trimEnd_idempotent.
Qed.

Lemma trimStart_chars (P : N -> Prop) (s : jsstring) :
  Forall P s -> Forall P (trimStart s).
Proof.
  induction 1 as [|c s Hc Hs IH]; simpl; [constructor|].
  destruct (isWhiteSpace c); auto.
Qed.

Lemma trimEnd_chars (P : N -> Prop) (s : jsstring) :
  Forall P s -> Forall P (trimEnd s).
Proof.
  induction 1 as [|c s Hc Hs IH]; simpl; [constructor|].
  destruct (trimEnd s); [destruct (isWhiteSpace c)|]; auto.
Qed.

Lemma trim_chars (P : N -> Prop) (s : jsstring) :
  Forall P s -> Forall P (trim s).
Proof. intros H. now apply trimEnd_chars, trimStart_chars. Qed.

Lemma truthy_true (s : jsstring) : truthy s = true <-> s <> [].
Proof. destruct s; simpl; split; congruence. Qed.

Lemma trim_of_clean_start (c : N) (s : jsstring) :
  isWhiteSpace c = false -> truthy (trim (c :: s)) = true.
Proof.
  intros H. unfold trim. simpl trimStart. rewrite H.
  simpl. destruct (trimEnd s); [rewrite H|]; reflexivity.
Qed.

(** ** The manifest line *)

Lemma containerMatchHere_spec (s m1 m2 : jsstring) :
  containerMatchHere s = Some (m1, m2) ->
  exists r, s = js "Container=<" ++ m1 ++ GT :: m2 ++ r
            /\ m1 <> [] /\ Forall (fun c => notGT c = true) m1
            /\ m2 <> [] /\ Forall (fun c => notLineTerminator c = true) m2.
Proof.
  unfold containerMatchHere.
  destruct (stripPrefix (js "Container=<") s) as [r0|] eqn:Ep; [|discriminate].
  apply stripPrefix_spec in Ep.
  destruct (span (fun c => negb (c =? GT)) r0) as [a b] eqn:E1.
  apply span_spec in E1 as (E1 & Ha & Hb).
  destruct a as [|a0 a]; [discriminate|].
  destruct b as [|g b]; [discriminate|].
  destruct (span (fun c => negb (isLineTerminator c)) b) as [u v] eqn:E2.
  apply span_spec in E2 as (E2 & Hu & _).
  destruct u as [|u0 u]; [discriminate|].
  intros [= <- <-]. exists v.
  apply negb_false_iff, N.eqb_eq in Hb. subst.
  repeat split; auto; discriminate.
Qed.

Lemma containerMatchHere_built (m1 m2 : jsstring) :
  m1 <> [] -> Forall (fun c => notGT c = true) m1 ->
  m2 <> [] -> Forall (fun c => notLineTerminator c = true) m2 ->
  containerMatchHere (js "Container=<" ++ m1 ++ GT :: m2) = Some (m1, m2).
Proof.
  intros H1 F1 H2 F2. unfold containerMatchHere.
  rewrite stripPrefix_app.
  rewrite (span_app (fun c => negb (c =? GT)) m1 m2 GT F1 eq_refl).
  rewrite (span_all (fun c => negb (isLineTerminator c)) m2 F2).
  destruct m1; [contradiction|]. destruct m2; [contradiction|]. reflexivity.
Qed.

Lemma containerMatch_here (line : jsstring) (m : jsstring * jsstring) :
  containerMatchHere line = Some m -> containerMatch line = Some m.
Proof. intros H. destruct line; cbn [containerMatch]; now rewrite H. Qed.

Lemma containerMatch_spec (line m1 m2 : jsstring) :
  containerMatch line = Some (m1, m2) ->
  exists pre r, line = pre ++ js "Container=<" ++ m1 ++ GT :: m2 ++ r
                /\ m1 <> [] /\ Forall (fun c => notGT c = true) m1
                /\ m2 <> [] /\ Forall (fun c => notLineTerminator c = true) m2.
Proof.
  induction line as [|c line IH].
  - simpl. discriminate.
  - cbn [containerMatch].
    destruct (containerMatchHere (c :: line)) as [m|] eqn:E.
    + intros [= ->]. apply containerMatchHere_spec in E as (r & E & H).
      exists [], r. split; [exact E|exact H].
    + intros H. destruct (IH H) as (pre & r & E' & H').
      exists (c :: pre), r. split; [|exact H']. simpl. now f_equal.
Qed.

(** ** Items pushed by the decoder *)

Lemma fold_pushPath (ps : list jsstring) (acc : list TrackRef) :
  fold_left pushPath ps acc
  = acc ++ map entryOf (filter (fun p => truthy (trim p)) ps).
Proof.
  revert acc; induction ps as [|p ps IH]; intros acc; simpl.
  - now rewrite app_nil_r.
  - rewrite IH. unfold pushPath. destruct (truthy (trim p)); simpl.
    + now rewrite <- app_assoc.
    + reflexivity.
Qed.

Lemma pushed_items_decoded (m2 : jsstring) :
  Forall (fun c => notLineTerminator c = true) m2 ->
  Forall DecodedItem
         (map entryOf (filter (fun p => truthy (trim p)) (split PIPE m2))).
Proof.
  intros H. apply Forall_forall. intros it Hit.
  apply in_map_iff in Hit as (p & <- & Hp).
  apply filter_In in Hp as (Hp & Ht).
  apply in_split in Hp as (Hpipe & Hincl).
  exists p. repeat split; auto.
  - now apply truthy_true.
  - rewrite Forall_forall in *. auto.
Qed.

Lemma Decode_not_nil (s r : jsstring) :
  Decode s = Ok r -> s <> [] -> r <> [].
Proof.
  destruct s as [|c s]; [congruence|]. intros H _.
  assert (Hunits : forall V, UTF16EncodeCodePoint V <> []).
  { intros V. unfold UTF16EncodeCodePoint. destruct (V <=? 65535); discriminate. }
  assert (Happ : forall V t x,
             rmap (app (UTF16EncodeCodePoint V)) (Decode t) = Ok x -> x <> []).
  { intros V t x Hx. destruct (Decode t); [|discriminate].
    injection Hx as <-. specialize (Hunits V).
    destruct (UTF16EncodeCodePoint V); [contradiction|discriminate]. }
  assert (Hcons : forall b t x, rmap (cons b) (Decode t) = Ok x -> x <> []).
  { intros b t x Hx. destruct (Decode t); [|discriminate].
    injection Hx as <-. discriminate. }
  destruct (N.eq_dec c PERCENT) as [->|Hc].
  - destruct s as [|h1 [|h2 s2]]; try discriminate.
    rewrite Decode_percent in H.
    destruct (ParseHexOctet h1 h2) as [B|]; [|discriminate].
    destruct (leadingOnes B) as [|[|[|[|[|k]]]]]; try discriminate; eauto.
    + destruct s2 as [|p1 [|a1 [|a2 s3]]]; try discriminate.
      destruct (octetsCodePoint _ _); [eauto|discriminate].
    + destruct s2 as [|p1 [|a1 [|a2 [|p2 [|b1 [|b2 s4]]]]]]; try discriminate.
      destruct (octetsCodePoint _ _); [eauto|discriminate].
    + destruct s2 as [|p1 [|a1 [|a2 [|p2 [|b1 [|b2 [|p3 [|c1 [|c2 s5]]]]]]]]];
        try discriminate.
      destruct (octetsCodePoint _ _); [eauto|discriminate].
  - rewrite Decode_literal in H by assumption. eauto.
Qed.

Lemma Decode_without_percent (s : jsstring) :
  ~ In PERCENT s -> Decode s = Ok s.
Proof.
  induction s as [|c s IH]; intros H; [reflexivity|].
  rewrite Decode_literal by (intros ->; apply H; now left).
  rewrite IH by (intros Hin; apply H; now right). reflexivity.
Qed.

Lemma replacePlusBySpace_not_nil (s : jsstring) :
  s <> [] -> replacePlusBySpace s <> [].
Proof. destruct s; [contradiction|discriminate]. Qed.

Lemma replacePlusBySpace_percent (s : jsstring) :
  In PERCENT (replacePlusBySpace s) -> In PERCENT s.
Proof.
  unfold replacePlusBySpace. rewrite in_map_iff. intros (c & Hc & Hin).
  destruct (c =? PLUS); [discriminate|]. now subst.
Qed.

(** ** The loop over the lines *)

Lemma parseLine_cases (acc : Document) (line : jsstring) :
  parseLine acc line
  = if isManifestLine line then
      match containerMatch line with
      | Some (m1, m2) =>
          name' <- decodeURIComponent (replacePlusBySpace m1) ;;
          Ok {| name := name';
                items := items acc
                         ++ map entryOf
                              (filter (fun p => truthy (trim p))
                                      (split PIPE m2)) |}
      | None => Ok acc
      end
    else Ok acc.
Proof.
  unfold parseLine, isManifestLine.
  destruct (startsWith line (js "#EXTM3U")); [reflexivity|].
  destruct (startsWith line (js "Container=")); [|reflexivity].
  cbn [negb andb]. destruct (containerMatch line) as [[m1 m2]|]; [|reflexivity].
  now rewrite fold_pushPath.
Qed.

Lemma startsWith_Container (line : jsstring) :
  startsWith line (js "Container=") = true -> isManifestLine line = true.
Proof.
  intros H. unfold isManifestLine. rewrite H, andb_true_r.
  destruct line as [|c line]; [discriminate|].
  change (js "Container=") with (67 :: js "ontainer=") in H.
  cbn [startsWith] in H.
  apply andb_true_iff in H as [H _]. apply N.eqb_eq in H. subst c.
  reflexivity.
Qed.

Lemma parseLine_wellDecoded (acc acc' : Document) (line : jsstring) :
  wellDecoded acc -> parseLine acc line = Ok acc' -> wellDecoded acc'.
Proof.
  intros [Hi Hn]. rewrite parseLine_cases.
  destruct (isManifestLine line); [|now intros [= <-]].
  destruct (containerMatch line) as [[m1 m2]|] eqn:Em; [|now intros [= <-]].
  apply containerMatch_spec in Em as (pre & r & _ & H1 & _ & _ & F2).
  unfold decodeURIComponent.
  destruct (Decode (replacePlusBySpace m1)) as [n|] eqn:Ed; [|discriminate].
  intros [= <-]. split; cbn [items name].
  - apply Forall_app. split; auto. now apply pushed_items_decoded.
  - intros _. eapply Decode_not_nil; eauto.
    now apply replacePlusBySpace_not_nil.
Qed.

Lemma parseLines_wellDecoded (lines : list jsstring) (acc d : Document) :
  wellDecoded acc -> parseLines lines acc = Ok d -> wellDecoded d.
Proof.
  revert acc; induction lines as [|line lines IH]; simpl; intros acc Hacc.
  - now intros [= <-].
  - destruct (parseLine acc line) as [acc'|] eqn:E; [|discriminate].
    simpl. apply IH. eapply parseLine_wellDecoded; eauto.
Qed.

Lemma decode_wellDecoded (raw : jsstring) (d : Document) :
  decode raw = Ok d -> wellDecoded d.
Proof.
  apply parseLines_wellDecoded. split; [constructor|intros H; now elim H].
Qed.

(** ** Where the container name comes from *)

Lemma isManifestLine_Container (line : jsstring) :
  isManifestLine line = true <-> startsWith line (js "Container=") = true.
Proof.
  split; [|apply startsWith_Container].
  unfold isManifestLine. now intros [_ H]%andb_true_iff.
Qed.

Lemma parseLines_name (lines : list jsstring) (acc d : Document) :
  parseLines lines acc = Ok d ->
  (d = acc
   /\ forall line, In line lines -> isManifestLine line = true ->
                   containerMatch line = None)
  \/ exists before line after m1 m2,
      lines = before ++ line :: after
      /\ isManifestLine line = true
      /\ containerMatch line = Some (m1, m2)
      /\ (forall l, In l after -> isManifestLine l = true ->
                    containerMatch l = None)
      /\ decodeURIComponent (replacePlusBySpace m1) = Ok (name d).
Proof.
  revert acc; induction lines as [|line lines IH]; simpl; intros acc H.
  - left. injection H as <-. split; [reflexivity|intros ? []].
  - destruct (parseLine acc line) as [acc'|] eqn:E; [|discriminate].
    simpl in H. destruct (IH _ H) as [[-> Hno]|Hyes].
    + rewrite parseLine_cases in E.
      destruct (isManifestLine line) eqn:Em.
      * destruct (containerMatch line) as [[m1 m2]|] eqn:Ec.
        -- right. exists [], line, lines, m1, m2.
           destruct (decodeURIComponent (replacePlusBySpace m1)) as [n|] eqn:Ed;
             [|discriminate].
           injection E as <-. repeat split; auto.
        -- left. injection E as <-. split; [reflexivity|].
           intros l [<-|Hl] Hm; auto.
      * left. injection E as <-. split; [reflexivity|].
        intros l [<-|Hl] Hm; [congruence|auto].
    + right. destruct Hyes as (before & l & after & m1 & m2 & -> & Hrest).
      exists (line :: before), l, after, m1, m2. split; [reflexivity|exact Hrest].
Qed.

(** C9: the decoder takes the name of the document from the first group
    of the manifest line (of the last one that matches, when several do):
    every plus sign becomes a space and the result is percent-decoded.
    The file of the specification's example decodes to the name
    "Morning Show" and the two tracks a and b. *)
Theorem decode_container_name :
  decode (js "#EXTM3U" ++ [LF]
             ++ js "Container=<Morning+Show>C:\a.mp3|C:\b.wav" ++ [LF])
  = Ok {| name := js "Morning Show";
          items := [{| path := js "C:\a.mp3"; filename := js "a" |};
                    {| path := js "C:\b.wav"; filename := js "b" |}] |}
  /\ forall raw d,
      decode raw = Ok d ->
      (name d = [] /\ items d = []
       /\ forall line, In line (contentLines raw) ->
                       startsWith line (js "Container=") = true ->
                       containerMatch line = None)
      \/ exists before line after pre m1 m2 rest,
          contentLines raw = before ++ line :: after
          /\ startsWith line (js "Container=") = true
          /\ line = pre ++ js "Container=<" ++ m1 ++ GT :: m2 ++ rest
          /\ containerMatch line = Some (m1, m2)
          /\ (forall l, In l after ->
                        startsWith l (js "Container=") = true ->
                        containerMatch l = None)
          /\ decodeURIComponent
               (map (fun c => if c =? PLUS then SPACE else c) m1)
             = Ok (name d)
          /\ (~ In PERCENT m1 ->
              name d = map (fun c => if c =? PLUS then SPACE else c) m1).
Proof.
  split; [reflexivity|].
  intros raw d H. apply parseLines_name in H as [[-> Hno]|Hyes].
  - left. repeat split; auto.
    intros line Hin Hs. apply Hno; auto. now apply isManifestLine_Container.
  - right.
    destruct Hyes as (before & line & after & m1 & m2 & E & Hm & Hc & Hno & Hd).
    destruct (containerMatch_spec _ _ _ Hc) as (pre & rest & El & _).
    exists before, line, after, pre, m1, m2, rest.
    repeat split; auto.
    + now apply isManifestLine_Container.
    + intros l Hin Hs. apply Hno; auto. now apply isManifestLine_Container.
    + intros Hp. unfold decodeURIComponent in Hd.
      rewrite Decode_without_percent in Hd.
      * now injection Hd as <-.
      * intros Hin. now apply Hp, replacePlusBySpace_percent.
Qed.

Lemma decode_container_name_witness :
  exists m1 m2,
    containerMatch (js "Container=<Jazz+%26+Blues>T:\x.mp3")
    = Some (m1, m2)
    /\ decodeURIComponent (map (fun c => if c =? PLUS then SPACE else c) m1)
       = Ok (js "Jazz & Blues").
Proof.
  destruct (proj2 decode_container_name
              (js "Container=<Jazz+%26+Blues>T:\x.mp3")
              {| name := js "Jazz & Blues";
                 items := [{| path := js "T:\x.mp3"; filename := js "x" |}] |}
              eq_refl)
    as [(H & _)|(before & line & after & pre & m1 & m2 & rest
                 & E & _ & _ & Hc & _ & Hd & _)].
  - discriminate H.
  - destruct before as [|b [|b' before]]; try discriminate E.
    injection E as <- <-. exists m1, m2. split; [exact Hc|exact Hd].
Defined.

(** ** When the decoder throws *)

Lemma parseLines_total (lines : list jsstring) (acc : Document) :
  (exists d, parseLines lines acc = Ok d)
  <-> (forall line m1 m2,
          In line lines -> isManifestLine line = true ->
          containerMatch line = Some (m1, m2) ->
          exists n, decodeURIComponent (replacePlusBySpace m1) = Ok n).
Proof.
  revert acc; induction lines as [|line lines IH]; intros acc; simpl.
  - split; [intros _ ? ? ? []|intros _; eauto].
  - rewrite parseLine_cases. split.
    + intros [d H] l m1 m2 [<-|Hin] Hm Hc.
      * rewrite Hm, Hc in H.
        destruct (decodeURIComponent (replacePlusBySpace m1)); [eauto|discriminate].
      * destruct (if isManifestLine line then _ else _) as [acc'|] eqn:E;
          [|discriminate].
        simpl in H. eapply (proj1 (IH acc')); eauto.
    + intros H.
      assert (Hrest : forall acc', exists d, parseLines lines acc' = Ok d).
      { intros acc'. apply IH. intros l m1 m2 Hin. apply H. now right. }
      destruct (isManifestLine line) eqn:Em; [|apply Hrest].
      destruct (containerMatch line) as [[m1 m2]|] eqn:Ec; [|apply Hrest].
      destruct (H line m1 m2 (or_introl eq_refl) Em Ec) as [n Hn].
      rewrite Hn. apply Hrest.
Qed.

Lemma contentLines_chars (raw line : jsstring) :
  In line (contentLines raw) -> incl line raw.
Proof.
  unfold contentLines. rewrite filter_In. intros [H _].
  now apply in_split in H.
Qed.

(** C2, as stated, fails: a manifest line whose name holds a percent sign
    that starts no escape sequence makes [decodeURIComponent], and with
    it the decoder and [resetPlaylist], throw URIError. *)
Lemma decode_throws_on_malformed_escape :
  decode (js "#EXTM3U" ++ [LF] ++ js "Container=<100%>C:\a.mp3" ++ [LF])
  = Throw URIError
  /\ resetPlaylist
       (setOriginalContent
          (js "#EXTM3U" ++ [LF] ++ js "Container=<100%>C:\a.mp3" ++ [LF])
          (initialState []))
     = Throw URIError.
Proof. split; reflexivity. Qed.

(** C2, amended: the decoder returns a document exactly when the name of
    every manifest line that matches is a valid percent-encoding (after
    the plus signs were replaced); it throws URIError otherwise.  It
    returns a document for every text without a percent sign; for the text
    "garbage" and a newline this is the document with the empty name and
    no items. *)
Theorem decode_throws_only_on_malformed_name :
  (forall raw,
      (exists d, decode raw = Ok d)
      <-> (forall line m1 m2,
              In line (contentLines raw) ->
              startsWith line (js "Container=") = true ->
              containerMatch line = Some (m1, m2) ->
              exists n, decodeURIComponent (replacePlusBySpace m1) = Ok n))
  /\ (forall raw, ~ In PERCENT raw -> exists d, decode raw = Ok d)
  /\ decode (js "garbage" ++ [LF]) = Ok {| name := []; items := [] |}.
Proof.
  assert (G : forall raw,
      (exists d, decode raw = Ok d)
      <-> (forall line m1 m2,
              In line (contentLines raw) ->
              startsWith line (js "Container=") = true ->
              containerMatch line = Some (m1, m2) ->
              exists n, decodeURIComponent (replacePlusBySpace m1) = Ok n)).
  { intros raw. unfold decode. rewrite parseLines_total.
    split; intros H line m1 m2 Hin Hs; apply H; auto;
      now apply isManifestLine_Container. }
  split; [exact G|]. split; [|reflexivity].
  intros raw Hp. apply G. intros line m1 m2 Hin _ Hc.
  exists (replacePlusBySpace m1). apply Decode_without_percent.
  intros Hm. apply replacePlusBySpace_percent in Hm.
  apply Hp, (contentLines_chars raw line Hin).
  apply containerMatch_spec in Hc as (pre & rest & -> & _).
  apply in_or_app. right. apply in_or_app. right.
  apply in_or_app. now left.
Qed.

Lemma decode_throws_only_on_malformed_name_witness :
  exists d, decode (js "#EXTM3U" ++ [LF] ++ js "Container=<a+b>x|y") = Ok d.
Proof.
  apply (proj1 (proj2 decode_throws_only_on_malformed_name)).
  vm_compute. intuition discriminate.
Defined.

(** ** The display name of a decoded item *)

Lemma pop_split_last (c : N) (a t : jsstring) :
  ~ In c t -> pop (split c (a ++ c :: t)) = Some t.
Proof.
  intros H. induction a as [|x a IH]; simpl.
  - rewrite N.eqb_refl, split_without_separator by assumption. reflexivity.
  - destruct (x =? c).
    + destruct (split c (a ++ c :: t)) eqn:E;
        [exfalso; eapply split_not_nil; eauto|exact IH].
    + destruct (split c (a ++ c :: t)) as [|u [|v us]] eqn:E;
        [exfalso; eapply split_not_nil; eauto| |exact IH].
      simpl in IH. injection IH as ->.
      (* the last token is also the first one: impossible after a separator *)
      exfalso.
      assert (Hlen : (1 < List.length (split c (a ++ c :: t)))%nat).
      { clear E. induction a as [|y a IHa]; simpl.
        - rewrite N.eqb_refl. simpl.
          pose proof (split_not_nil c t). destruct (split c t); simpl; [contradiction|lia].
        - destruct (y =? c); simpl; [lia|].
          destruct (split c (a ++ c :: t)) as [|? [|? ?]]; simpl in *; lia. }
      rewrite E in Hlen. simpl in Hlen. lia.
Qed.

Lemma pop_split_whole (c : N) (p : jsstring) :
  ~ In c p -> pop (split c p) = Some p.
Proof. intros H. now rewrite split_without_separator. Qed.

Lemma extensionHere_true (s : jsstring) :
  extensionHere s = true ->
  exists e, s = DOT :: e /\ e <> [] /\ ~ In DOT e /\ ~ In SLASH e.
Proof.
  destruct s as [|c [|x e]]; try discriminate. unfold extensionHere.
  intros [Hc He]%andb_true_iff. apply N.eqb_eq in Hc. subst c.
  exists (x :: e). split; [reflexivity|]. split; [discriminate|].
  rewrite forallb_forall in He.
  split; intros Hin; apply He in Hin;
    apply andb_true_iff in Hin as [H1 H2];
    rewrite negb_true_iff, N.eqb_neq in H1, H2; congruence.
Qed.

Lemma extensionHere_extension (e : jsstring) :
  e <> [] -> ~ In DOT e -> ~ In SLASH e -> extensionHere (DOT :: e) = true.
Proof.
  intros Hne Hd Hs. destruct e as [|x e]; [contradiction|].
  unfold extensionHere. rewrite N.eqb_refl. cbn [andb].
  apply forallb_forall. intros y Hy. apply andb_true_iff.
  rewrite !negb_true_iff, !N.eqb_neq. split; intros ->; auto.
Qed.

Lemma removeFileExtension_strips (a e : jsstring) :
  e <> [] -> ~ In DOT e -> ~ In SLASH e ->
  removeFileExtension (a ++ DOT :: e) = a.
Proof.
  intros Hne Hd Hs. induction a as [|x a IH].
  - cbn [app removeFileExtension].
    now rewrite extensionHere_extension.
  - cbn [app removeFileExtension].
    destruct (extensionHere (x :: a ++ DOT :: e)) eqn:E.
    + apply extensionHere_true in E as (e' & E & _ & Hd' & _).
      injection E as -> <-. exfalso. apply Hd'.
      apply in_or_app. right. now left.
    + now rewrite IH.
Qed.

Lemma removeFileExtension_keeps (pre s : jsstring) :
  (forall a e, pre ++ s = a ++ DOT :: e -> ~ In DOT e ->
               e = [] \/ In SLASH e) ->
  removeFileExtension s = s.
Proof.
  revert pre; induction s as [|x s IH]; intros pre H; [reflexivity|].
  cbn [removeFileExtension].
  destruct (extensionHere (x :: s)) eqn:E.
  - apply extensionHere_true in E as (e & E & Hne & Hd & Hs).
    injection E as -> ->.
    destruct (H pre e eq_refl Hd); contradiction.
  - f_equal. apply (IH (pre ++ [x])). intros a e Ha. apply (H a).
    now rewrite <- app_assoc in Ha.
Qed.

(** What [fullFilename] returns, by the shape of the entry. *)
Lemma fullFilename_cases (p : jsstring) :
  (forall a t, p = a ++ BACKSLASH :: t -> ~ In BACKSLASH t -> t <> [] ->
               fullFilename p = t)
  /\ (~ In BACKSLASH p -> fullFilename p = p)
  /\ (forall a, p = a ++ [BACKSLASH] ->
                (forall b t, p = b ++ SLASH :: t -> ~ In SLASH t ->
                             fullFilename p = t)
                /\ (~ In SLASH p -> fullFilename p = p)).
Proof.
  unfold fullFilename. repeat split.
  - intros a t -> Ht Hne. rewrite pop_split_last by assumption.
    destruct t; [contradiction|reflexivity].
  - intros H. rewrite pop_split_whole by assumption.
    destruct p as [|c p]; [|reflexivity]. reflexivity.
  - intros b t E Ht.
    rewrite H, pop_split_last by (intros []). cbn [orElse].
    rewrite <- H, E, pop_split_last by assumption.
    destruct t as [|c t]; [|reflexivity].
    (* the entry ends with a backslash, so its last token is not empty *)
    exfalso. rewrite E in H. apply (f_equal (@rev N)) in H.
    rewrite !rev_app_distr in H. simpl in H. discriminate.
  - intros Hs. rewrite H, pop_split_last by (intros []). cbn [orElse].
    rewrite <- H, pop_split_whole by assumption.
    destruct p as [|c p]; reflexivity.
Qed.

(** C3, as stated, fails, with the extension rule read as in
    [Spec.stripExtension]: an entry whose file name has only a leading dot
    gets the empty display name, where the specification leaves such a name
    alone; a dot followed by a slash in the chosen token, or by nothing,
    starts no extension for the code, which keeps the token whole. *)
Lemma decoded_displayName_differs :
  decode (js "Container=<n>C:\music\.hidden|x\a.b/c|T:\a.")
  = Ok {| name := js "n";
          items := [{| path := js "C:\music\.hidden"; filename := [] |};
                    {| path := js "x\a.b/c"; filename := js "a.b/c" |};
                    {| path := js "T:\a."; filename := js "a." |}] |}
  /\ Spec.displayName (js "C:\music\.hidden") = js ".hidden"
  /\ Spec.displayName (js "x\a.b/c") = js "a"
  /\ Spec.displayName (js "T:\a.") = js "a".
Proof. repeat split. Qed.


(** ** Encoding a decoded document and decoding it again *)

Lemma not_In_Forall (c : N) (s : jsstring) :
  ~ In c s <-> Forall (fun x => x <> c) s.
Proof.
  rewrite Forall_forall. split.
  - intros H x Hx ->. contradiction.
  - intros H Hin. now apply (H c Hin).
Qed.

Lemma decoded_paths_stored (l : list TrackRef) :
  Forall DecodedItem l -> Forall storedPath (map path l).
Proof.
  induction 1 as [|it l (p & -> & Hne & Hpipe & Hlt) _ IH]; simpl;
    constructor; auto.
  repeat split; auto.
  - apply trim_idempotent.
  - apply not_In_Forall, trim_chars. now apply not_In_Forall.
  - now apply trim_chars.
Qed.

Lemma entries_of_stored_paths (ps : list jsstring) :
  Forall storedPath ps ->
  map path (map entryOf (filter (fun p => truthy (trim p)) ps)) = ps.
Proof.
  induction 1 as [|p ps (Hne & Ht & _) _ IH]; simpl; [reflexivity|].
  rewrite Ht. destruct p as [|c p]; [contradiction|].
  cbn [truthy map]. rewrite IH. cbn [path entryOf]. now rewrite Ht.
Qed.

Lemma notLineTerminator_not_LF (c : N) :
  notLineTerminator c = true -> c <> LF.
Proof. intros H ->. discriminate H. Qed.

Lemma nameChar_notGT (s : jsstring) :
  Forall nameChar s -> Forall (fun c => notGT c = true) s.
Proof.
  apply Forall_impl. intros c [H _]. unfold notGT.
  now apply negb_true_iff, N.eqb_neq.
Qed.

(** The text written for a name already encoded and a list of stored
    paths is read back as this name and these paths. *)
Lemma decode_written (e n : jsstring) (ps : list jsstring) :
  e <> [] -> Forall nameChar e ->
  decodeURIComponent (replacePlusBySpace e) = Ok n ->
  ps <> [] -> Forall storedPath ps ->
  exists d',
    decode (js "#EXTM3U" ++ [LF] ++ js "Container=<" ++ e
               ++ [GT] ++ join PIPE ps ++ [LF]) = Ok d'
    /\ name d' = n /\ map path (items d') = ps.
Proof.
  intros He Hchars Hd Hps Hstored.
  set (line := js "Container=<" ++ e ++ GT :: join PIPE ps).
  assert (Hjoin_lt : Forall (fun c => notLineTerminator c = true)
                            (join PIPE ps)).
  { apply join_chars; [reflexivity|].
    eapply Forall_impl; [|exact Hstored]. intros p (_ & _ & _ & H). exact H. }
  assert (Hjoin_ne : join PIPE ps <> []).
  { apply join_not_nil; auto.
    eapply Forall_impl; [|exact Hstored]. intros p (H & _). exact H. }
  assert (Hline : ~ In LF line).
  { unfold line. rewrite !in_app_iff. intros [H|[H|H]].
    - vm_compute in H. intuition discriminate.
    - rewrite Forall_forall in Hchars. now apply (Hchars LF H).
    - destruct H as [H|H]; [discriminate|].
      rewrite Forall_forall in Hjoin_lt.
      now apply (notLineTerminator_not_LF LF (Hjoin_lt LF H)). }
  assert (Hlines :
            contentLines (js "#EXTM3U" ++ [LF] ++ js "Container=<" ++ e
                             ++ [GT] ++ join PIPE ps ++ [LF])
            = [js "#EXTM3U"; line]).
  { unfold contentLines.
    replace (js "#EXTM3U" ++ [LF] ++ js "Container=<" ++ e
                ++ [GT] ++ join PIPE ps ++ [LF])
      with (js "#EXTM3U" ++ LF :: (line ++ LF :: []))
      by (unfold line; cbn [app]; now rewrite <- !app_assoc).
    rewrite split_app_separator
      by (vm_compute; intuition discriminate).
    rewrite split_app_separator by assumption.
    cbn [split filter].
    replace (truthy (trim (js "#EXTM3U"))) with true by reflexivity.
    replace (truthy (trim line)) with true
      by (symmetry; apply (trim_of_clean_start 67); reflexivity).
    reflexivity. }
  assert (Hmatch : containerMatch line = Some (e, join PIPE ps)).
  { apply containerMatch_here, containerMatchHere_built; auto.
    now apply nameChar_notGT. }
  unfold decode. rewrite Hlines. cbn [parseLines].
  rewrite parseLine_cases.
  replace (isManifestLine (js "#EXTM3U")) with false by reflexivity.
  cbn [bind]. rewrite parseLine_cases.
  replace (isManifestLine line) with true by reflexivity.
  rewrite Hmatch, Hd. cbn [bind items].
  eexists. split; [reflexivity|]. split; [reflexivity|].
  cbn [items app].
  rewrite split_join.
  - now apply entries_of_stored_paths.
  - assumption.
  - eapply Forall_impl; [|exact Hstored]. intros p (_ & _ & H & _). exact H.
Qed.

(** A name that holds an unpaired surrogate is copied from the text by
    the decoder, and [encodeURIComponent] throws URIError on it.  Such a
    text is not one the component is given: [response.text()] decodes
    UTF-8, which has no unpaired surrogate. *)
Lemma encode_throws_on_unpaired_surrogate :
  decode (js "#EXTM3U" ++ [LF] ++ js "Container=<" ++ [55296]
             ++ js ">C:\a.mp3" ++ [LF])
  = Ok {| name := [55296];
          items := [{| path := js "C:\a.mp3"; filename := js "a" |}] |}
  /\ encode {| name := [55296];
               items := [{| path := js "C:\a.mp3"; filename := js "a" |}] |}
     = Throw URIError.
Proof. split; reflexivity. Qed.

(** A document produced by the decoder that has items and whose name is
    well-formed UTF-16 (no unpaired surrogate) is encoded to a text that
    decodes to the same container name and the same paths in the same
    order. *)
Lemma decoded_document_roundtrip (raw : jsstring) (d : Document) :
  decode raw = Ok d -> items d <> [] -> wellFormed (name d) = true ->
  exists text d',
    encode d = Ok text
    /\ decode text = Ok d'
    /\ name d' = name d
    /\ map path (items d') = map path (items d).
Proof.
  intros Hd Hitems Hwf.
  apply decode_wellDecoded in Hd as [Hdec Hname].
  specialize (Hname Hitems).
  destruct (Encode_roundtrip (name d) Hwf) as (e & He & Hback & Hchars & Hne).
  specialize (Hne Hname).
  destruct (decode_written (replacePercent20ByPlus e) (name d)
              (map path (items d))) as (d' & H1 & H2 & H3); auto.
  - destruct (items d); [contradiction|discriminate].
  - now apply decoded_paths_stored.
  - exists (js "#EXTM3U" ++ [LF] ++ js "Container=<"
               ++ replacePercent20ByPlus e ++ [GT]
               ++ join PIPE (map path (items d)) ++ [LF]), d'.
    repeat split; auto.
    unfold encode. destruct (items d) as [|it l] eqn:Ei; [contradiction|].
    unfold encodeURIComponent.
    replace (orElse (Some (name d)) (js "Not predefined")) with (name d)
      by (destruct (name d); [contradiction|reflexivity]).
    rewrite He. reflexivity.
Qed.


(** ** More on the decoder: which lines count, what they contribute *)

Lemma parseLines_items (lines : list jsstring) (acc d : Document) :
  parseLines lines acc = Ok d ->
  items d = items acc ++ flat_map lineItems lines.
Proof.
  revert acc; induction lines as [|line lines IH]; simpl; intros acc H.
  - injection H as <-. now rewrite app_nil_r.
  - destruct (parseLine acc line) as [acc'|] eqn:E; [|discriminate].
    simpl in H. rewrite (IH _ H). rewrite parseLine_cases in E.
    unfold lineItems. destruct (isManifestLine line).
    + destruct (containerMatch line) as [[m1 m2]|].
      * destruct (decodeURIComponent (replacePlusBySpace m1)); [|discriminate].
        injection E as <-. cbn [items]. now rewrite <- app_assoc.
      * injection E as <-. reflexivity.
    + injection E as <-. reflexivity.
Qed.

Lemma parseLines_only_manifest (lines : list jsstring) (acc : Document) :
  parseLines lines acc = parseLines (filter isManifestLine lines) acc.
Proof.
  revert acc; induction lines as [|line lines IH]; intros acc; [reflexivity|].
  cbn [filter]. destruct (isManifestLine line) eqn:E.
  - cbn [parseLines]. destruct (parseLine acc line); simpl; auto.
  - cbn [parseLines]. rewrite parseLine_cases, E. simpl. apply IH.
Qed.

Lemma filter_ext_bool {A : Type} (f g : A -> bool) (l : list A) :
  (forall x, f x = g x) -> filter f l = filter g l.
Proof.
  intros H. induction l as [|x l IH]; simpl; [reflexivity|].
  rewrite H, IH. reflexivity.
Qed.

Lemma filter_drops_all {A : Type} (f : A -> bool) (l : list A) :
  (forall x, In x l -> f x = false) -> filter f l = [].
Proof.
  induction l as [|x l IH]; simpl; intros H; [reflexivity|].
  rewrite (H x) by now left. apply IH. intros y Hy. apply H. now right.
Qed.

Lemma isManifestLine_eq (line : jsstring) :
  isManifestLine line = startsWith line (js "Container=").
Proof.
  destruct (startsWith line (js "Container=")) eqn:E.
  - now apply isManifestLine_Container.
  - unfold isManifestLine. rewrite E. apply andb_false_r.
Qed.

(** X1: the items of a decoded document are the entries of its manifest
    lines, line after line and entry after entry: the loop only ever
    appends, and several manifest lines add up. *)
Theorem decode_items_of_all_manifest_lines (raw : jsstring) (d : Document) :
  decode raw = Ok d ->
  items d = flat_map lineItems (contentLines raw).
Proof. intros H. now apply parseLines_items in H. Qed.

Lemma decode_items_of_all_manifest_lines_witness :
  exists d,
    decode (js "Container=<A>x|y" ++ [LF] ++ js "note" ++ [LF]
               ++ js "Container=<B>z") = Ok d
    /\ name d = js "B"
    /\ map path (items d) = [js "x"; js "y"; js "z"].
Proof.
  eexists. split; [reflexivity|]. split; [reflexivity|].
  rewrite (decode_items_of_all_manifest_lines
             (js "Container=<A>x|y" ++ [LF] ++ js "note" ++ [LF]
                 ++ js "Container=<B>z") _ eq_refl).
  reflexivity.
Defined.

(** X2: only lines that start with [Container=] count: the decoder
    gives the same result on the text and on its manifest lines alone,
    and a text without such a line decodes to the empty document. *)
Theorem decode_ignores_other_lines (raw : jsstring) :
  decode raw
  = parseLines
      (filter (fun l => startsWith l (js "Container=")) (contentLines raw))
      {| name := []; items := [] |}
  /\ ((forall l, In l (contentLines raw) ->
                 startsWith l (js "Container=") = false) ->
      decode raw = Ok {| name := []; items := [] |}).
Proof.
  assert (E : decode raw
              = parseLines
                  (filter (fun l => startsWith l (js "Container="))
                          (contentLines raw))
                  {| name := []; items := [] |}).
  { unfold decode. rewrite parseLines_only_manifest.
    f_equal. apply filter_ext_bool, isManifestLine_eq. }
  split; [exact E|].
  intros H. rewrite E.
  replace (filter (fun l => startsWith l (js "Container=")) (contentLines raw))
    with (@nil jsstring); [reflexivity|].
  symmetry. now apply filter_drops_all.
Qed.

Lemma decode_ignores_other_lines_witness :
  decode (js "#EXTM3U" ++ [LF] ++ js "#EXTINF:12,Song" ++ [LF]
             ++ js "C:\a.mp3" ++ [LF] ++ js " Container=<n>x")
  = Ok {| name := []; items := [] |}.
Proof.
  apply (proj2 (decode_ignores_other_lines _)).
  vm_compute. intros l H.
  repeat (destruct H as [<-|H]; [reflexivity|]). destruct H.
Defined.

(** X3: what the decoder stores is clean: every path is non-empty, has
    no white space at either end, no [|] and no line terminator, and a
    document with items has a non-empty name. *)
Theorem decoded_paths_are_clean (raw : jsstring) (d : Document) :
  decode raw = Ok d ->
  (forall it, In it (items d) ->
              path it <> [] /\ trim (path it) = path it
              /\ ~ In PIPE (path it)
              /\ (forall c, In c (path it) -> isLineTerminator c = false))
  /\ (items d <> [] -> name d <> []).
Proof.
  intros H. apply decode_wellDecoded in H as [Hi Hn]. split; [|exact Hn].
  intros it Hin. apply decoded_paths_stored in Hi.
  rewrite Forall_forall in Hi.
  destruct (Hi (path it) (in_map path _ _ Hin)) as (H1 & H2 & H3 & H4).
  repeat split; auto.
  intros c Hc. rewrite Forall_forall in H4.
  now apply negb_true_iff, H4.
Qed.

Lemma decoded_paths_are_clean_witness :
  js "T:\x y.mp3" <> []
  /\ trim (js "T:\x y.mp3") = js "T:\x y.mp3"
  /\ ~ In PIPE (js "T:\x y.mp3").
Proof.
  destruct (decoded_paths_are_clean
              (js "Container=<n> T:\x y.mp3 | |z" ++ [13])
              {| name := js "n";
                 items := [{| path := js "T:\x y.mp3"; filename := js "x y" |};
                           {| path := js "z"; filename := js "z" |}] |}
              eq_refl) as [H _].
  destruct (H {| path := js "T:\x y.mp3"; filename := js "x y" |}
              (or_introl eq_refl)) as (H1 & H2 & H3 & _).
  split; [exact H1|]. split; [exact H2|exact H3].
Defined.

(** ** Windows line ends *)

Lemma split_toCRLF (raw : jsstring) :
  split LF (toCRLF raw) = withCR (split LF raw).
Proof.
  induction raw as [|c raw IH]; [reflexivity|].
  unfold toCRLF in *. cbn [flat_map].
  pose proof (split_not_nil LF raw) as Hne.
  destruct (c =? LF) eqn:E.
  - apply N.eqb_eq in E. subst c. cbn [app split].
    change (13 =? LF) with false. change (LF =? LF) with true. cbv iota.
    rewrite IH. destruct (split LF raw) as [|t ts]; [contradiction|reflexivity].
  - cbn [app split]. rewrite E, IH.
    destruct (split LF raw) as [|t ts]; [contradiction|].
    destruct ts as [|u us]; reflexivity.
Qed.

Lemma trimEnd_app_CR (s : jsstring) : trimEnd (s ++ [13]) = trimEnd s.
Proof.
  induction s as [|c s IH]; [reflexivity|].
  cbn [app trimEnd]. now rewrite IH.
Qed.

Lemma trim_app_CR (s : jsstring) : trim (s ++ [13]) = trim s.
Proof.
  unfold trim. induction s as [|c s IH]; [reflexivity|].
  cbn [app trimStart]. destruct (isWhiteSpace c); [exact IH|].
  change (c :: s ++ [13]) with ((c :: s) ++ [13]). apply trimEnd_app_CR.
Qed.

Lemma startsWith_app_CR (s p : jsstring) :
  ~ In 13 p -> startsWith (s ++ [13]) p = startsWith s p.
Proof.
  revert s; induction p as [|x p IH]; intros s H; [now destruct s|].
  destruct s as [|y s]; cbn [app startsWith].
  - rewrite (proj2 (N.eqb_neq x 13)); [reflexivity|].
    intros ->. apply H. now left.
  - rewrite IH; [reflexivity|]. intros Hin. apply H. now right.
Qed.

Lemma stripPrefix_app_CR (p s : jsstring) :
  ~ In 13 p ->
  stripPrefix p (s ++ [13])
  = match stripPrefix p s with
    | Some r => Some (r ++ [13])
    | None => None
    end.
Proof.
  revert s; induction p as [|x p IH]; intros s H; [reflexivity|].
  destruct s as [|y s]; cbn [app stripPrefix].
  - rewrite (proj2 (N.eqb_neq x 13)); [reflexivity|].
    intros ->. apply H. now left.
  - destruct (x =? y); [|reflexivity].
    apply IH. intros Hin. apply H. now right.
Qed.

Lemma span_app_kept (f : N -> bool) (s : jsstring) (x : N) :
  f x = true ->
  span f (s ++ [x])
  = match span f s with
    | (a, []) => (a ++ [x], [])
    | (a, b) => (a, b ++ [x])
    end.
Proof.
  intros Hx. induction s as [|c s IH]; cbn [app span].
  - now rewrite Hx.
  - destruct (f c); [|reflexivity].
    rewrite IH. destruct (span f s) as [a [|b0 b]]; reflexivity.
Qed.

Lemma span_app_stop (f : N -> bool) (s : jsstring) (x : N) :
  f x = false ->
  span f (s ++ [x]) = (fst (span f s), snd (span f s) ++ [x]).
Proof.
  intros Hx. induction s as [|c s IH]; cbn [app span].
  - now rewrite Hx.
  - destruct (f c); [|reflexivity].
    rewrite IH. destruct (span f s) as [a b]. reflexivity.
Qed.

Lemma containerMatchHere_app_CR (s : jsstring) :
  containerMatchHere (s ++ [13]) = containerMatchHere s.
Proof.
  unfold containerMatchHere.
  rewrite stripPrefix_app_CR by (vm_compute; intuition discriminate).
  destruct (stripPrefix (js "Container=<") s) as [r|]; [|reflexivity].
  rewrite (span_app_kept (fun c => negb (c =? GT)) r 13 eq_refl).
  destruct (span (fun c => negb (c =? GT)) r) as [a [|g b]].
  - destruct a; [reflexivity|]. destruct a; reflexivity.
  - destruct a as [|a0 a]; [reflexivity|]. cbn [app].
    rewrite (span_app_stop (fun c => negb (isLineTerminator c)) b 13 eq_refl).
    destruct (span (fun c => negb (isLineTerminator c)) b) as [u v].
    reflexivity.
Qed.

Lemma containerMatch_app_CR (line : jsstring) :
  containerMatch (line ++ [13]) = containerMatch line.
Proof.
  induction line as [|c line IH].
  - reflexivity.
  - change ((c :: line) ++ [13]) with (c :: (line ++ [13])).
    cbn [containerMatch].
    change (c :: (line ++ [13])) with ((c :: line) ++ [13]).
    rewrite containerMatchHere_app_CR, IH. reflexivity.
Qed.

Lemma parseLine_app_CR (acc : Document) (line : jsstring) :
  parseLine acc (line ++ [13]) = parseLine acc line.
Proof.
  unfold parseLine.
  rewrite !startsWith_app_CR by (vm_compute; intuition discriminate).
  now rewrite containerMatch_app_CR.
Qed.

Lemma parseLines_withCR (pieces : list jsstring) (acc : Document) :
  parseLines (filter (fun l => truthy (trim l)) (withCR pieces)) acc
  = parseLines (filter (fun l => truthy (trim l)) pieces) acc.
Proof.
  revert acc; induction pieces as [|p ps IH]; intros acc; [reflexivity|].
  destruct ps as [|q ps]; [reflexivity|].
  change (withCR (p :: q :: ps)) with ((p ++ [13]) :: withCR (q :: ps)).
  cbn [filter]. rewrite trim_app_CR.
  destruct (truthy (trim p)); [|apply IH].
  cbn [parseLines]. rewrite parseLine_app_CR.
  destruct (parseLine acc p); simpl; [apply IH|reflexivity].
Qed.

(** X4: a text saved with Windows line ends decodes to the same
    document (or throws the same error) as the text with bare newlines:
    the CR left at the end of each line is white space for the line
    filter, no part of the prefixes tested, and a line terminator that
    the second group of the manifest pattern stops at. *)
Theorem decode_toCRLF (raw : jsstring) : decode (toCRLF raw) = decode raw.
Proof.
  unfold decode, contentLines. rewrite split_toCRLF. apply parseLines_withCR.
Qed.

(** ** Writing any clean document and reading it back *)

Lemma wellFormed_writtenName (n : jsstring) :
  wellFormed n = true -> wellFormed (writtenName n) = true.
Proof. destruct n; [reflexivity|auto]. Qed.

Lemma writtenName_not_nil (n : jsstring) : writtenName n <> [].
Proof. destruct n; discriminate. Qed.

Lemma orElse_writtenName (n : jsstring) :
  orElse (Some n) (js "Not predefined") = writtenName n.
Proof. destruct n; reflexivity. Qed.

Lemma written_document_read_back (d : Document) :
  items d <> [] -> Forall storedPath (map path (items d)) ->
  wellFormed (name d) = true ->
  exists text d',
    encode d = Ok text
    /\ decode text = Ok d'
    /\ name d' = writtenName (name d)
    /\ map path (items d') = map path (items d).
Proof.
  intros Hitems Hpaths Hwf.
  destruct (Encode_roundtrip (writtenName (name d))
              (wellFormed_writtenName _ Hwf))
    as (e & He & Hback & Hchars & Hne).
  specialize (Hne (writtenName_not_nil _)).
  destruct (decode_written (replacePercent20ByPlus e) (writtenName (name d))
              (map path (items d))) as (d' & H1 & H2 & H3); auto.
  - destruct (items d); [contradiction|discriminate].
  - exists (js "#EXTM3U" ++ [LF] ++ js "Container=<"
               ++ replacePercent20ByPlus e ++ [GT]
               ++ join PIPE (map path (items d)) ++ [LF]), d'.
    repeat split; auto.
    unfold encode. destruct (items d) as [|it l] eqn:Ei; [contradiction|].
    unfold encodeURIComponent. rewrite orElse_writtenName, He. reflexivity.
Qed.

(** X5: any document with items whose paths are clean (non-empty,
    trimmed, without [|] and line terminators) and whose name is
    well-formed is written to a text that reads back with the same paths
    in the same order and the same name, except that the empty name
    comes back as "Not predefined". *)
Theorem encode_then_decode_clean_document (d : Document) :
  items d <> [] -> Forall storedPath (map path (items d)) ->
  wellFormed (name d) = true ->
  exists text d',
    encode d = Ok text
    /\ decode text = Ok d'
    /\ name d' = match name d with
                 | [] => js "Not predefined"
                 | _ :: _ => name d
                 end
    /\ map path (items d') = map path (items d).
Proof. apply written_document_read_back. Qed.

Lemma encode_then_decode_clean_document_witness :
  exists text d',
    encode {| name := [];
              items := [{| path := js "T:\My Drive\Audio\a b.mp3";
                           filename := js "a b" |}] |} = Ok text
    /\ decode text = Ok d'
    /\ name d' = js "Not predefined"
    /\ map path (items d') = [js "T:\My Drive\Audio\a b.mp3"].
Proof.
  apply (encode_then_decode_clean_document
           {| name := [];
              items := [{| path := js "T:\My Drive\Audio\a b.mp3";
                           filename := js "a b" |}] |}).
  - discriminate.
  - repeat constructor; try discriminate.
    vm_compute. intuition discriminate.
  - reflexivity.
Defined.

(** ** Saving, then resetting *)

(** X6: when the update call succeeds, [savePlaylist] stores the text it
    sent as [originalContent], leaves the document alone, clears
    [saveError] and shows the success toast; a reset then decodes that
    text.  For a clean document with items the reset keeps the paths and
    the name (the placeholder for an empty name); for a document without
    items it also empties the container name. *)
Theorem savePlaylist_success_then_reset
        (updateFile : jsstring -> jsstring -> UpdateResult)
        (onAuthError : bool) (s : State) (pl : GoogleDriveFile.t)
        (content : jsstring) :
  selectedPlaylist s = Some pl ->
  generatePlaylistContent s = Ok content ->
  updateFile (GoogleDriveFile.id pl) content = Resolved ->
  let s' := fst (savePlaylist updateFile onAuthError s) in
  originalContent s' = content
  /\ document s' = document s
  /\ saveError s' = None /\ isSaving s' = false
  /\ snd (savePlaylist updateFile onAuthError s)
     = [Toast (js "Playlist saved")
              (stripM3u8 (GoogleDriveFile.name pl)
                 ++ js " was updated successfully.")
              (js "success")]
  /\ (playlistItems s = [] ->
      exists s'', resetPlaylist s' = Ok s''
                  /\ containerName s'' = [] /\ playlistItems s'' = [])
  /\ (playlistItems s <> [] ->
      Forall storedPath (map path (playlistItems s)) ->
      wellFormed (containerName s) = true ->
      exists s'', resetPlaylist s' = Ok s''
                  /\ containerName s'' = writtenName (containerName s)
                  /\ map path (playlistItems s'')
                     = map path (playlistItems s)).
Proof.
  intros Hsel Hgen Hupd s'. subst s'. unfold savePlaylist.
  rewrite Hsel, generatePlaylistContent_saving, Hgen, Hupd. cbn [fst snd].
  split; [reflexivity|]. split; [reflexivity|].
  split; [reflexivity|]. split; [reflexivity|]. split; [reflexivity|].
  unfold resetPlaylist, parsePlaylistContent.
  cbn [originalContent setIsSaving setOriginalContent].
  unfold generatePlaylistContent in Hgen. split.
  - intros Hnil. unfold encode in Hgen. cbn [items document] in Hgen.
    rewrite Hnil in Hgen. injection Hgen as <-.
    eexists. split; [reflexivity|]. split; reflexivity.
  - intros Hne Hpaths Hwf.
    destruct (written_document_read_back (document s) Hne Hpaths Hwf)
      as (text & d' & He & Hd & Hn & Hp).
    rewrite Hgen in He. injection He as <-. rewrite Hd.
    eexists. split; [reflexivity|]. split; assumption.
Qed.

Lemma savePlaylist_success_then_reset_witness :
  let pl := {| GoogleDriveFile.id := js "7";
               GoogleDriveFile.name := js "Show.M3U8" |} in
  let s := setContainerName (js "Morning Show")
             (setSelectedPlaylist (Some pl) (initialState [])) in
  snd (savePlaylist (fun _ _ => Resolved) true s)
  = [Toast (js "Playlist saved") (js "Show was updated successfully.")
           (js "success")]
  /\ exists s'',
      resetPlaylist (fst (savePlaylist (fun _ _ => Resolved) true s)) = Ok s''
      /\ containerName s'' = [] /\ playlistItems s'' = [].
Proof.
  intros pl s.
  destruct (savePlaylist_success_then_reset (fun _ _ => Resolved) true s pl
              (js "#EXTM3U" ++ [LF]) eq_refl eq_refl eq_refl)
    as (_ & _ & _ & _ & Ht & Hreset & _).
  split; [exact Ht|]. apply Hreset. reflexivity.
Defined.

(** X7: when the text cannot be generated (the name holds an unpaired
    surrogate), [savePlaylist] ends the same way whatever the storage
    client would do: the update is never asked for.  The document and
    the original text stay and [saveError] holds the message of the
    URIError. *)
Theorem savePlaylist_unencodable_name
        (updateFile1 updateFile2 : jsstring -> jsstring -> UpdateResult)
        (onAuthError : bool) (s : State) (e : exn) :
  generatePlaylistContent s = Throw e ->
  savePlaylist updateFile1 onAuthError s
  = savePlaylist updateFile2 onAuthError s
  /\ document (fst (savePlaylist updateFile1 onAuthError s)) = document s
  /\ originalContent (fst (savePlaylist updateFile1 onAuthError s))
     = originalContent s
  /\ snd (savePlaylist updateFile1 onAuthError s) = []
  /\ (selectedPlaylist s <> None ->
      saveError (fst (savePlaylist updateFile1 onAuthError s))
      = Some (exnMessage e)).
Proof.
  intros H. unfold savePlaylist.
  destruct (selectedPlaylist s) as [pl|]; [|repeat split; congruence].
  rewrite generatePlaylistContent_saving, H.
  destruct e. repeat split.
Qed.

Lemma savePlaylist_unencodable_name_witness :
  let s := setPlaylistItems [{| path := js "T:\a.mp3"; filename := js "a" |}]
             (setContainerName [56832]
                (setSelectedPlaylist
                   (Some {| GoogleDriveFile.id := js "7";
                            GoogleDriveFile.name := js "show.m3u8" |})
                   (initialState []))) in
  saveError (fst (savePlaylist (fun _ _ => Resolved) false s))
  = Some (js "URI malformed").
Proof.
  intros s.
  destruct (savePlaylist_unencodable_name
              (fun _ _ => Resolved) (fun _ _ => Rejected None) false s URIError
              eq_refl) as (_ & _ & _ & _ & H).
  apply H. discriminate.
Defined.

(** ** Loading *)

(** X8: the loading effect replaces the document only when the fetch
    succeeds and the decoder returns.  When the fetch fails the whole
    state stays (the new selection included); when the decoder throws,
    only [originalContent] becomes the fetched text and the document of
    the playlist shown before stays. *)
Theorem load_replaces_document_only_on_success
        (getFileContent : jsstring -> FetchResult) (onAuthError : bool)
        (s : State) (pl : GoogleDriveFile.t) :
  selectedPlaylist s = Some pl ->
  let s' := fst (load getFileContent onAuthError s) in
  (forall message,
      getFileContent (GoogleDriveFile.id pl) = FetchRejected message ->
      s' = s)
  /\ (forall raw e,
         getFileContent (GoogleDriveFile.id pl) = Fetched raw ->
         decode raw = Throw e ->
         s' = setOriginalContent raw s)
  /\ (forall raw d,
         getFileContent (GoogleDriveFile.id pl) = Fetched raw ->
         decode raw = Ok d ->
         document s' = d /\ originalContent s' = raw
         /\ selectedPlaylist s' = Some pl).
Proof.
  intros Hsel s'. subst s'. unfold load. rewrite Hsel.
  split; [|split].
  - intros message ->. reflexivity.
  - intros raw e -> Hd. unfold parsePlaylistContent. now rewrite Hd.
  - intros raw d -> Hd. unfold parsePlaylistContent. rewrite Hd.
    cbn [bind fst]. destruct d. repeat split. exact Hsel.
Qed.

Lemma load_replaces_document_only_on_success_witness :
  let pl := {| GoogleDriveFile.id := js "7";
               GoogleDriveFile.name := js "show.m3u8" |} in
  let s := setPlaylistItems [{| path := js "T:\old.mp3"; filename := js "old" |}]
             (setSelectedPlaylist (Some pl) (initialState [])) in
  fst (load (fun _ => FetchRejected (Some (js "Failed to fetch"))) true s) = s.
Proof.
  intros pl s.
  destruct (load_replaces_document_only_on_success
              (fun _ => FetchRejected (Some (js "Failed to fetch"))) true s pl
              eq_refl) as (H & _).
  now apply (H (Some (js "Failed to fetch"))).
Defined.

(** X9: selecting another playlist whose fetch fails leaves the tracks
    of the previous playlist in the state under the new selection, and a
    save that succeeds then sends their text to the newly selected file
    and records it as that file's original content. *)
Theorem failed_load_then_save_writes_previous_tracks
        (updateFile : jsstring -> jsstring -> UpdateResult)
        (onAuthError : bool) (s : State) (pl' : GoogleDriveFile.t)
        (message : option jsstring) (content : jsstring) :
  let s1 := fst (load (fun _ => FetchRejected message) onAuthError
                      (setSelectedPlaylist (Some pl') s)) in
  generatePlaylistContent s = Ok content ->
  updateFile (GoogleDriveFile.id pl') content = Resolved ->
  selectedPlaylist s1 = Some pl'
  /\ document s1 = document s
  /\ originalContent s1 = originalContent s
  /\ originalContent (fst (savePlaylist updateFile onAuthError s1)) = content
  /\ document (fst (savePlaylist updateFile onAuthError s1)) = document s.
Proof.
  intros s1 Hgen Hupd. subst s1. unfold load.
  cbn [selectedPlaylist setSelectedPlaylist fst].
  split; [reflexivity|]. split; [reflexivity|]. split; [reflexivity|].
  unfold savePlaylist. cbn [selectedPlaylist setSelectedPlaylist].
  rewrite generatePlaylistContent_saving.
  change (generatePlaylistContent (setSelectedPlaylist (Some pl') s))
    with (generatePlaylistContent s).
  rewrite Hgen, Hupd. split; reflexivity.
Qed.

Lemma failed_load_then_save_writes_previous_tracks_witness :
  let old := {| GoogleDriveFile.id := js "1";
                GoogleDriveFile.name := js "old.m3u8" |} in
  let new := {| GoogleDriveFile.id := js "2";
                GoogleDriveFile.name := js "new.m3u8" |} in
  let s := Load old (js "Container=<Old>T:\old.mp3") (initialState []) in
  let updateFile := fun id _ : jsstring =>
        if jseqb id (js "2") then Resolved else Rejected None in
  originalContent
    (fst (savePlaylist updateFile true
            (fst (load (fun _ => FetchRejected None) true
                       (setSelectedPlaylist (Some new) s)))))
  = js "#EXTM3U" ++ [LF] ++ js "Container=<Old>T:\old.mp3" ++ [LF].
Proof.
  intros old new s updateFile.
  destruct (failed_load_then_save_writes_previous_tracks
              updateFile true s new None
              (js "#EXTM3U" ++ [LF] ++ js "Container=<Old>T:\old.mp3" ++ [LF])
              eq_refl eq_refl) as (_ & _ & _ & H & _).
  exact H.
Defined.

(** ** Edits keep the list a list of distinct paths *)

Lemma Permutation_insertNth {A : Type} (n : nat) (x : A) (l : list A) :
  Permutation (Spec.insertNth n x l) (x :: l).
Proof.
  revert n; induction l as [|y l IH]; intros [|n]; simpl; auto.
  rewrite IH. apply perm_swap.
Qed.

Lemma Permutation_removeNth {A : Type} (n : nat) (x : A) (l : list A) :
  nth_error l n = Some x -> Permutation l (x :: Spec.removeNth n l).
Proof.
  revert n; induction l as [|y l IH]; intros [|n] H; simpl in *;
    try discriminate.
  - injection H as ->. reflexivity.
  - rewrite (IH n H) at 1. apply perm_swap.
Qed.

Lemma handleDrop_items (i j : nat) (s s' : State) :
  handleDrop i j s = Some s' ->
  s' = s
  \/ exists x, nth_error (playlistItems s) i = Some x
               /\ playlistItems s'
                  = Spec.insertNth j x (Spec.removeNth i (playlistItems s)).
Proof.
  unfold handleDrop. destruct (Nat.eqb i j); [intros [= <-]; now left|].
  destruct (nth_error (playlistItems s) i) as [x|] eqn:E; [|discriminate].
  intros [= <-]. right. exists x. split; [reflexivity|].
  cbn [playlistItems setPlaylistItems].
  now rewrite splice_remove, splice_insert.
Qed.

Lemma handleDrop_Permutation (i j : nat) (s s' : State) :
  handleDrop i j s = Some s' ->
  Permutation (playlistItems s') (playlistItems s).
Proof.
  intros H. apply handleDrop_items in H as [->|(x & Hx & ->)]; [reflexivity|].
  rewrite Permutation_insertNth. symmetry. now apply Permutation_removeNth.
Qed.

Lemma filterIndexNot_removeNth {A : Type} (n : nat) (l : list A) :
  filterIndexNot n l = Spec.removeNth n l.
Proof.
  revert n; induction l as [|x l IH]; intros [|n]; simpl; auto.
  now rewrite IH.
Qed.

Lemma NoDup_map_removeNth {A B : Type} (f : A -> B) (n : nat) (l : list A) :
  NoDup (map f l) -> NoDup (map f (Spec.removeNth n l)).
Proof.
  revert n; induction l as [|x l IH]; intros [|n] H; simpl in *; auto.
  - now inversion H.
  - inversion H as [|? ? Hx Hl]; subst. constructor; auto.
    intros Hin. apply Hx. apply in_map_iff in Hin as (y & <- & Hy).
    apply in_map. clear - Hy. revert n Hy.
    induction l as [|z l IHl]; intros [|n] Hy; simpl in *; auto.
    destruct Hy as [->|Hy]; eauto.
Qed.

Lemma NoDup_map_filter {A B : Type} (f : A -> B) (g : A -> bool)
      (l : list A) :
  NoDup (map f l) -> NoDup (map f (filter g l)).
Proof.
  induction l as [|x l IH]; simpl; intros H; auto.
  inversion H as [|? ? Hx Hl]; subst.
  destruct (g x); simpl; auto. constructor; auto.
  intros Hin. apply Hx. apply in_map_iff in Hin as (y & <- & Hy).
  apply in_map. now apply filter_In in Hy.
Qed.

(** X10: if no two items have the same path, no edit makes two items
    share one: adding checks for the path first, removing and reordering
    only drop or move items. *)
Theorem edits_keep_paths_distinct (s s' : State) (e : Edit) :
  NoDup (map path (playlistItems s)) ->
  applyEdit s e = Some s' ->
  NoDup (map path (playlistItems s')).
Proof.
  intros Hnd. destruct e as [file|file|index|i j]; simpl.
  - intros [= <-]. unfold addFileToPlaylist.
    destruct (selectedPlaylist s); [|exact Hnd].
    destruct (hasPath _ _) eqn:Hp; [exact Hnd|].
    cbn [fst playlistItems setPlaylistItems].
    rewrite map_app. cbn [map path].
    apply NoDup_app; [exact Hnd|repeat constructor; intros []|].
    intros a Ha [<-|[]]. rewrite hasPath_false in Hp.
    apply in_map_iff in Ha as (it & Hit & Hin). now apply (Hp it Hin).
  - intros [= <-]. cbn [playlistItems removeFileFromPlaylist setPlaylistItems].
    now apply NoDup_map_filter.
  - intros [= <-]. cbn [playlistItems removeItemAt setPlaylistItems].
    rewrite filterIndexNot_removeNth. now apply NoDup_map_removeNth.
  - intros H. apply handleDrop_Permutation in H.
    eapply Permutation_NoDup; [|exact Hnd].
    symmetry. now apply Permutation_map.
Qed.

Lemma edits_keep_paths_distinct_witness :
  let s := Load {| GoogleDriveFile.id := js "7";
                   GoogleDriveFile.name := js "show.m3u8" |}
                (js "Container=<n>T:\a.mp3|T:\b.mp3") (initialState []) in
  let file := {| GoogleDriveFile.id := js "1";
                 GoogleDriveFile.name := js "c.mp3" |} in
  NoDup (map path (playlistItems (fst (addFileToPlaylist file s)))).
Proof.
  intros s file.
  apply (edits_keep_paths_distinct s (fst (addFileToPlaylist file s)) (Add file));
    [|reflexivity].
  vm_compute. repeat constructor; simpl; intuition discriminate.
Defined.

(** ** Drop zones *)

Lemma insertNth_at_end {A : Type} (n : nat) (x : A) (l : list A) :
  (List.length l <= n)%nat -> Spec.insertNth n x l = l ++ [x].
Proof.
  revert n; induction l as [|y l IH]; intros [|n] H; simpl in *;
    try reflexivity; try lia.
  f_equal. apply IH. lia.
Qed.

Lemma nth_error_insertNth_before {A : Type} (n k : nat) (x : A)
      (l : list A) :
  (k < n)%nat -> (n <= List.length l)%nat ->
  nth_error (Spec.insertNth n x l) k = nth_error l k.
Proof.
  revert n k; induction l as [|y l IH]; intros [|n] [|k] Hk Hn; simpl in *;
    try reflexivity; try lia.
  apply IH; lia.
Qed.

Lemma nth_error_removeNth_after {A : Type} (n k : nat) (l : list A) :
  (n <= k)%nat -> nth_error (Spec.removeNth n l) k = nth_error l (S k).
Proof.
  revert n k; induction l as [|y l IH]; intros n k H.
  - destruct n, k; reflexivity.
  - destruct n as [|n]; [reflexivity|].
    destruct k as [|k]; [lia|]. simpl. apply IH. lia.
Qed.

(** X11: for an item inside the list and any drop index, [handleDrop]
    rearranges the same items: the new list is a permutation of the old
    one, of the same length.  Dropped on the zone after the last item,
    or on the last item's own zone, the item goes to the end.  Dropped
    on the zone above a later item, it lands after that item, which
    moves up by one. *)
Theorem handleDrop_rearranges (s : State) (dragIndex dropIndex : nat)
        (x : TrackRef) :
  nth_error (playlistItems s) dragIndex = Some x ->
  exists s',
    handleDrop dragIndex dropIndex s = Some s'
    /\ Permutation (playlistItems s') (playlistItems s)
    /\ List.length (playlistItems s') = List.length (playlistItems s)
    /\ (dragIndex <> dropIndex ->
        (List.length (playlistItems s) <= S dropIndex)%nat ->
        playlistItems s'
        = Spec.removeNth dragIndex (playlistItems s) ++ [x])
    /\ ((dragIndex < dropIndex)%nat ->
        (dropIndex < List.length (playlistItems s))%nat ->
        nth_error (playlistItems s') dropIndex = Some x
        /\ nth_error (playlistItems s') (dropIndex - 1)
           = nth_error (playlistItems s) dropIndex).
Proof.
  intros Hx.
  assert (Hi : (dragIndex < List.length (playlistItems s))%nat)
    by (apply nth_error_Some; congruence).
  pose proof (@length_removeNth _ dragIndex (playlistItems s) Hi) as Hlen.
  destruct (handleDrop dragIndex dropIndex s) as [s'|] eqn:E.
  2:{ unfold handleDrop in E. rewrite Hx in E.
      destruct (Nat.eqb dragIndex dropIndex); discriminate. }
  exists s'. split; [reflexivity|].
  pose proof (handleDrop_Permutation _ _ _ _ E) as Hperm.
  split; [exact Hperm|]. split; [now apply Permutation_length|].
  unfold handleDrop in E. rewrite Hx in E.
  destruct (Nat.eqb dragIndex dropIndex) eqn:Eq.
  - apply Nat.eqb_eq in Eq. split; intros; lia.
  - injection E as <-. cbn [playlistItems setPlaylistItems].
    rewrite splice_remove, splice_insert. split.
    + intros _ Hend. apply insertNth_at_end. lia.
    + intros Hlt Hin. split.
      * apply nth_error_insertNth. lia.
      * rewrite nth_error_insertNth_before by lia.
        rewrite nth_error_removeNth_after by lia.
        f_equal. lia.
Qed.

Lemma handleDrop_rearranges_witness :
  let A := {| path := js "a"; filename := js "a" |} in
  let B := {| path := js "b"; filename := js "b" |} in
  let C := {| path := js "c"; filename := js "c" |} in
  let D := {| path := js "d"; filename := js "d" |} in
  exists s',
    handleDrop 0 4 (setPlaylistItems [A; B; C; D] (initialState [])) = Some s'
    /\ playlistItems s' = [B; C; D; A].
Proof.
  intros A B C D.
  destruct (handleDrop_rearranges
              (setPlaylistItems [A; B; C; D] (initialState [])) 0 4 A eq_refl)
    as (s' & H1 & _ & _ & H2 & _).
  exists s'. split; [exact H1|]. apply H2; simpl; lia.
Defined.

(** ** Adding, then removing; removing one row *)

(** X12: the button shown for a file follows the edits: after an
    addition with a playlist selected the file counts as in the playlist,
    after a removal it does not; and removing a file just added, whose
    path was not in the list, gives the list back as it was. *)
Theorem add_then_remove (file : GoogleDriveFile.t) (s : State) :
  isInPlaylist file (removeFileFromPlaylist file s) = false
  /\ (selectedPlaylist s <> None ->
      isInPlaylist file (fst (addFileToPlaylist file s)) = true)
  /\ (isInPlaylist file s = false ->
      playlistItems
        (removeFileFromPlaylist file (fst (addFileToPlaylist file s)))
      = playlistItems s).
Proof.
  unfold isInPlaylist, removeFileFromPlaylist, addFileToPlaylist.
  set (p := buildPathForFile file (selectedDirectory s)).
  split; [|split].
  - cbn [playlistItems setPlaylistItems].
    change (selectedDirectory (setPlaylistItems _ s))
      with (selectedDirectory s). fold p.
    apply hasPath_false. intros it Hin.
    now apply filter_In in Hin as [_ H%negb_true_iff%jseqb_neq].
  - intros Hsel. destruct (selectedPlaylist s); [|congruence].
    destruct (hasPath p (playlistItems s)) eqn:Hp; cbn [fst].
    + fold p. exact Hp.
    + cbn [playlistItems setPlaylistItems].
      change (selectedDirectory (setPlaylistItems _ s))
        with (selectedDirectory s). fold p.
      rewrite hasPath_app, Hp. cbn [hasPath existsb path].
      now rewrite jseqb_refl.
  - intros Hp. destruct (selectedPlaylist s); cbn [fst].
    + rewrite Hp. cbn [fst playlistItems setPlaylistItems].
      change (selectedDirectory (setPlaylistItems _ s))
        with (selectedDirectory s). fold p.
      rewrite filter_app. cbn [filter path]. rewrite jseqb_refl. cbn [negb].
      rewrite app_nil_r. apply filter_keeps_all.
      intros it Hin. rewrite hasPath_false in Hp.
      now apply negb_true_iff, jseqb_neq, Hp.
    + fold p. apply filter_keeps_all.
      intros it Hin. rewrite hasPath_false in Hp.
      now apply negb_true_iff, jseqb_neq, Hp.
Qed.

Lemma add_then_remove_witness :
  let file := {| GoogleDriveFile.id := js "1";
                 GoogleDriveFile.name := js "c.mp3" |} in
  let s := Load {| GoogleDriveFile.id := js "7";
                   GoogleDriveFile.name := js "show.m3u8" |}
                (js "Container=<n>T:\a.mp3|T:\b.mp3") (initialState []) in
  isInPlaylist file (fst (addFileToPlaylist file s)) = true
  /\ playlistItems
       (removeFileFromPlaylist file (fst (addFileToPlaylist file s)))
     = playlistItems s.
Proof.
  intros file s.
  destruct (add_then_remove file s) as (_ & H1 & H2).
  split; [apply H1; discriminate|apply H2; reflexivity].
Defined.

(** X13: the button on a playlist row removes that row only: inside the
    list the length drops by one, the rows before keep their place and
    the rows after move up by one, so a second row with the same path
    stays; outside the list nothing changes. *)
Theorem removeItemAt_removes_one_row (index : nat) (s : State) :
  let l := playlistItems s in
  let l' := playlistItems (removeItemAt index s) in
  ((index < List.length l)%nat ->
   S (List.length l') = List.length l
   /\ (forall k, (k < index)%nat -> nth_error l' k = nth_error l k)
   /\ (forall k, (index <= k)%nat -> nth_error l' k = nth_error l (S k)))
  /\ ((List.length l <= index)%nat -> l' = l)
  /\ containerName (removeItemAt index s) = containerName s
  /\ originalContent (removeItemAt index s) = originalContent s.
Proof.
  intros l l'. subst l l'. cbn [playlistItems removeItemAt setPlaylistItems].
  rewrite filterIndexNot_removeNth.
  split; [|split; [|split; reflexivity]].
  - intros H. split; [now apply length_removeNth|]. split.
    + intros k Hk. revert index k H Hk.
      induction (playlistItems s) as [|x l IH]; intros [|n] [|k] H Hk;
        simpl in *; try reflexivity; try lia.
      apply IH; lia.
    + intros k Hk. now apply nth_error_removeNth_after.
  - intros H. revert index H.
    induction (playlistItems s) as [|x l IH]; intros [|n] H; simpl in *;
      try reflexivity; try lia.
    f_equal. apply IH. lia.
Qed.

Lemma removeItemAt_removes_one_row_witness :
  let s := Load {| GoogleDriveFile.id := js "7";
                   GoogleDriveFile.name := js "show.m3u8" |}
                (js "Container=<n>T:\a.mp3|T:\b.mp3|T:\a.mp3")
                (initialState []) in
  S (List.length (playlistItems (removeItemAt 0 s)))
  = List.length (playlistItems s)
  /\ nth_error (playlistItems (removeItemAt 0 s)) 1
     = nth_error (playlistItems s) 2.
Proof.
  intros s.
  destruct (removeItemAt_removes_one_row 0 s) as (H & _).
  destruct H as (Hlen & _ & Hafter); [simpl; lia|].
  split; [exact Hlen|]. apply Hafter. lia.
Defined.

(** ** Resolved paths *)

Lemma GetSubstitution_plain (matched before after template : jsstring) :
  ~ In DOLLAR template ->
  GetSubstitution matched before after template = template.
Proof.
  induction template as [|c t IH]; intros H; [reflexivity|].
  cbn [GetSubstitution].
  rewrite (proj2 (N.eqb_neq c DOLLAR)) by (intros ->; apply H; now left).
  f_equal. apply IH. intros Hin. apply H. now right.
Qed.

Lemma indexOf_spec (p s before after : jsstring) :
  indexOf p s = Some (before, after) -> s = before ++ p ++ after.
Proof.
  revert before; induction s as [|c s IH]; intros before; cbn [indexOf].
  - destruct (stripPrefix p []) as [r|] eqn:E; [|discriminate].
    intros [= <- <-]. now apply stripPrefix_spec in E.
  - destruct (stripPrefix p (c :: s)) as [r|] eqn:E.
    + intros [= <- <-]. now apply stripPrefix_spec in E.
    + destruct (indexOf p s) as [[b a]|]; [|discriminate].
      intros [= <- <-]. simpl. f_equal. now apply IH.
Qed.

(** X14: with a directory selected whose template holds the token, the
    path of a file whose name has no dollar sign is the template with
    its first token replaced by the name, so two such files with
    different names get different paths.  A template without the token
    gives every file the same path, the template itself.  A dollar sign
    in the name is read as a replacement pattern: two dollars give the
    path of one. *)
Theorem buildPathForFile_with_template
        (d : AudioDirectory.t) (before after : jsstring) :
  (indexOf (js "{audio_filename}") (AudioDirectory.localPath d)
   = Some (before, after) ->
   AudioDirectory.localPath d = before ++ js "{audio_filename}" ++ after
   /\ (forall file,
          ~ In DOLLAR (GoogleDriveFile.name file) ->
          buildPathForFile file (Some d)
          = before ++ GoogleDriveFile.name file ++ after)
   /\ (forall file1 file2,
          ~ In DOLLAR (GoogleDriveFile.name file1) ->
          ~ In DOLLAR (GoogleDriveFile.name file2) ->
          buildPathForFile file1 (Some d) = buildPathForFile file2 (Some d) ->
          GoogleDriveFile.name file1 = GoogleDriveFile.name file2)
   /\ buildPathForFile {| GoogleDriveFile.id := []; GoogleDriveFile.name := js "a$$b" |} (Some d)
      = buildPathForFile {| GoogleDriveFile.id := []; GoogleDriveFile.name := js "a$b" |} (Some d))
  /\ (indexOf (js "{audio_filename}") (AudioDirectory.localPath d) = None ->
      forall file,
        buildPathForFile file (Some d) = AudioDirectory.localPath d).
Proof.
  split.
  - intros H.
    assert (Hplain : forall file,
               ~ In DOLLAR (GoogleDriveFile.name file) ->
               buildPathForFile file (Some d)
               = before ++ GoogleDriveFile.name file ++ after).
    { intros file Hd. unfold buildPathForFile, replace. rewrite H.
      now rewrite GetSubstitution_plain. }
    split; [now apply indexOf_spec|]. split; [exact Hplain|]. split.
    + intros f1 f2 H1 H2. rewrite (Hplain f1 H1), (Hplain f2 H2).
      intros E. apply app_inv_head in E. now apply app_inv_tail in E.
    + unfold buildPathForFile, replace. rewrite H. reflexivity.
  - intros H file. unfold buildPathForFile, replace. now rewrite H.
Qed.

Lemma buildPathForFile_with_template_witness :
  buildPathForFile
    {| GoogleDriveFile.id := js "1"; GoogleDriveFile.name := js "Station ID 1.wav" |}
    (Some {| AudioDirectory.name := js "IDs-";
             AudioDirectory.driveId := js "1cy56CgC1KtxCgZI-kGOEWTTNuC5rjzh_";
             AudioDirectory.localPath :=
               js "T:\REGFM RadioBOSS\IDs\{audio_filename}" |})
  = js "T:\REGFM RadioBOSS\IDs\Station ID 1.wav".
Proof.
  destruct (buildPathForFile_with_template
              {| AudioDirectory.name := js "IDs-";
                 AudioDirectory.driveId := js "1cy56CgC1KtxCgZI-kGOEWTTNuC5rjzh_";
                 AudioDirectory.localPath :=
                   js "T:\REGFM RadioBOSS\IDs\{audio_filename}" |}
              (js "T:\REGFM RadioBOSS\IDs\") []) as [H _].
  destruct (H eq_refl) as (_ & Hp & _).
  rewrite Hp; [reflexivity|].
  vm_compute. intuition discriminate.
Defined.

(** ** Suffixes and substrings *)

Lemma startsWith_spec (s p : jsstring) :
  startsWith s p = true <-> exists r, s = p ++ r.
Proof.
  revert s; induction p as [|x p IH]; intros s.
  - split; [intros _; now exists s|now destruct s].
  - destruct s as [|y s]; cbn [startsWith].
    + split; [discriminate|]. intros [r H]. discriminate.
    + rewrite andb_true_iff, N.eqb_eq, IH. split.
      * intros [-> [r ->]]. now exists r.
      * intros [r H]. injection H as -> ->. split; [reflexivity|now exists r].
Qed.

Lemma endsWith_spec (s p : jsstring) :
  endsWith s p = true <-> exists a, s = a ++ p.
Proof.
  unfold endsWith. rewrite startsWith_spec. split.
  - intros [r H]. exists (rev r).
    rewrite <- (rev_involutive s), H, rev_app_distr.
    now rewrite rev_involutive.
  - intros [a ->]. exists (rev a). now rewrite rev_app_distr.
Qed.

Lemma includes_app (a p r : jsstring) : includes (a ++ p ++ r) p = true.
Proof.
  induction a as [|x a IH].
  - destruct (p ++ r) as [|c t] eqn:E; cbn [app includes].
    + destruct p; [reflexivity|discriminate].
    + rewrite <- E.
      replace (startsWith (p ++ r) p) with true; [reflexivity|].
      symmetry. apply startsWith_spec. now exists r.
  - cbn [app includes]. rewrite IH. now rewrite orb_true_r.
Qed.

Lemma includes_spec (s p : jsstring) :
  includes s p = true <-> exists a r, s = a ++ p ++ r.
Proof.
  split.
  - induction s as [|c s IH]; cbn [includes]; intros H.
    + rewrite orb_false_r in H. apply startsWith_spec in H as [r ->].
      now exists [], r.
    + apply orb_true_iff in H as [H|H].
      * apply startsWith_spec in H as [r ->]. now exists [], r.
      * destruct (IH H) as (a & r & ->). now exists (c :: a), r.
  - intros (a & r & ->). apply includes_app.
Qed.

Lemma stripPrefix_startsWith (p s : jsstring) :
  startsWith s p = false -> stripPrefix p s = None.
Proof.
  revert s; induction p as [|x p IH]; intros [|y s]; cbn [startsWith stripPrefix];
    try discriminate; try reflexivity.
  destruct (x =? y); cbn [andb]; [apply IH|reflexivity].
Qed.

(** ** Creating a playlist *)

Lemma stripM3u8_suffix (n : jsstring) : stripM3u8 (n ++ js ".m3u8") = n.
Proof.
  induction n as [|c n IH]; [reflexivity|].
  cbn [app stripM3u8].
  destruct (jseqb (map lowerASCII (c :: n ++ js ".m3u8")) (js ".m3u8")) eqn:E.
  - apply jseqb_eq in E. apply (f_equal (@List.length N)) in E.
    rewrite length_map in E. cbn [List.length] in E.
    rewrite length_app in E. cbn in E. lia.
  - now rewrite IH.
Qed.

Lemma trim_white (s : jsstring) :
  forallb isWhiteSpace s = true -> trim s = [].
Proof.
  intros H. unfold trim.
  assert (E : trimStart s = []).
  { induction s as [|c s IH]; [reflexivity|].
    cbn [forallb] in H. apply andb_true_iff in H as [Hc Hs].
    cbn [trimStart]. rewrite Hc. now apply IH. }
  now rewrite E.
Qed.

Lemma fileNameOf_endsWith (n : jsstring) :
  endsWith (PlaylistOperations.fileNameOf n) (js ".m3u8") = true.
Proof.
  unfold PlaylistOperations.fileNameOf.
  destruct (endsWith n (js ".m3u8")) eqn:E; [exact E|].
  apply endsWith_spec. now exists n.
Qed.

(** X15: the file created by [createNewPlaylist].  Its name always ends
    with [.m3u8]; a name typed with the extension is used as it is, and
    one typed without it is shown again, extension removed, both in the
    list of playlists and in the toast of a save.  The request is only
    ever made for a name with the extension, and the new file's text
    reads back as the empty playlist. *)
Theorem createNewPlaylist_file_name :
  (forall n, endsWith (PlaylistOperations.fileNameOf n) (js ".m3u8") = true)
  /\ (forall n, endsWith n (js ".m3u8") = true ->
                PlaylistOperations.fileNameOf n = n)
  /\ (forall n, endsWith n (js ".m3u8") = false ->
                removeFileExtension (PlaylistOperations.fileNameOf n) = n
                /\ stripM3u8 (PlaylistOperations.fileNameOf n) = n)
  /\ (forall upload1 upload2 s,
         (forall f, endsWith f (js ".m3u8") = true -> upload1 f = upload2 f) ->
         PlaylistOperations.createNewPlaylist upload1 s
         = PlaylistOperations.createNewPlaylist upload2 s)
  /\ decode PlaylistOperations.initialContent
     = Ok {| name := []; items := [] |}.
Proof.
  split; [exact fileNameOf_endsWith|].
  split; [intros n H; unfold PlaylistOperations.fileNameOf; now rewrite H|].
  split.
  - intros n H. unfold PlaylistOperations.fileNameOf. rewrite H. split.
    + change (js ".m3u8") with (DOT :: js "m3u8").
      apply removeFileExtension_strips; vm_compute; intuition discriminate.
    + apply stripM3u8_suffix.
  - split; [|reflexivity].
    intros upload1 upload2 s H. unfold PlaylistOperations.createNewPlaylist.
    now rewrite (H _ (fileNameOf_endsWith _)).
Qed.

Lemma createNewPlaylist_file_name_witness :
  removeFileExtension (PlaylistOperations.fileNameOf (js "Morning Show"))
  = js "Morning Show"
  /\ PlaylistOperations.fileNameOf (js "Morning Show.m3u8")
     = js "Morning Show.m3u8".
Proof.
  destruct createNewPlaylist_file_name as (_ & H2 & H3 & _).
  split.
  - apply (proj1 (H3 (js "Morning Show") eq_refl)).
  - apply (H2 (js "Morning Show.m3u8") eq_refl).
Defined.

(** X16: how [createNewPlaylist] ends.  A name of white space only makes
    no request and changes nothing.  Otherwise the creating flag is off
    again at the end; the callback runs exactly when the response is ok,
    and then the dialog is closed and the field emptied; on any other
    outcome the dialog and the typed name stay and an error is shown. *)
Theorem createNewPlaylist_outcomes
        (upload : jsstring -> PlaylistOperations.UploadResult)
        (s : PlaylistOperations.State) :
  let r := PlaylistOperations.createNewPlaylist upload s in
  (forallb isWhiteSpace (PlaylistOperations.newPlaylistName s) = true ->
   r = (s, []))
  /\ (trim (PlaylistOperations.newPlaylistName s) <> [] ->
      PlaylistOperations.isCreating (fst r) = false
      /\ (snd r = [PlaylistOperations.OnPlaylistCreated]
          <-> upload (PlaylistOperations.fileNameOf
                        (PlaylistOperations.newPlaylistName s))
              = PlaylistOperations.Responded true)
      /\ (snd r = [PlaylistOperations.OnPlaylistCreated] ->
          PlaylistOperations.isCreateOpen (fst r) = false
          /\ PlaylistOperations.newPlaylistName (fst r) = []
          /\ PlaylistOperations.error (fst r) = None)
      /\ (snd r = [] ->
          PlaylistOperations.isCreateOpen (fst r)
          = PlaylistOperations.isCreateOpen s
          /\ PlaylistOperations.newPlaylistName (fst r)
             = PlaylistOperations.newPlaylistName s
          /\ PlaylistOperations.error (fst r) <> None)).
Proof.
  cbv zeta. unfold PlaylistOperations.createNewPlaylist. split.
  - intros H. now rewrite (trim_white _ H).
  - intros H.
    destruct (trim (PlaylistOperations.newPlaylistName s)) as [|c t] eqn:E;
      [contradiction|]. cbn [truthy negb].
    destruct (upload _) as [[|]|]; cbn [fst snd PlaylistOperations.isCreating
      PlaylistOperations.isCreateOpen PlaylistOperations.newPlaylistName
      PlaylistOperations.error];
      repeat split; try discriminate; try reflexivity; intros; discriminate.
Qed.

Lemma createNewPlaylist_outcomes_witness :
  PlaylistOperations.createNewPlaylist
    (fun _ => PlaylistOperations.Responded true)
    {| PlaylistOperations.isCreateOpen := true;
       PlaylistOperations.newPlaylistName := [32; 9; 160];
       PlaylistOperations.isCreating := false;
       PlaylistOperations.error := None |}
  = ({| PlaylistOperations.isCreateOpen := true;
        PlaylistOperations.newPlaylistName := [32; 9; 160];
        PlaylistOperations.isCreating := false;
        PlaylistOperations.error := None |}, [])
  /\ PlaylistOperations.newPlaylistName
       (fst (PlaylistOperations.createNewPlaylist
               (fun _ => PlaylistOperations.Responded false)
               {| PlaylistOperations.isCreateOpen := true;
                  PlaylistOperations.newPlaylistName := js "Drive time";
                  PlaylistOperations.isCreating := false;
                  PlaylistOperations.error := None |}))
     = js "Drive time".
Proof.
  split.
  - apply (proj1 (createNewPlaylist_outcomes _ _)). reflexivity.
  - apply (proj2 (createNewPlaylist_outcomes
                    (fun _ => PlaylistOperations.Responded false)
                    {| PlaylistOperations.isCreateOpen := true;
                       PlaylistOperations.newPlaylistName := js "Drive time";
                       PlaylistOperations.isCreating := false;
                       PlaylistOperations.error := None |}));
      [vm_compute; discriminate|reflexivity].
Defined.

(** ** The list of playlists *)


(** ** The folder configuration *)

Lemma arrayIndexOf_first (x : jsstring) (pre l : list jsstring) :
  ~ In x pre -> arrayIndexOf x (pre ++ x :: l) = Some (List.length pre).
Proof.
  induction pre as [|y pre IH]; intros H; cbn [app arrayIndexOf List.length].
  - now rewrite jseqb_refl.
  - replace (jseqb y x) with false.
    + rewrite IH; [reflexivity|]. intros Hin. apply H. now right.
    + symmetry. apply jseqb_neq. intros ->. apply H. now left.
Qed.

Lemma arrayIndexOf_earlier (x : jsstring) (pre l : list jsstring) :
  In x pre ->
  exists i, arrayIndexOf x (pre ++ l) = Some i /\ (i < List.length pre)%nat.
Proof.
  induction pre as [|y pre IH]; intros H; [destruct H|].
  cbn [app arrayIndexOf List.length].
  destruct (jseqb y x) eqn:E.
  - exists O. split; [reflexivity|lia].
  - apply jseqb_neq in E. destruct H as [->|H]; [contradiction|].
    destruct (IH H) as (i & -> & Hi). exists (S i). split; [reflexivity|lia].
Qed.

Lemma notFirstOccurrence_here (x : jsstring) (pre l : list jsstring) :
  FolderConfig.notFirstOccurrence (pre ++ x :: l) x (List.length pre) = false
  <-> ~ In x pre.
Proof.
  unfold FolderConfig.notFirstOccurrence. split.
  - intros H Hin.
    destruct (arrayIndexOf_earlier x pre (x :: l) Hin) as (i & E & Hi).
    rewrite E in H. apply negb_false_iff, Nat.eqb_eq in H. lia.
  - intros H. rewrite (arrayIndexOf_first x pre l H).
    now rewrite Nat.eqb_refl.
Qed.

Lemma duplicateNames_nil (pre l : list jsstring) :
  filterWithIndex (FolderConfig.notFirstOccurrence (pre ++ l))
                  (List.length pre) l = []
  <-> (forall x, In x l -> ~ In x pre) /\ NoDup l.
Proof.
  revert pre; induction l as [|x l IH]; intros pre.
  - cbn [filterWithIndex]. split; [|reflexivity].
    intros _. split; [intros x []|constructor].
  - cbn [filterWithIndex].
    assert (IH' := IH (pre ++ [x])).
    rewrite <- app_assoc, length_app in IH'. cbn [app List.length] in IH'.
    rewrite Nat.add_1_r in IH'.
    destruct (FolderConfig.notFirstOccurrence (pre ++ x :: l) x (List.length pre))
      eqn:E.
    + split; [discriminate|]. intros [H _].
      assert (Hx : ~ In x pre) by (apply H; now left).
      apply (proj2 (notFirstOccurrence_here x pre l)) in Hx. congruence.
    + apply (proj1 (notFirstOccurrence_here x pre l)) in E. rewrite IH'. split.
      * intros [H Hnd]. split.
        -- intros y [<-|Hy]; [exact E|].
           intros Hin. apply (H y Hy). apply in_or_app. now left.
        -- constructor; [|exact Hnd].
           intros Hin. apply (H x Hin). apply in_or_app. right. now left.
      * intros [H Hnd]. inversion Hnd as [|? ? Hx Hnd']; subst. split; [|exact Hnd'].
        intros y Hy Hin. apply in_app_or in Hin as [Hin|[<-|[]]].
        -- apply (H y); [now right|exact Hin].
        -- contradiction.
Qed.

Lemma filter_nil_iff (A : Type) (f : A -> bool) (l : list A) :
  filter f l = [] <-> forall x, In x l -> f x = false.
Proof.
  induction l as [|y l IH]; cbn [filter].
  - split; [intros _ x []|reflexivity].
  - destruct (f y) eqn:E.
    + split; [discriminate|]. intros H. rewrite (H y) in E; [discriminate|now left].
    + rewrite IH. split.
      * intros H x [<-|Hx]; auto.
      * intros H x Hx. apply H. now right.
Qed.

(** X18: [validateConfig] accepts a configuration exactly when the
    playlist folder ID is set, every directory has a drive ID and no two
    directories share a name; it reports at most one error of each of
    the three kinds.  A configuration it accepts is reported by
    [getConfigInfo] as fully configured, and the configuration shipped
    in the file is accepted. *)
Theorem validateConfig_accepts
        (folderId : jsstring) (directories : list AudioDirectory.t) :
  (FolderConfig.isValid (FolderConfig.validateConfigOf folderId directories)
   = true
   <-> folderId <> []
       /\ (forall d, In d directories -> AudioDirectory.driveId d <> [])
       /\ NoDup (map AudioDirectory.name directories))
  /\ (FolderConfig.isValid (FolderConfig.validateConfigOf folderId directories)
      = true
      <-> FolderConfig.errors (FolderConfig.validateConfigOf folderId directories)
          = [])
  /\ (List.length
        (FolderConfig.errors (FolderConfig.validateConfigOf folderId directories))
      <= 3)%nat
  /\ (FolderConfig.isValid (FolderConfig.validateConfigOf folderId directories)
      = true ->
      FolderConfig.configuredDirectories
        (FolderConfig.getConfigInfoOf folderId directories)
      = FolderConfig.totalDirectories
          (FolderConfig.getConfigInfoOf folderId directories)
      /\ FolderConfig.playlistFolderConfigured
           (FolderConfig.getConfigInfoOf folderId directories) = true)
  /\ FolderConfig.validateConfig
     = {| FolderConfig.isValid := true; FolderConfig.errors := [] |}.
Proof.
  assert (Hdup := duplicateNames_nil [] (map AudioDirectory.name directories)).
  cbn [app List.length] in Hdup.
  assert (Hun := filter_nil_iff _
                   (fun d => negb (truthy (AudioDirectory.driveId d)))
                   directories).
  assert (Main :
    FolderConfig.isValid (FolderConfig.validateConfigOf folderId directories)
    = true
    <-> folderId <> []
        /\ (forall d, In d directories -> AudioDirectory.driveId d <> [])
        /\ NoDup (map AudioDirectory.name directories)).
  { unfold FolderConfig.validateConfigOf. cbv zeta.
    cbn [FolderConfig.isValid].
    destruct (filter (fun d => negb (truthy (AudioDirectory.driveId d)))
                     directories) as [|u us] eqn:Eu;
      destruct (filterWithIndex
                  (FolderConfig.notFirstOccurrence
                     (map AudioDirectory.name directories)) 0
                  (map AudioDirectory.name directories)) as [|n ns] eqn:En;
      destruct folderId as [|c t]; cbn [truthy List.length Nat.ltb Nat.leb app Nat.eqb];
      rewrite ?length_app; cbn [List.length Nat.add Nat.eqb];
      (split; [try discriminate; intros _|
               intros (Hf & Hd & Hn); try contradiction]).
    - split; [discriminate|]. split.
      + intros d Hd E. apply (proj1 Hun eq_refl) in Hd.
        rewrite E in Hd. discriminate.
      + now apply Hdup.
    - reflexivity.
    - exfalso. assert (E : n :: ns = []) by (apply Hdup; split; [intros x _ []|exact Hn]).
      discriminate.
    - exfalso.
      assert (E : u :: us = []).
      { apply Hun. intros d Hin. specialize (Hd d Hin).
        destruct (AudioDirectory.driveId d); [contradiction|reflexivity]. }
      discriminate.
    - exfalso.
      assert (E : u :: us = []).
      { apply Hun. intros d Hin. specialize (Hd d Hin).
        destruct (AudioDirectory.driveId d); [contradiction|reflexivity]. }
      discriminate. }
  split; [exact Main|]. split; [|split; [|split]].
  - unfold FolderConfig.validateConfigOf. cbv zeta.
    cbn [FolderConfig.isValid FolderConfig.errors].
    rewrite Nat.eqb_eq. apply length_zero_iff_nil.
  - unfold FolderConfig.validateConfigOf. cbv zeta. cbn [FolderConfig.errors].
    destruct (Nat.ltb 0 _); destruct (Nat.ltb 0 _); destruct (truthy folderId);
      rewrite ?length_app; cbn [List.length Nat.add]; lia.
  - intros H. apply Main in H as (Hf & Hd & _).
    unfold FolderConfig.getConfigInfoOf.
    cbn [FolderConfig.configuredDirectories FolderConfig.totalDirectories
         FolderConfig.playlistFolderConfigured].
    split; [|destruct folderId; [contradiction|reflexivity]].
    f_equal. apply filter_keeps_all.
    intros d Hin. specialize (Hd d Hin).
    destruct (AudioDirectory.driveId d); [contradiction|reflexivity].
  - reflexivity.
Qed.

Lemma validateConfig_accepts_witness :
  FolderConfig.configuredDirectories FolderConfig.getConfigInfo = 4%nat.
Proof.
  destruct (validateConfig_accepts FolderConfig.PLAYLIST_FOLDER_ID
              FolderConfig.DEFAULT_AUDIO_DIRECTORIES) as (_ & _ & _ & H & _).
  unfold FolderConfig.getConfigInfo.
  rewrite (proj1 (H eq_refl)). reflexivity.
Defined.

(** ** Folder IDs typed as links *)

Lemma startsWith_app_short (a b p : jsstring) :
  startsWith (a ++ b) p = true -> (List.length p <= List.length a)%nat ->
  startsWith a p = true.
Proof.
  revert a; induction p as [|x p IH]; intros a H Hl.
  - now destruct a.
  - destruct a as [|y a]; cbn [List.length] in Hl; [lia|].
    cbn [app startsWith] in *. apply andb_true_iff in H as [H1 H2].
    rewrite H1. cbn [andb]. apply IH; [exact H2|lia].
Qed.

Lemma foldersMatchHere_spec (s id : jsstring) :
  DirectoryConfig.foldersMatchHere s = Some id ->
  id <> [] /\ Forall (fun c => DirectoryConfig.isIdChar c = true) id
  /\ exists r, s = js "folders/" ++ id ++ r.
Proof.
  unfold DirectoryConfig.foldersMatchHere.
  destruct (stripPrefix (js "folders/") s) as [r|] eqn:E; [|discriminate].
  apply stripPrefix_spec in E.
  destruct (span DirectoryConfig.isIdChar r) as [[|c a] b] eqn:Es; [discriminate|].
  intros H. injection H as <-.
  apply span_spec in Es as (Hr & Ha & _).
  split; [discriminate|]. split; [exact Ha|].
  exists b. now rewrite E, Hr.
Qed.

Lemma foldersMatch_eq (url : jsstring) :
  DirectoryConfig.foldersMatch url
  = match DirectoryConfig.foldersMatchHere url with
    | Some id => Some id
    | None =>
        match url with
        | [] => None
        | _ :: t => DirectoryConfig.foldersMatch t
        end
    end.
Proof. now destruct url. Qed.

Lemma foldersMatch_spec (url id : jsstring) :
  DirectoryConfig.foldersMatch url = Some id ->
  id <> [] /\ Forall (fun c => DirectoryConfig.isIdChar c = true) id
  /\ exists a r, url = a ++ js "folders/" ++ id ++ r.
Proof.
  induction url as [|c url IH]; rewrite foldersMatch_eq.
  - destruct (DirectoryConfig.foldersMatchHere []) eqn:E; [|discriminate].
    intros H. injection H as <-.
    apply foldersMatchHere_spec in E as (H1 & H2 & r & H3).
    split; [exact H1|]. split; [exact H2|]. now exists [], r.
  - destruct (DirectoryConfig.foldersMatchHere (c :: url)) eqn:E.
    + intros H. injection H as <-.
      apply foldersMatchHere_spec in E as (H1 & H2 & r & H3).
      split; [exact H1|]. split; [exact H2|]. now exists [], r.
    + intros H. destruct (IH H) as (H1 & H2 & a & r & ->).
      split; [exact H1|]. split; [exact H2|]. now exists (c :: a), r.
Qed.

Lemma foldersMatch_without_pattern (url : jsstring) :
  includes url (js "folders/") = false -> DirectoryConfig.foldersMatch url = None.
Proof.
  induction url as [|c url IH]; rewrite foldersMatch_eq; cbn [includes];
    intros H; apply orb_false_iff in H as [H1 H2];
    unfold DirectoryConfig.foldersMatchHere;
    rewrite (stripPrefix_startsWith _ _ H1); [reflexivity|now apply IH].
Qed.

Lemma includes_idChars (id : jsstring) :
  Forall (fun c => DirectoryConfig.isIdChar c = true) id ->
  includes id (js "folders/") = false.
Proof.
  intros H. destruct (includes id (js "folders/")) eqn:E; [|reflexivity].
  apply includes_spec in E as (a & r & ->).
  rewrite Forall_forall in H.
  assert (Hs : DirectoryConfig.isIdChar SLASH = true).
  { apply H. apply in_or_app. right. apply in_or_app. left.
    vm_compute. tauto. }
  discriminate.
Qed.

Lemma foldersMatch_found (pre id rest : jsstring) :
  includes (pre ++ js "folders") (js "folders/") = false ->
  id <> [] -> Forall (fun c => DirectoryConfig.isIdChar c = true) id ->
  match rest with
  | [] => True
  | c :: _ => DirectoryConfig.isIdChar c = false
  end ->
  DirectoryConfig.foldersMatch (pre ++ js "folders/" ++ id ++ rest) = Some id.
Proof.
  intros Hpre Hne Hid Hrest.
  assert (Hhere : DirectoryConfig.foldersMatchHere (js "folders/" ++ id ++ rest)
                  = Some id).
  { unfold DirectoryConfig.foldersMatchHere. rewrite stripPrefix_app.
    assert (Es : span DirectoryConfig.isIdChar (id ++ rest) = (id, rest)).
    { destruct rest as [|c rest].
      - rewrite app_nil_r. now apply span_all.
      - now apply span_app. }
    rewrite Es. destruct id; [contradiction|reflexivity]. }
  induction pre as [|x pre IH].
  - cbn [app]. rewrite foldersMatch_eq. now rewrite Hhere.
  - cbn [app includes] in Hpre. apply orb_false_iff in Hpre as [H1 H2].
    cbn [app]. rewrite foldersMatch_eq.
    assert (Hno : DirectoryConfig.foldersMatchHere
                    (x :: pre ++ js "folders/" ++ id ++ rest) = None).
    { unfold DirectoryConfig.foldersMatchHere.
      rewrite stripPrefix_startsWith; [reflexivity|].
      destruct (startsWith (x :: pre ++ js "folders/" ++ id ++ rest)
                           (js "folders/")) eqn:E; [|reflexivity].
      exfalso.
      assert (Es : x :: pre ++ js "folders/" ++ id ++ rest
                   = (x :: pre ++ js "folders") ++ [SLASH] ++ id ++ rest).
      { cbn [app]. f_equal. rewrite <- app_assoc. reflexivity. }
      rewrite Es in E. apply startsWith_app_short in E.
      - congruence.
      - cbn [List.length]. rewrite length_app. cbn. lia. }
    rewrite Hno. now apply IH.
Qed.

(** X19: [extractFolderIdFromUrl].  Applying it twice is the same as
    applying it once.  The result is either the text itself or a
    non-empty run of ID characters that follows [folders/] in the text;
    a text without [folders/] is kept as typed, and of a link the run of
    ID characters after the first [folders/] is taken, up to the first
    other character. *)
Theorem extractFolderIdFromUrl_result (url : jsstring) :
  DirectoryConfig.extractFolderIdFromUrl
    (DirectoryConfig.extractFolderIdFromUrl url)
  = DirectoryConfig.extractFolderIdFromUrl url
  /\ (DirectoryConfig.extractFolderIdFromUrl url = url
      \/ (DirectoryConfig.extractFolderIdFromUrl url <> []
          /\ Forall (fun c => DirectoryConfig.isIdChar c = true)
                    (DirectoryConfig.extractFolderIdFromUrl url)
          /\ includes url
               (js "folders/" ++ DirectoryConfig.extractFolderIdFromUrl url)
             = true))
  /\ (includes url (js "folders/") = false ->
      DirectoryConfig.extractFolderIdFromUrl url = url)
  /\ (forall pre id rest,
         url = pre ++ js "folders/" ++ id ++ rest ->
         includes (pre ++ js "folders") (js "folders/") = false ->
         id <> [] ->
         Forall (fun c => DirectoryConfig.isIdChar c = true) id ->
         match rest with
         | [] => True
         | c :: _ => DirectoryConfig.isIdChar c = false
         end ->
         DirectoryConfig.extractFolderIdFromUrl url = id).
Proof.
  unfold DirectoryConfig.extractFolderIdFromUrl.
  split; [|split; [|split]].
  - destruct (DirectoryConfig.foldersMatch url) as [id|] eqn:E.
    + apply foldersMatch_spec in E as (_ & Hid & _).
      now rewrite (foldersMatch_without_pattern _ (includes_idChars _ Hid)).
    + now rewrite E.
  - destruct (DirectoryConfig.foldersMatch url) as [id|] eqn:E; [|now left].
    right. apply foldersMatch_spec in E as (H1 & H2 & a & r & ->).
    split; [exact H1|]. split; [exact H2|].
    rewrite (app_assoc (js "folders/") id r). apply includes_app.
  - intros H. now rewrite (foldersMatch_without_pattern _ H).
  - intros pre id rest -> Hpre Hne Hid Hrest.
    now rewrite (foldersMatch_found pre id rest Hpre Hne Hid Hrest).
Qed.

Lemma extractFolderIdFromUrl_result_witness :
  DirectoryConfig.extractFolderIdFromUrl
    (js "https://drive.google.com/drive/folders/1sPxn5mFxy7DagMtpmGGq4-K1c98BX_-b?usp=sharing")
  = js "1sPxn5mFxy7DagMtpmGGq4-K1c98BX_-b"
  /\ DirectoryConfig.extractFolderIdFromUrl
       (js "1sPxn5mFxy7DagMtpmGGq4-K1c98BX_-b")
     = js "1sPxn5mFxy7DagMtpmGGq4-K1c98BX_-b".
Proof.
  split.
  - destruct (extractFolderIdFromUrl_result
                (js "https://drive.google.com/drive/folders/1sPxn5mFxy7DagMtpmGGq4-K1c98BX_-b?usp=sharing"))
      as (_ & _ & _ & H).
    apply (H (js "https://drive.google.com/drive/")
             (js "1sPxn5mFxy7DagMtpmGGq4-K1c98BX_-b") (js "?usp=sharing"));
      try reflexivity; [discriminate|].
    repeat constructor.
  - destruct (extractFolderIdFromUrl_result
                (js "1sPxn5mFxy7DagMtpmGGq4-K1c98BX_-b")) as (_ & _ & H & _).
    apply H. reflexivity.
Defined.

(** ** The drag-and-drop hook *)

Lemma hover_fold (Item : Type) (hs : list DragDrop.Hover)
      (s : DragDrop.State Item) :
  DragDrop.dragCounter (fold_left (@DragDrop.hover Item) hs s)
  = (DragDrop.dragCounter s + balance hs)%Z
  /\ DragDrop.isDragging (fold_left (@DragDrop.hover Item) hs s)
     = DragDrop.isDragging s
  /\ DragDrop.draggedItem (fold_left (@DragDrop.hover Item) hs s)
     = DragDrop.draggedItem s.
Proof.
  revert s; induction hs as [|h hs IH]; intros s; cbn [fold_left balance].
  - split; [lia|]. split; reflexivity.
  - destruct (IH (DragDrop.hover s h)) as (H1 & H2 & H3).
    rewrite H1, H2, H3.
    destruct h; cbn [DragDrop.hover DragDrop.handleDragEnter
                     DragDrop.handleDragLeave DragDrop.dragCounter
                     DragDrop.isDragging DragDrop.draggedItem];
      (split; [lia|]); split; reflexivity.
Qed.

(** X20: the drop target of [useDragDrop] over a run of enter and leave
    events.  The counter moves by the number of targets entered less the
    number left, and the dragged item and the dragging flag do not
    change.  Entering a target makes it the drop target; leaving one
    clears the drop target exactly when it brings the counter to zero,
    and otherwise keeps the target entered last.  A drop then resets the
    hook and hands over the item the drag started with, if it is
    truthy. *)
Theorem useDragDrop_hovering (Item : Type) (s : DragDrop.State Item)
        (hs : list DragDrop.Hover) :
  let s' := fold_left (@DragDrop.hover Item) hs s in
  DragDrop.dragCounter s' = (DragDrop.dragCounter s + balance hs)%Z
  /\ DragDrop.isDragging s' = DragDrop.isDragging s
  /\ DragDrop.draggedItem s' = DragDrop.draggedItem s
  /\ (forall t, DragDrop.dropTarget (DragDrop.hover s' (DragDrop.Enter t))
                = Some t)
  /\ ((DragDrop.dragCounter s + balance hs = 1)%Z ->
      DragDrop.dropTarget (DragDrop.hover s' DragDrop.Leave) = None)
  /\ ((DragDrop.dragCounter s + balance hs <> 1)%Z ->
      DragDrop.dropTarget (DragDrop.hover s' DragDrop.Leave)
      = DragDrop.dropTarget s')
  /\ (forall truthyItem,
         DragDrop.handleDrop truthyItem s'
         = (DragDrop.initial Item,
            match DragDrop.draggedItem s with
            | Some item => if truthyItem item then Some item else None
            | None => None
            end)).
Proof.
  cbv zeta. destruct (hover_fold Item hs s) as (H1 & H2 & H3).
  split; [exact H1|]. split; [exact H2|]. split; [exact H3|].
  split; [reflexivity|].
  cbn [DragDrop.hover DragDrop.handleDragLeave DragDrop.dropTarget].
  rewrite H1. split; [|split].
  - intros H. replace (DragDrop.dragCounter s + balance hs - 1)%Z with 0%Z by lia.
    reflexivity.
  - intros H.
    destruct (Z.eqb_spec (DragDrop.dragCounter s + balance hs - 1) 0);
      [lia|reflexivity].
  - intros truthyItem. unfold DragDrop.handleDrop, DragDrop.handleDragEnd.
    now rewrite H3.
Qed.

Lemma useDragDrop_hovering_witness :
  DragDrop.dropTarget
    (DragDrop.hover
       (fold_left (@DragDrop.hover nat)
                  [DragDrop.Enter (js "zone-0"); DragDrop.Enter (js "zone-1");
                   DragDrop.Leave]
                  (DragDrop.handleDragStart (Some 2%nat) (DragDrop.initial nat)))
       DragDrop.Leave)
  = None
  /\ DragDrop.dropTarget
       (DragDrop.hover
          (fold_left (@DragDrop.hover nat)
                     [DragDrop.Enter (js "zone-0"); DragDrop.Enter (js "zone-1")]
                     (DragDrop.handleDragStart (Some 2%nat) (DragDrop.initial nat)))
          DragDrop.Leave)
     = Some (js "zone-1").
Proof.
  split.
  - apply (useDragDrop_hovering nat
             (DragDrop.handleDragStart (Some 2%nat) (DragDrop.initial nat))
             [DragDrop.Enter (js "zone-0"); DragDrop.Enter (js "zone-1");
              DragDrop.Leave]).
    reflexivity.
  - destruct (useDragDrop_hovering nat
                (DragDrop.handleDragStart (Some 2%nat) (DragDrop.initial nat))
                [DragDrop.Enter (js "zone-0"); DragDrop.Enter (js "zone-1")])
      as (_ & _ & _ & _ & _ & H & _).
    rewrite H; [reflexivity|]. vm_compute. discriminate.
Defined.

(** ** The storage client *)

Lemma includes_skip (a b p : jsstring) (x : N) :
  ~ In x a -> includes (a ++ b) (x :: p) = includes b (x :: p).
Proof.
  induction a as [|c a IH]; intros H; [reflexivity|].
  cbn [app includes startsWith].
  replace (x =? c) with false.
  - cbn [andb orb]. apply IH. intros Hin. apply H. now right.
  - symmetry. apply N.eqb_neq. intros ->. apply H. now left.
Qed.

Lemma digits_range (u : Decimal.uint) (c : N) :
  In c (GoogleDriveService.digits u) -> 48 <= c <= 57.
Proof.
  induction u; cbn [GoogleDriveService.digits In]; intros H;
    try (destruct H as [<-|H]; [lia|auto]); destruct H.
Qed.

Lemma isAuthenticationError_failure (what : jsstring) (n : N) (rest : jsstring) :
  ~ In 65 what -> ~ In 78 what ->
  isAuthenticationError
    (what ++ GoogleDriveService.numberToString n ++ js " " ++ rest)
  = isAuthenticationError rest.
Proof.
  intros HA HN. unfold isAuthenticationError.
  assert (E : what ++ GoogleDriveService.numberToString n ++ js " " ++ rest
              = (what ++ GoogleDriveService.numberToString n ++ js " ") ++ rest).
  { now rewrite <- !app_assoc. }
  rewrite E.
  assert (Hno : forall x, x = 65 \/ x = 78 -> ~ In x what ->
                  ~ In x (what ++ GoogleDriveService.numberToString n ++ js " ")).
  { intros x Hx Hw Hin. apply in_app_or in Hin as [Hin|Hin]; [contradiction|].
    apply in_app_or in Hin as [Hin|Hin].
    - apply digits_range in Hin. lia.
    - destruct Hin as [Hin|[]]. vm_compute in Hin. lia. }
  change (js "Authentication expired") with (65 :: js "uthentication expired").
  change (js "Not authenticated") with (78 :: js "ot authenticated").
  rewrite (includes_skip _ rest _ 65 (Hno 65 (or_introl eq_refl) HA)).
  rewrite (includes_skip _ rest _ 78 (Hno 78 (or_intror eq_refl) HN)).
  reflexivity.
Qed.

Lemma getItem_removeItem_same (key : jsstring) (st : GoogleDriveService.Storage) :
  GoogleDriveService.getItem key (GoogleDriveService.removeItem key st) = None.
Proof.
  unfold GoogleDriveService.getItem, GoogleDriveService.removeItem.
  induction st as [|kv st IH]; [reflexivity|].
  cbn [filter]. destruct (jseqb (fst kv) key) eqn:E; cbn [negb]; [exact IH|].
  cbn [find]. now rewrite E.
Qed.

Lemma getItem_removeItem_other (key key' : jsstring)
      (st : GoogleDriveService.Storage) :
  key' <> key ->
  GoogleDriveService.getItem key' (GoogleDriveService.removeItem key st)
  = GoogleDriveService.getItem key' st.
Proof.
  intros Hne.
  unfold GoogleDriveService.getItem, GoogleDriveService.removeItem.
  induction st as [|kv st IH]; [reflexivity|].
  cbn [filter find]. destruct (jseqb (fst kv) key) eqn:E; cbn [negb].
  - apply jseqb_eq in E.
    replace (jseqb (fst kv) key') with false; [exact IH|].
    symmetry. apply jseqb_neq. congruence.
  - cbn [find]. destruct (jseqb (fst kv) key'); [reflexivity|exact IH].
Qed.

Lemma removeItem_absent (key : jsstring) (st : GoogleDriveService.Storage) :
  (forall kv, In kv st -> fst kv <> key) ->
  GoogleDriveService.removeItem key st = st.
Proof.
  intros H. apply filter_keeps_all. intros kv Hin.
  apply negb_true_iff, jseqb_neq. now apply H.
Qed.

Lemma removeItem_keys (key : jsstring) (st : GoogleDriveService.Storage)
      (kv : jsstring * jsstring) :
  In kv (GoogleDriveService.removeItem key st) <-> In kv st /\ fst kv <> key.
Proof.
  unfold GoogleDriveService.removeItem. rewrite filter_In.
  now rewrite negb_true_iff, jseqb_neq.
Qed.

Lemma expire_storage (sv : GoogleDriveService.t) (key : jsstring) :
  (In key sessionKeys ->
   GoogleDriveService.getItem key
     (GoogleDriveService.localStorage (GoogleDriveService.expire sv)) = None)
  /\ (~ In key sessionKeys ->
      GoogleDriveService.getItem key
        (GoogleDriveService.localStorage (GoogleDriveService.expire sv))
      = GoogleDriveService.getItem key (GoogleDriveService.localStorage sv)).
Proof.
  unfold GoogleDriveService.expire, GoogleDriveService.clearStoredTokens.
  cbn [GoogleDriveService.localStorage]. split.
  - intros [<-|[<-|[<-|[<-|[]]]]].
    + rewrite !getItem_removeItem_other by (vm_compute; discriminate).
      apply getItem_removeItem_same.
    + rewrite !getItem_removeItem_other by (vm_compute; discriminate).
      apply getItem_removeItem_same.
    + rewrite !getItem_removeItem_other by (vm_compute; discriminate).
      apply getItem_removeItem_same.
    + apply getItem_removeItem_same.
  - intros H. rewrite !getItem_removeItem_other; [reflexivity| | | |];
      intros ->; apply H; cbn [sessionKeys In]; tauto.
Qed.

Lemma clearAuthentication_expire (sv : GoogleDriveService.t) :
  GoogleDriveService.clearAuthentication (GoogleDriveService.expire sv)
  = GoogleDriveService.expire sv.
Proof.
  unfold GoogleDriveService.clearAuthentication, GoogleDriveService.expire,
    GoogleDriveService.clearStoredTokens.
  cbn [GoogleDriveService.localStorage GoogleDriveService.accessToken
       GoogleDriveService.pendingPromise].
  f_equal.
  set (st := GoogleDriveService.localStorage sv).
  rewrite (removeItem_absent GoogleDriveService.STORAGE_TOKEN_KEY).
  2:{ intros kv Hin. apply removeItem_keys in Hin as [Hin _].
      apply removeItem_keys in Hin as [Hin _].
      apply removeItem_keys in Hin as [Hin _].
      apply removeItem_keys in Hin as [_ Hin]. exact Hin. }
  rewrite (removeItem_absent GoogleDriveService.STORAGE_EXP_KEY).
  2:{ intros kv Hin. apply removeItem_keys in Hin as [Hin _].
      apply removeItem_keys in Hin as [Hin _].
      apply removeItem_keys in Hin as [_ Hin]. exact Hin. }
  rewrite (removeItem_absent GoogleDriveService.STORAGE_REFRESH_TOKEN_KEY).
  2:{ intros kv Hin. apply removeItem_keys in Hin as [Hin _].
      apply removeItem_keys in Hin as [_ Hin]. exact Hin. }
  rewrite (removeItem_absent GoogleDriveService.STORAGE_USER_INFO_KEY).
  2:{ intros kv Hin. apply removeItem_keys in Hin as [_ Hin]. exact Hin. }
  reflexivity.
Qed.

(** X21: without a token the three request methods of the storage
    client reject at once: no request is made, whatever the network
    would answer, and the service is left as it was.  The component
    reads each of these rejections as an authentication problem: a save
    shows no error and a load changes nothing, and both call
    [onAuthError] when the callback was supplied. *)
Theorem requests_need_a_token (sv : GoogleDriveService.t) :
  GoogleDriveService.token sv = None ->
  (forall fetch fileId content,
      GoogleDriveService.updateFile fetch fileId content sv
      = (sv, Rejected (Some (js "Not authenticated. Please sign in first."))))
  /\ (forall fetch fileId,
         GoogleDriveService.getFileContent fetch fileId sv
         = (sv, FetchRejected
                  (Some (js "Not authenticated. Please sign in first."))))
  /\ (forall fuel fetch folderId,
         GoogleDriveService.listFiles fuel fetch folderId sv
         = Some (sv,
                 PlaylistList.ListRejected
                   (Some (js "Not authenticated. Please refresh the page and try again."))))
  /\ (forall fetch onAuthError s pl content,
         selectedPlaylist s = Some pl ->
         generatePlaylistContent s = Ok content ->
         savePlaylist
           (fun id c => snd (GoogleDriveService.updateFile fetch id c sv))
           onAuthError s
         = (setIsSaving false (setSaveError None s),
            if onAuthError then [OnAuthError] else []))
  /\ (forall fetch onAuthError s pl,
         selectedPlaylist s = Some pl ->
         load (fun id => snd (GoogleDriveService.getFileContent fetch id sv))
              onAuthError s
         = (s, if onAuthError then [OnAuthError] else [])).
Proof.
  intros H.
  assert (U : forall fetch fileId content,
             GoogleDriveService.updateFile fetch fileId content sv
             = (sv, Rejected (Some (js "Not authenticated. Please sign in first.")))).
  { intros. unfold GoogleDriveService.updateFile. now rewrite H. }
  assert (G : forall fetch fileId,
             GoogleDriveService.getFileContent fetch fileId sv
             = (sv, FetchRejected
                      (Some (js "Not authenticated. Please sign in first.")))).
  { intros. unfold GoogleDriveService.getFileContent. now rewrite H. }
  split; [exact U|]. split; [exact G|]. split; [|split].
  - intros. unfold GoogleDriveService.listFiles. now rewrite H.
  - intros fetch onAuthError s pl content Hsel Hgen.
    unfold savePlaylist. rewrite Hsel, generatePlaylistContent_saving, Hgen, U.
    reflexivity.
  - intros fetch onAuthError s pl Hsel. unfold load. rewrite Hsel, G.
    cbn [snd]. unfold loadFailed.
    destruct onAuthError; reflexivity.
Qed.

Lemma requests_need_a_token_witness :
  savePlaylist
    (fun id c =>
       snd (GoogleDriveService.updateFile
              (fun _ => GoogleDriveService.FetchFails None) id c
              {| GoogleDriveService.accessToken := None;
                 GoogleDriveService.pendingPromise := false;
                 GoogleDriveService.localStorage := [] |}))
    true
    (setPlaylistItems [{| path := js "T:\a.mp3"; filename := js "a" |}]
       (setSelectedPlaylist
          (Some {| GoogleDriveFile.id := js "7";
                   GoogleDriveFile.name := js "show.m3u8" |})
          (initialState [])))
  = (setPlaylistItems [{| path := js "T:\a.mp3"; filename := js "a" |}]
       (setSelectedPlaylist
          (Some {| GoogleDriveFile.id := js "7";
                   GoogleDriveFile.name := js "show.m3u8" |})
          (initialState [])),
     [OnAuthError]).
Proof.
  destruct (requests_need_a_token
              {| GoogleDriveService.accessToken := None;
                 GoogleDriveService.pendingPromise := false;
                 GoogleDriveService.localStorage := [] |} eq_refl)
    as (_ & _ & _ & H & _).
  rewrite (H (fun _ => GoogleDriveService.FetchFails None) true
             (setPlaylistItems [{| path := js "T:\a.mp3"; filename := js "a" |}]
                (setSelectedPlaylist
                   (Some {| GoogleDriveFile.id := js "7";
                            GoogleDriveFile.name := js "show.m3u8" |})
                   (initialState [])))
             {| GoogleDriveFile.id := js "7";
                GoogleDriveFile.name := js "show.m3u8" |}
             _ eq_refl eq_refl).
  reflexivity.
Defined.

(** X22: a response with status 401 signs the service out.  Each of the
    three request methods then rejects with the message the component
    reads as an authentication problem, and leaves the service without
    a token and without a pending promise; the four session keys are
    gone from [localStorage] and every other key is as before, so that
    [clearAuthentication], which the page runs next, finds nothing left
    to clear.  The next request is rejected without being sent.  When
    the body of the 401 response cannot be read, none of this happens:
    the token stays and the read error is what the caller gets. *)
Theorem unauthorized_response_signs_out
        (sv : GoogleDriveService.t) (tk : jsstring)
        (fetch : GoogleDriveService.Request -> GoogleDriveService.Outcome)
        (response : GoogleDriveService.Response) :
  GoogleDriveService.token sv = Some tk ->
  GoogleDriveService.status response = 401 ->
  (forall request, fetch request = GoogleDriveService.Responds response) ->
  let expired := js "Authentication expired. Please sign in again." in
  ((exists errorText,
       GoogleDriveService.text response = GoogleDriveService.Read errorText) ->
   (forall fileId content,
       GoogleDriveService.updateFile fetch fileId content sv
       = (GoogleDriveService.expire sv, Rejected (Some expired)))
   /\ (forall fileId,
          GoogleDriveService.getFileContent fetch fileId sv
          = (GoogleDriveService.expire sv, FetchRejected (Some expired)))
   /\ (forall fuel folderId,
          GoogleDriveService.listFiles (S fuel) fetch folderId sv
          = Some (GoogleDriveService.expire sv,
                  PlaylistList.ListRejected (Some expired))))
  /\ (forall message,
         GoogleDriveService.text response = GoogleDriveService.ReadFails message ->
         forall fileId content,
           GoogleDriveService.updateFile fetch fileId content sv
           = (sv, Rejected message))
  /\ isAuthenticationError expired = true
  /\ GoogleDriveService.isAuthenticated (GoogleDriveService.expire sv) = false
  /\ GoogleDriveService.pendingPromise (GoogleDriveService.expire sv) = false
  /\ (forall key,
         In key sessionKeys ->
         GoogleDriveService.getItem key
           (GoogleDriveService.localStorage (GoogleDriveService.expire sv))
         = None)
  /\ (forall key,
         ~ In key sessionKeys ->
         GoogleDriveService.getItem key
           (GoogleDriveService.localStorage (GoogleDriveService.expire sv))
         = GoogleDriveService.getItem key (GoogleDriveService.localStorage sv))
  /\ GoogleDriveService.clearAuthentication (GoogleDriveService.expire sv)
     = GoogleDriveService.expire sv
  /\ (forall fetch' fileId content,
         GoogleDriveService.updateFile fetch' fileId content
                                       (GoogleDriveService.expire sv)
         = (GoogleDriveService.expire sv,
            Rejected (Some (js "Not authenticated. Please sign in first.")))).
Proof.
  intros Htk Hst Hfetch expired.
  assert (Hok : GoogleDriveService.ok response = false).
  { unfold GoogleDriveService.ok. now rewrite Hst. }
  split; [|split; [|split; [|split; [|split; [|split; [|split; [|split]]]]]]].
  - intros [errorText Htext]. split; [|split].
    + intros. unfold GoogleDriveService.updateFile.
      now rewrite Htk, Hfetch, Hok, Htext, Hst.
    + intros. unfold GoogleDriveService.getFileContent.
      now rewrite Htk, Hfetch, Hok, Htext, Hst.
    + intros. unfold GoogleDriveService.listFiles. rewrite Htk.
      cbn [GoogleDriveService.listPages GoogleDriveService.pageUrl].
      now rewrite Hfetch, Hok, Htext, Hst.
  - intros message Htext fileId content. unfold GoogleDriveService.updateFile.
    now rewrite Htk, Hfetch, Hok, Htext.
  - reflexivity.
  - reflexivity.
  - reflexivity.
  - intros key. apply expire_storage.
  - intros key. apply expire_storage.
  - apply clearAuthentication_expire.
  - intros. reflexivity.
Qed.

Lemma unauthorized_response_signs_out_witness :
  let sv := {| GoogleDriveService.accessToken := Some (js "ya29.token");
               GoogleDriveService.pendingPromise := false;
               GoogleDriveService.localStorage :=
                 [ (js "theme", js "light");
                   (js "google_access_token", js "ya29.token");
                   (js "google_access_token_expires_at", js "1762128000000") ] |} in
  let response := {| GoogleDriveService.status := 401;
                     GoogleDriveService.statusText := js "Unauthorized";
                     GoogleDriveService.text := GoogleDriveService.Read [];
                     GoogleDriveService.json := GoogleDriveService.ReadFails None |} in
  fst (GoogleDriveService.updateFile
         (fun _ => GoogleDriveService.Responds response) (js "7") (js "#EXTM3U") sv)
  = {| GoogleDriveService.accessToken := None;
       GoogleDriveService.pendingPromise := false;
       GoogleDriveService.localStorage := [ (js "theme", js "light") ] |}.
Proof.
  intros sv response.
  destruct (unauthorized_response_signs_out sv (js "ya29.token")
              (fun _ => GoogleDriveService.Responds response) response
              eq_refl eq_refl (fun _ => eq_refl)) as (H & _).
  destruct (H (ex_intro _ [] eq_refl)) as (U & _).
  rewrite U. reflexivity.
Defined.

(** X23: a failing response other than 401 to [updateFile] leaves the
    service as it was and rejects with a message made of the status and
    the status text.  The component takes this message for an
    authentication problem exactly when the status text itself contains
    one of the two marker phrases; otherwise the save ends with the
    message in [saveError], no event, and the document as it was. *)
Theorem updateFile_failure_message
        (sv : GoogleDriveService.t) (tk fileId content errorText : jsstring)
        (fetch : GoogleDriveService.Request -> GoogleDriveService.Outcome)
        (response : GoogleDriveService.Response) :
  GoogleDriveService.token sv = Some tk ->
  fetch (GoogleDriveService.updateRequest tk fileId content)
  = GoogleDriveService.Responds response ->
  GoogleDriveService.ok response = false ->
  GoogleDriveService.status response <> 401 ->
  GoogleDriveService.text response = GoogleDriveService.Read errorText ->
  let message :=
    js "Failed to update file: "
      ++ GoogleDriveService.numberToString (GoogleDriveService.status response)
      ++ js " " ++ GoogleDriveService.statusText response in
  GoogleDriveService.updateFile fetch fileId content sv
  = (sv, Rejected (Some message))
  /\ isAuthenticationError message
     = isAuthenticationError (GoogleDriveService.statusText response)
  /\ (isAuthenticationError (GoogleDriveService.statusText response) = false ->
      forall onAuthError s pl,
        selectedPlaylist s = Some pl ->
        GoogleDriveFile.id pl = fileId ->
        generatePlaylistContent s = Ok content ->
        savePlaylist
          (fun id c => snd (GoogleDriveService.updateFile fetch id c sv))
          onAuthError s
        = (setIsSaving false (setSaveError (Some message) s), [])).
Proof.
  intros Htk Hfetch Hok Hst Htext message.
  assert (U : GoogleDriveService.updateFile fetch fileId content sv
              = (sv, Rejected (Some message))).
  { unfold GoogleDriveService.updateFile.
    rewrite Htk, Hfetch, Hok, Htext. cbn [negb].
    apply N.eqb_neq in Hst. now rewrite Hst. }
  assert (A : isAuthenticationError message
              = isAuthenticationError (GoogleDriveService.statusText response)).
  { apply isAuthenticationError_failure; vm_compute; intuition discriminate. }
  split; [exact U|]. split; [exact A|].
  intros Hno onAuthError s pl Hsel Hid Hgen.
  unfold savePlaylist. rewrite Hsel, generatePlaylistContent_saving, Hgen, Hid, U.
  cbn [snd]. unfold saveFailed.
  assert (E : orElse (Some message) (js "Failed to save playlist") = message)
    by reflexivity.
  rewrite E, A, Hno. reflexivity.
Qed.

Lemma updateFile_failure_message_witness :
  GoogleDriveService.updateFile
    (fun _ => GoogleDriveService.Responds
                {| GoogleDriveService.status := 403;
                   GoogleDriveService.statusText := js "Forbidden";
                   GoogleDriveService.text := GoogleDriveService.Read (js "{}");
                   GoogleDriveService.json := GoogleDriveService.ReadFails None |})
    (js "7") (js "#EXTM3U")
    {| GoogleDriveService.accessToken := Some (js "ya29.token");
       GoogleDriveService.pendingPromise := false;
       GoogleDriveService.localStorage := [] |}
  = ({| GoogleDriveService.accessToken := Some (js "ya29.token");
        GoogleDriveService.pendingPromise := false;
        GoogleDriveService.localStorage := [] |},
     Rejected (Some (js "Failed to update file: 403 Forbidden"))).
Proof.
  apply (updateFile_failure_message
           {| GoogleDriveService.accessToken := Some (js "ya29.token");
              GoogleDriveService.pendingPromise := false;
              GoogleDriveService.localStorage := [] |}
           (js "ya29.token") (js "7") (js "#EXTM3U") (js "{}")
           (fun _ => GoogleDriveService.Responds
                       {| GoogleDriveService.status := 403;
                          GoogleDriveService.statusText := js "Forbidden";
                          GoogleDriveService.text :=
                            GoogleDriveService.Read (js "{}");
                          GoogleDriveService.json :=
                            GoogleDriveService.ReadFails None |})
           _ eq_refl eq_refl eq_refl);
    [vm_compute; discriminate|reflexivity].
Defined.

(** ** Listing a folder *)

Lemma listPages_collects
      (fetch : GoogleDriveService.Request -> GoogleDriveService.Outcome)
      (folderId tk : jsstring) (sv : GoogleDriveService.t)
      (pages : list GoogleDriveService.Page) :
  forall (fuel : nat) (allFiles : list GoogleDriveFile.t)
         (pageToken : option jsstring),
    servesPages fetch folderId tk pageToken pages ->
    (List.length pages <= fuel)%nat ->
    GoogleDriveService.listPages fuel fetch folderId tk allFiles pageToken sv
    = Some (sv, PlaylistList.Listed (allFiles ++ flat_map filesOf pages)).
Proof.
  induction pages as [|p ps IH]; intros fuel allFiles pageToken Hs Hf;
    [destruct Hs|].
  destruct fuel as [|fuel]; [cbn [List.length] in Hf; lia|].
  cbn [servesPages] in Hs.
  destruct Hs as (address & response & Hurl & Hfetch & Hok & Hjson & Hnext).
  cbn [GoogleDriveService.listPages]. rewrite Hurl, Hfetch, Hok, Hjson.
  cbn [negb flat_map]. fold (filesOf p).
  destruct ps as [|p' ps].
  - cbn [flat_map]. rewrite app_nil_r.
    destruct (GoogleDriveService.nextPageToken p) as [next|]; [|reflexivity].
    now rewrite Hnext.
  - destruct Hnext as (next & -> & Hne & Hs).
    destruct next as [|c next]; [contradiction|]. cbn [truthy].
    rewrite (IH fuel _ (Some (c :: next)) Hs).
    + now rewrite <- app_assoc.
    + cbn [List.length] in *. lia.
Qed.

Lemma listPages_more_fuel
      (fetch : GoogleDriveService.Request -> GoogleDriveService.Outcome)
      (folderId tk : jsstring) (sv : GoogleDriveService.t) :
  forall (fuel : nat) (allFiles : list GoogleDriveFile.t)
         (pageToken : option jsstring) r,
    GoogleDriveService.listPages fuel fetch folderId tk allFiles pageToken sv
    = Some r ->
    GoogleDriveService.listPages (S fuel) fetch folderId tk allFiles pageToken sv
    = Some r.
Proof.
  induction fuel as [|fuel IH]; intros allFiles pageToken r H; [discriminate|].
  remember (S fuel) as n eqn:En.
  cbn [GoogleDriveService.listPages]. rewrite En in H |- *.
  cbn [GoogleDriveService.listPages] in H.
  destruct (GoogleDriveService.pageUrl folderId pageToken); [|exact H].
  destruct (fetch _) as [response|]; [|exact H].
  destruct (negb (GoogleDriveService.ok response)); [exact H|].
  destruct (GoogleDriveService.json response) as [data|]; [|exact H].
  destruct (GoogleDriveService.nextPageToken data) as [next|]; [|exact H].
  destruct (truthy next); [|exact H].
  rewrite <- En. now apply IH.
Qed.

Lemma listPages_endless
      (fetch : GoogleDriveService.Request -> GoogleDriveService.Outcome)
      (folderId tk next encoded : jsstring) (sv : GoogleDriveService.t)
      (response : GoogleDriveService.Response) (data : GoogleDriveService.Page) :
  (forall request, fetch request = GoogleDriveService.Responds response) ->
  GoogleDriveService.ok response = true ->
  GoogleDriveService.json response = GoogleDriveService.Read data ->
  GoogleDriveService.nextPageToken data = Some next ->
  next <> [] -> encodeURIComponent next = Ok encoded ->
  forall (fuel : nat) (allFiles : list GoogleDriveFile.t)
         (pageToken : option jsstring),
    pageToken = None \/ pageToken = Some next ->
    GoogleDriveService.listPages fuel fetch folderId tk allFiles pageToken sv
    = None.
Proof.
  intros Hfetch Hok Hjson Hnext Hne Henc.
  induction fuel as [|fuel IH]; intros allFiles pageToken Hp; [reflexivity|].
  cbn [GoogleDriveService.listPages].
  assert (Hurl : exists address,
             GoogleDriveService.pageUrl folderId pageToken = Ok address).
  { unfold GoogleDriveService.pageUrl. destruct Hp as [->| ->].
    - eexists. reflexivity.
    - destruct next; [contradiction|]. cbn [truthy]. rewrite Henc.
      eexists. reflexivity. }
  destruct Hurl as [address ->].
  rewrite Hfetch, Hok, Hjson, Hnext. cbn [negb].
  destruct next as [|c next']; [contradiction|]. cbn [truthy].
  apply IH. now right.
Qed.

(** X24: [listFiles] over the pages of a listing.  When the server
    hands out the pages one after the other, the method returns the
    files of all pages, in the order of the pages and within each page,
    and leaves the service as it was; a page without a [files] field
    counts as empty.  The result does not depend on how long the method
    is left running beyond the last page.  The loop has no page limit of
    its own: against a server that names a next page in every answer it
    never returns. *)
Theorem listFiles_collects_all_pages
        (sv : GoogleDriveService.t) (tk folderId : jsstring)
        (fetch : GoogleDriveService.Request -> GoogleDriveService.Outcome) :
  GoogleDriveService.token sv = Some tk ->
  (forall pages fuel,
      servesPages fetch folderId tk None pages ->
      (List.length pages <= fuel)%nat ->
      GoogleDriveService.listFiles fuel fetch folderId sv
      = Some (sv, PlaylistList.Listed (flat_map filesOf pages)))
  /\ (forall fuel fuel' r,
         GoogleDriveService.listFiles fuel fetch folderId sv = Some r ->
         (fuel <= fuel')%nat ->
         GoogleDriveService.listFiles fuel' fetch folderId sv = Some r)
  /\ (forall response data next encoded,
         (forall request, fetch request = GoogleDriveService.Responds response) ->
         GoogleDriveService.ok response = true ->
         GoogleDriveService.json response = GoogleDriveService.Read data ->
         GoogleDriveService.nextPageToken data = Some next ->
         next <> [] -> encodeURIComponent next = Ok encoded ->
         forall fuel,
           GoogleDriveService.listFiles fuel fetch folderId sv = None).
Proof.
  intros Htk. unfold GoogleDriveService.listFiles. rewrite Htk.
  split; [|split].
  - intros pages fuel Hs Hf.
    now rewrite (listPages_collects fetch folderId tk sv pages fuel [] None Hs Hf).
  - intros fuel fuel' r H Hle. induction Hle as [|n Hle IH]; [exact H|].
    now apply listPages_more_fuel.
  - intros response data next encoded Hfetch Hok Hjson Hnext Hne Henc fuel.
    apply (listPages_endless fetch folderId tk next encoded sv response data
             Hfetch Hok Hjson Hnext Hne Henc). now left.
Qed.

Lemma listFiles_collects_all_pages_witness :
  let sv := {| GoogleDriveService.accessToken := Some (js "ya29.token");
               GoogleDriveService.pendingPromise := false;
               GoogleDriveService.localStorage := [] |} in
  let a := {| GoogleDriveFile.id := js "1"; GoogleDriveFile.name := js "a.m3u8" |} in
  let b := {| GoogleDriveFile.id := js "2"; GoogleDriveFile.name := js "b.m3u8" |} in
  let c := {| GoogleDriveFile.id := js "3"; GoogleDriveFile.name := js "c.m3u8" |} in
  let page1 := {| GoogleDriveService.files := Some [a; b];
                  GoogleDriveService.nextPageToken := Some (js "p/2") |} in
  let page2 := {| GoogleDriveService.files := Some [c];
                  GoogleDriveService.nextPageToken := None |} in
  let answer p := GoogleDriveService.Responds
                    {| GoogleDriveService.status := 200;
                       GoogleDriveService.statusText := js "OK";
                       GoogleDriveService.text := GoogleDriveService.Read [];
                       GoogleDriveService.json := GoogleDriveService.Read p |} in
  let fetch request :=
    if includes (GoogleDriveService.url request) (js "&pageToken=p%2F2")
    then answer page2 else answer page1 in
  GoogleDriveService.listFiles 5 fetch FolderConfig.PLAYLIST_FOLDER_ID sv
  = Some (sv, PlaylistList.Listed [a; b; c]).
Proof.
  intros sv a b c page1 page2 answer fetch.
  apply (proj1 (listFiles_collects_all_pages sv (js "ya29.token")
                  FolderConfig.PLAYLIST_FOLDER_ID fetch eq_refl)
               [page1; page2] 5%nat); [|cbn; lia].
  cbn [servesPages].
  eexists. eexists. split; [reflexivity|]. split; [reflexivity|].
  split; [reflexivity|]. split; [reflexivity|].
  exists (js "p/2"). split; [reflexivity|]. split; [discriminate|].
  eexists. eexists. split; [reflexivity|]. split; [reflexivity|].
  split; [reflexivity|]. split; reflexivity.
Defined.

(** ** Saving and reopening through the storage client *)

(** X25: a playlist saved through the storage client and opened again.
    With a token, a clean document with items is encoded, sent as the
    body of the update request, and on an ok response the save ends
    with the success toast and the service unchanged.  When the file is
    later fetched and the server answers with the text that was sent,
    the loading effect shows the same paths in the same order and the
    same container name (the placeholder for an empty one), whatever
    the component held before. *)
Theorem saved_playlist_reopens
        (sv : GoogleDriveService.t) (tk : jsstring)
        (fetchSave fetchLoad : GoogleDriveService.Request
                               -> GoogleDriveService.Outcome)
        (saved reply : GoogleDriveService.Response)
        (onAuthError : bool) (s : State) (pl : GoogleDriveFile.t) :
  GoogleDriveService.token sv = Some tk ->
  selectedPlaylist s = Some pl ->
  playlistItems s <> [] ->
  Forall storedPath (map path (playlistItems s)) ->
  wellFormed (containerName s) = true ->
  (forall content,
      fetchSave (GoogleDriveService.updateRequest tk (GoogleDriveFile.id pl)
                                                  content)
      = GoogleDriveService.Responds saved) ->
  GoogleDriveService.ok saved = true ->
  fetchLoad (GoogleDriveService.contentRequest tk (GoogleDriveFile.id pl))
  = GoogleDriveService.Responds reply ->
  GoogleDriveService.ok reply = true ->
  (forall content,
      generatePlaylistContent s = Ok content ->
      GoogleDriveService.text reply = GoogleDriveService.Read content) ->
  exists content,
    generatePlaylistContent s = Ok content
    /\ GoogleDriveService.updateFile fetchSave (GoogleDriveFile.id pl) content sv
       = (sv, Resolved)
    /\ savePlaylist
         (fun id c => snd (GoogleDriveService.updateFile fetchSave id c sv))
         onAuthError s
       = (setIsSaving false (setSaveError None (setOriginalContent content s)),
          [Toast (js "Playlist saved")
                 (stripM3u8 (GoogleDriveFile.name pl)
                    ++ js " was updated successfully.")
                 (js "success")])
    /\ forall s2,
         selectedPlaylist s2 = Some pl ->
         let r := load (fun id =>
                          snd (GoogleDriveService.getFileContent fetchLoad id sv))
                       onAuthError s2 in
         snd r = []
         /\ originalContent (fst r) = content
         /\ map path (playlistItems (fst r)) = map path (playlistItems s)
         /\ containerName (fst r) = writtenName (containerName s).
Proof.
  intros Htk Hsel Hne Hpaths Hwf Hsave Hoks Hload Hokr Htext.
  destruct (written_document_read_back (document s) Hne Hpaths Hwf)
    as (content & d' & He & Hd & Hn & Hp).
  exists content. fold (generatePlaylistContent s) in He.
  assert (U : GoogleDriveService.updateFile fetchSave (GoogleDriveFile.id pl)
                                            content sv = (sv, Resolved)).
  { unfold GoogleDriveService.updateFile. now rewrite Htk, Hsave, Hoks. }
  split; [exact He|]. split; [exact U|]. split.
  - unfold savePlaylist.
    rewrite Hsel, generatePlaylistContent_saving, He, U. reflexivity.
  - intros s2 Hsel2. cbv zeta. unfold load. rewrite Hsel2.
    unfold GoogleDriveService.getFileContent.
    rewrite Htk, Hload, Hokr, (Htext content He). cbn [negb snd].
    unfold parsePlaylistContent. rewrite Hd. cbn [bind fst snd].
    split; [reflexivity|]. split; [reflexivity|]. split; [exact Hp|exact Hn].
Qed.

Lemma saved_playlist_reopens_witness :
  let sv := {| GoogleDriveService.accessToken := Some (js "ya29.token");
               GoogleDriveService.pendingPromise := false;
               GoogleDriveService.localStorage := [] |} in
  let pl := {| GoogleDriveFile.id := js "7";
               GoogleDriveFile.name := js "show.m3u8" |} in
  let s := setContainerName (js "Ads & IDs")
             (setPlaylistItems
                [{| path := js "T:\IDs\one.wav"; filename := js "one" |};
                 {| path := js "T:\Ads\two.mp3"; filename := js "two" |}]
                (setSelectedPlaylist (Some pl) (initialState []))) in
  let answer body :=
    GoogleDriveService.Responds
      {| GoogleDriveService.status := 200;
         GoogleDriveService.statusText := js "OK";
         GoogleDriveService.text := GoogleDriveService.Read body;
         GoogleDriveService.json := GoogleDriveService.ReadFails None |} in
  let r := load (fun id =>
                   snd (GoogleDriveService.getFileContent
                          (fun _ => answer (js "#EXTM3U" ++ [LF]
                                              ++ js "Container=<Ads+%26+IDs>T:\IDs\one.wav|T:\Ads\two.mp3"
                                              ++ [LF]))
                          id sv))
                true (setSelectedPlaylist (Some pl) (initialState [])) in
  map path (playlistItems (fst r)) = [js "T:\IDs\one.wav"; js "T:\Ads\two.mp3"]
  /\ containerName (fst r) = js "Ads & IDs".
Proof.
  intros sv pl s answer r.
  destruct (saved_playlist_reopens sv (js "ya29.token")
              (fun _ => answer [])
              (fun _ => answer (js "#EXTM3U" ++ [LF]
                                  ++ js "Container=<Ads+%26+IDs>T:\IDs\one.wav|T:\Ads\two.mp3"
                                  ++ [LF]))
              {| GoogleDriveService.status := 200;
                 GoogleDriveService.statusText := js "OK";
                 GoogleDriveService.text := GoogleDriveService.Read [];
                 GoogleDriveService.json := GoogleDriveService.ReadFails None |}
              {| GoogleDriveService.status := 200;
                 GoogleDriveService.statusText := js "OK";
                 GoogleDriveService.text :=
                   GoogleDriveService.Read
                     (js "#EXTM3U" ++ [LF]
                        ++ js "Container=<Ads+%26+IDs>T:\IDs\one.wav|T:\Ads\two.mp3"
                        ++ [LF]);
                 GoogleDriveService.json := GoogleDriveService.ReadFails None |}
              true s pl eq_refl eq_refl)
    as (content & _ & _ & _ & H).
  - discriminate.
  - repeat constructor; try discriminate; vm_compute; intuition discriminate.
  - reflexivity.
  - reflexivity.
  - reflexivity.
  - reflexivity.
  - reflexivity.
  - intros content Hc. vm_compute in Hc. injection Hc as <-. reflexivity.
  - destruct (H (setSelectedPlaylist (Some pl) (initialState [])) eq_refl)
      as (_ & _ & Hp & Hn).
    split; [exact Hp|exact Hn].
Defined.

(** ** Editing the directories *)

Lemma updateAt_none (A : Type) (f : A -> A) (l : list A) (i : nat) :
  DirectoryConfig.updateAt i f l = None <-> (List.length l <= i)%nat.
Proof.
  revert i; induction l as [|x l IH]; intros i; cbn [List.length].
  - split; [lia|now destruct i].
  - destruct i as [|i]; cbn [DirectoryConfig.updateAt];
      [split; [discriminate|lia]|].
    specialize (IH i). destruct (DirectoryConfig.updateAt i f l).
    + split; [discriminate|]. intros H.
      assert (Hl : (List.length l <= i)%nat) by lia.
      apply IH in Hl. discriminate.
    + split; [|reflexivity]. intros _.
      assert (Hl : (List.length l <= i)%nat) by now apply IH.
      lia.
Qed.

Lemma updateAt_some (A : Type) (f : A -> A) (l l' : list A) (i : nat) :
  DirectoryConfig.updateAt i f l = Some l' ->
  List.length l' = List.length l
  /\ (exists x, nth_error l i = Some x /\ nth_error l' i = Some (f x))
  /\ (forall j, j <> i -> nth_error l' j = nth_error l j).
Proof.
  revert i l'; induction l as [|x l IH]; intros i l';
    [destruct i; discriminate|].
  destruct i as [|i]; cbn [DirectoryConfig.updateAt].
  - intros H. injection H as <-. split; [reflexivity|]. split.
    + now exists x.
    + intros [|j] Hj; [contradiction|reflexivity].
  - destruct (DirectoryConfig.updateAt i f l) as [u|] eqn:E; [|discriminate].
    intros H. injection H as <-.
    destruct (IH i u E) as (Hl & Hx & Ho). split; [cbn; now rewrite Hl|].
    split; [exact Hx|].
    intros [|j] Hj; [reflexivity|]. cbn [nth_error]. apply Ho. lia.
Qed.

Lemma filterIndexNot_beyond (A : Type) (l : list A) (i : nat) :
  (List.length l <= i)%nat -> filterIndexNot i l = l.
Proof.
  revert i; induction l as [|x l IH]; intros i H; [now destruct i|].
  cbn [List.length] in H. destruct i as [|i]; [lia|].
  cbn [filterIndexNot]. rewrite IH; [reflexivity|lia].
Qed.

Lemma filterIndexNot_last (A : Type) (l : list A) (x : A) :
  filterIndexNot (List.length l) (l ++ [x]) = l.
Proof.
  induction l as [|y l IH]; [reflexivity|].
  cbn [List.length app filterIndexNot]. now rewrite IH.
Qed.

Lemma filterIndexNot_In (A : Type) (l : list A) (i : nat) (x : A) :
  In x (filterIndexNot i l) -> In x l.
Proof.
  revert i; induction l as [|y l IH]; intros i H; [now destruct i|].
  destruct i as [|i]; cbn [filterIndexNot] in H.
  - now right.
  - destruct H as [<-|H]; [now left|right; now apply (IH i)].
Qed.

Lemma complete_truthy (d : AudioDirectory.t) :
  negb (truthy (AudioDirectory.name d))
  || negb (truthy (AudioDirectory.driveId d))
  || negb (truthy (AudioDirectory.localPath d)) = false
  <-> complete d.
Proof.
  unfold complete.
  destruct (AudioDirectory.name d), (AudioDirectory.driveId d),
    (AudioDirectory.localPath d); cbn; split; intros H;
    try discriminate; try reflexivity;
    try (destruct H as (H1 & H2 & H3); congruence);
    repeat split; discriminate.
Qed.

(** X26: editing the list of directories.  [handleAddDirectory] appends
    the new directory, empties the form and hides it when all three
    fields are filled in, and does nothing otherwise, so a second click
    adds nothing; removing the row just added gives the list back.
    Adding and removing rows keep every directory of the list complete.
    Removing at a position beyond the rows changes nothing.  A change
    of a field touches the row it is made in and no other, and a link
    typed into the folder field of a row is stored as the ID that
    [extractFolderIdFromUrl] takes from it. *)
Theorem DirectoryConfig_editing (s : DirectoryConfig.State) :
  (complete (DirectoryConfig.newDirectory s) ->
   DirectoryConfig.handleAddDirectory s
   = {| DirectoryConfig.isOpen := DirectoryConfig.isOpen s;
        DirectoryConfig.editingDirectories :=
          DirectoryConfig.editingDirectories s
            ++ [DirectoryConfig.newDirectory s];
        DirectoryConfig.newDirectory := DirectoryConfig.emptyDirectory;
        DirectoryConfig.showAddForm := false |}
   /\ DirectoryConfig.editingDirectories
        (DirectoryConfig.handleRemoveDirectory
           (List.length (DirectoryConfig.editingDirectories s))
           (DirectoryConfig.handleAddDirectory s))
      = DirectoryConfig.editingDirectories s)
  /\ (~ complete (DirectoryConfig.newDirectory s) ->
      DirectoryConfig.handleAddDirectory s = s)
  /\ DirectoryConfig.handleAddDirectory (DirectoryConfig.handleAddDirectory s)
     = DirectoryConfig.handleAddDirectory s
  /\ (Forall complete (DirectoryConfig.editingDirectories s) ->
      Forall complete
             (DirectoryConfig.editingDirectories
                (DirectoryConfig.handleAddDirectory s))
      /\ forall index,
           Forall complete
                  (DirectoryConfig.editingDirectories
                     (DirectoryConfig.handleRemoveDirectory index s)))
  /\ (forall index,
         (List.length (DirectoryConfig.editingDirectories s) <= index)%nat ->
         DirectoryConfig.handleRemoveDirectory index s = s)
  /\ (forall index field value,
         DirectoryConfig.handleDirectoryChange index field value s = None
         <-> (List.length (DirectoryConfig.editingDirectories s) <= index)%nat)
  /\ (forall index field value s',
         DirectoryConfig.handleDirectoryChange index field value s = Some s' ->
         List.length (DirectoryConfig.editingDirectories s')
         = List.length (DirectoryConfig.editingDirectories s)
         /\ (exists d,
                nth_error (DirectoryConfig.editingDirectories s) index = Some d
                /\ nth_error (DirectoryConfig.editingDirectories s') index
                   = Some (DirectoryConfig.withField field value d))
         /\ (forall j, j <> index ->
                nth_error (DirectoryConfig.editingDirectories s') j
                = nth_error (DirectoryConfig.editingDirectories s) j))
  /\ (forall index typed s',
         DirectoryConfig.changeDriveId index typed s = Some s' ->
         exists d,
           nth_error (DirectoryConfig.editingDirectories s) index = Some d
           /\ nth_error (DirectoryConfig.editingDirectories s') index
              = Some {| AudioDirectory.name := AudioDirectory.name d;
                        AudioDirectory.driveId :=
                          DirectoryConfig.extractFolderIdFromUrl typed;
                        AudioDirectory.localPath :=
                          AudioDirectory.localPath d |}).
Proof.
  assert (Hadd : complete (DirectoryConfig.newDirectory s) ->
                 DirectoryConfig.handleAddDirectory s
                 = {| DirectoryConfig.isOpen := DirectoryConfig.isOpen s;
                      DirectoryConfig.editingDirectories :=
                        DirectoryConfig.editingDirectories s
                          ++ [DirectoryConfig.newDirectory s];
                      DirectoryConfig.newDirectory :=
                        DirectoryConfig.emptyDirectory;
                      DirectoryConfig.showAddForm := false |}).
  { intros H. apply complete_truthy in H.
    unfold DirectoryConfig.handleAddDirectory. now rewrite H. }
  assert (Hnot : ~ complete (DirectoryConfig.newDirectory s) ->
                 DirectoryConfig.handleAddDirectory s = s).
  { intros H. unfold DirectoryConfig.handleAddDirectory.
    destruct (negb (truthy (AudioDirectory.name (DirectoryConfig.newDirectory s)))
              || negb (truthy (AudioDirectory.driveId
                                 (DirectoryConfig.newDirectory s)))
              || negb (truthy (AudioDirectory.localPath
                                 (DirectoryConfig.newDirectory s)))) eqn:E;
      [reflexivity|].
    apply complete_truthy in E. contradiction. }
  assert (Hchange : forall index field value s',
             DirectoryConfig.handleDirectoryChange index field value s = Some s' ->
             List.length (DirectoryConfig.editingDirectories s')
             = List.length (DirectoryConfig.editingDirectories s)
             /\ (exists d,
                    nth_error (DirectoryConfig.editingDirectories s) index = Some d
                    /\ nth_error (DirectoryConfig.editingDirectories s') index
                       = Some (DirectoryConfig.withField field value d))
             /\ (forall j, j <> index ->
                    nth_error (DirectoryConfig.editingDirectories s') j
                    = nth_error (DirectoryConfig.editingDirectories s) j)).
  { intros index field value s'. unfold DirectoryConfig.handleDirectoryChange.
    destruct (DirectoryConfig.updateAt index _ _) as [u|] eqn:E; [|discriminate].
    intros H. injection H as <-. cbn [DirectoryConfig.editingDirectories].
    now apply updateAt_some. }
  split; [|split; [|split; [|split; [|split; [|split; [|split]]]]]].
  - intros H. split; [now apply Hadd|]. rewrite (Hadd H).
    cbn [DirectoryConfig.handleRemoveDirectory DirectoryConfig.editingDirectories].
    apply filterIndexNot_last.
  - exact Hnot.
  - destruct (negb (truthy (AudioDirectory.name (DirectoryConfig.newDirectory s)))
              || negb (truthy (AudioDirectory.driveId
                                 (DirectoryConfig.newDirectory s)))
              || negb (truthy (AudioDirectory.localPath
                                 (DirectoryConfig.newDirectory s)))) eqn:E.
    + assert (Hs : DirectoryConfig.handleAddDirectory s = s).
      { unfold DirectoryConfig.handleAddDirectory. now rewrite E. }
      now rewrite !Hs.
    + apply complete_truthy in E. rewrite (Hadd E). reflexivity.
  - intros Hall. split.
    + unfold DirectoryConfig.handleAddDirectory.
      destruct (negb (truthy (AudioDirectory.name (DirectoryConfig.newDirectory s)))
                || negb (truthy (AudioDirectory.driveId
                                   (DirectoryConfig.newDirectory s)))
                || negb (truthy (AudioDirectory.localPath
                                   (DirectoryConfig.newDirectory s)))) eqn:E;
        [exact Hall|].
      cbn [DirectoryConfig.editingDirectories]. apply Forall_app. split; [exact Hall|].
      constructor; [|constructor]. now apply complete_truthy.
    + intros index. cbn [DirectoryConfig.handleRemoveDirectory
                         DirectoryConfig.editingDirectories].
      rewrite Forall_forall in *. intros d Hd. apply Hall.
      now apply filterIndexNot_In in Hd.
  - intros index H. unfold DirectoryConfig.handleRemoveDirectory.
    rewrite filterIndexNot_beyond by exact H. now destruct s.
  - intros index field value. unfold DirectoryConfig.handleDirectoryChange.
    rewrite <- (updateAt_none _ (DirectoryConfig.withField field value)).
    destruct (DirectoryConfig.updateAt index _ _); split;
      intros; congruence.
  - exact Hchange.
  - intros index typed s' H. unfold DirectoryConfig.changeDriveId in H.
    destruct (Hchange _ _ _ _ H) as (_ & (d & H1 & H2) & _).
    exists d. split; [exact H1|exact H2].
Qed.

Lemma DirectoryConfig_editing_witness :
  let jingles := {| AudioDirectory.name := js "Jingles - Audio";
                    AudioDirectory.driveId := js "1ABC123DEF456";
                    AudioDirectory.localPath :=
                      js "T:\REGFM RadioBOSS\Jingles\{audio_filename}" |} in
  let s := {| DirectoryConfig.isOpen := true;
              DirectoryConfig.editingDirectories :=
                FolderConfig.DEFAULT_AUDIO_DIRECTORIES;
              DirectoryConfig.newDirectory := jingles;
              DirectoryConfig.showAddForm := true |} in
  DirectoryConfig.editingDirectories (DirectoryConfig.handleAddDirectory s)
  = FolderConfig.DEFAULT_AUDIO_DIRECTORIES ++ [jingles]
  /\ DirectoryConfig.editingDirectories
       (DirectoryConfig.handleRemoveDirectory 4
          (DirectoryConfig.handleAddDirectory s))
     = FolderConfig.DEFAULT_AUDIO_DIRECTORIES.
Proof.
  intros jingles s.
  destruct (DirectoryConfig_editing s) as (H & _).
  destruct H as (H1 & H2).
  - repeat split; discriminate.
  - split; [now rewrite H1|exact H2].
Defined.

(** ** The selected directory *)

(** X27: the directory that decides the path of a file.  The selected
    directory is the first one of the list whose name is the selected
    name, so of two directories with one name the second is never used;
    there is none exactly when no directory has that name, and then
    every file gets the path [T:\My Drive\Audio\] followed by its name,
    different names giving different paths.  At mount the first
    configured directory is the selected one. *)
Theorem selectedDirectory_first_match (s : State) :
  (forall d,
      selectedDirectory s = Some d ->
      AudioDirectory.name d = selectedDirectoryName s
      /\ exists before after,
           audioDirectories s = before ++ d :: after
           /\ forall d', In d' before ->
                         AudioDirectory.name d' <> selectedDirectoryName s)
  /\ (selectedDirectory s = None
      <-> forall d, In d (audioDirectories s) ->
                    AudioDirectory.name d <> selectedDirectoryName s)
  /\ (selectedDirectory s = None ->
      (forall file,
          buildPathForFile file (selectedDirectory s)
          = js "T:\My Drive\Audio\" ++ GoogleDriveFile.name file)
      /\ (forall file1 file2,
             buildPathForFile file1 (selectedDirectory s)
             = buildPathForFile file2 (selectedDirectory s) ->
             GoogleDriveFile.name file1 = GoogleDriveFile.name file2))
  /\ (forall d directories,
         selectedDirectory (initialState (d :: directories)) = Some d)
  /\ selectedDirectory (initialState []) = None.
Proof.
  unfold selectedDirectory.
  split; [|split; [|split; [|split]]].
  - intros d. generalize (audioDirectories s) as l.
    induction l as [|x l IH]; cbn [find]; [discriminate|].
    destruct (jseqb (AudioDirectory.name x) (selectedDirectoryName s)) eqn:E.
    + intros H. injection H as <-. apply jseqb_eq in E. split; [exact E|].
      exists [], l. split; [reflexivity|]. intros d' [].
    + intros H. destruct (IH H) as (Hn & before & after & -> & Hb).
      split; [exact Hn|]. exists (x :: before), after. split; [reflexivity|].
      intros d' [<-|Hin]; [now apply jseqb_neq|now apply Hb].
  - split.
    + intros H d Hin. apply (find_none _ _ H) in Hin. now apply jseqb_neq.
    + intros H. generalize dependent (audioDirectories s).
      induction l as [|x l IH]; intros H; cbn [find]; [reflexivity|].
      replace (jseqb (AudioDirectory.name x) (selectedDirectoryName s))
        with false.
      * apply IH. intros d Hin. apply H. now right.
      * symmetry. apply jseqb_neq. apply H. now left.
  - intros ->. split; [reflexivity|].
    intros file1 file2 H. cbn [buildPathForFile] in H.
    now apply app_inv_head in H.
  - intros d directories. cbn [initialState audioDirectories selectedDirectoryName find].
    now rewrite jseqb_refl.
  - reflexivity.
Qed.

Lemma selectedDirectory_first_match_witness :
  let first := {| AudioDirectory.name := js "Promos";
                  AudioDirectory.driveId := js "1";
                  AudioDirectory.localPath := js "T:\Promos\{audio_filename}" |} in
  let second := {| AudioDirectory.name := js "Promos";
                   AudioDirectory.driveId := js "2";
                   AudioDirectory.localPath := js "T:\Other\{audio_filename}" |} in
  selectedDirectory (initialState [first; second]) = Some first
  /\ AudioDirectory.name first
     = selectedDirectoryName (initialState [first; second]).
Proof.
  intros first second.
  destruct (selectedDirectory_first_match (initialState [first; second]))
    as (H & _ & _ & Hi & _).
  split; [apply Hi|].
  apply (H first (Hi first [second])).
Defined.

(** ** The lists of origins *)

Lemma existsb_jseqb (x : jsstring) (l : list jsstring) :
  existsb (jseqb x) l = true <-> In x l.
Proof.
  rewrite existsb_exists. split.
  - intros (y & Hy & E). apply jseqb_eq in E. now subst.
  - intros H. exists x. split; [exact H|apply jseqb_refl].
Qed.

Lemma uniqueInOrder_spec (arr seen : list jsstring) :
  NoDup (uniqueInOrder seen arr)
  /\ forall x, In x (uniqueInOrder seen arr) <-> In x arr /\ ~ In x seen.
Proof.
  revert seen; induction arr as [|y arr IH]; intros seen; cbn [uniqueInOrder].
  - split; [constructor|]. intros x. cbn. tauto.
  - destruct (existsb (jseqb y) seen) eqn:E.
    + apply existsb_jseqb in E. destruct (IH seen) as (Hnd & Hin).
      split; [exact Hnd|]. intros x. rewrite Hin. cbn [In]. split.
      * intros [H1 H2]. split; [now right|exact H2].
      * intros [[<-|H1] H2]; [contradiction|now split].
    + assert (Hy : ~ In y seen).
      { intros H. apply existsb_jseqb in H. congruence. }
      destruct (IH (y :: seen)) as (Hnd & Hin). split.
      * constructor; [|exact Hnd]. rewrite Hin. cbn [In]. tauto.
      * intros x. cbn [In]. rewrite Hin. cbn [In]. split.
        -- intros [<-|[H1 H2]]; [now split; [left|]|].
           split; [now right|tauto].
        -- intros [[<-|H1] H2]; [now left|].
           destruct (list_eq_dec N.eq_dec y x) as [->|Hne]; [now left|].
           right. split; [exact H1|]. intros [H|H]; [congruence|contradiction].
Qed.

Lemma localOrigins_truthy (o : jsstring) : In o localOrigins -> o <> [].
Proof.
  unfold localOrigins. cbn [In].
  intros H; repeat (destruct H as [<-|H]; [discriminate|]); destruct H.
Qed.

(** X28: the two lists of origins.  The list of the service has no
    duplicates and no empty entry, and holds the eight local origins
    and, when it is not empty, the origin of the page, and nothing
    else.  The list of the debugger has no duplicates either, begins
    with the origin of the page, holds every origin of the service's
    list and, for a port other than 3000 and 3001, the local origins
    with that port; outside a browser it is empty. *)
Theorem authorized_origins (window : option GoogleDriveService.Location) :
  NoDup (GoogleDriveService.getAuthorizedOrigins window)
  /\ (forall o,
         In o (GoogleDriveService.getAuthorizedOrigins window)
         <-> In o localOrigins
             \/ (o <> []
                 /\ exists location,
                      window = Some location
                      /\ o = GoogleDriveService.origin location))
  /\ NoDup (GoogleDriveService.checkRequiredOrigins window)
  /\ (window = None -> GoogleDriveService.checkRequiredOrigins window = [])
  /\ (forall location,
         window = Some location ->
         head (GoogleDriveService.checkRequiredOrigins window)
         = Some (GoogleDriveService.origin location)
         /\ (forall o,
                In o (GoogleDriveService.getAuthorizedOrigins window) ->
                In o (GoogleDriveService.checkRequiredOrigins window))
         /\ (GoogleDriveService.port location <> [] ->
             GoogleDriveService.port location <> js "3000" ->
             GoogleDriveService.port location <> js "3001" ->
             forall o,
               In o [ js "http://localhost:" ++ GoogleDriveService.port location;
                      js "https://localhost:" ++ GoogleDriveService.port location;
                      js "http://127.0.0.1:" ++ GoogleDriveService.port location;
                      js "https://127.0.0.1:" ++ GoogleDriveService.port location ] ->
               In o (GoogleDriveService.checkRequiredOrigins window))).
Proof.
  assert (Hmem : forall o,
             In o (GoogleDriveService.getAuthorizedOrigins window)
             <-> In o localOrigins
                 \/ (o <> []
                     /\ exists location,
                          window = Some location
                          /\ o = GoogleDriveService.origin location)).
  { intros o. unfold GoogleDriveService.getAuthorizedOrigins. cbv zeta.
    rewrite filter_In.
    rewrite (proj2 (uniqueInOrder_spec _ [])).
    change [js "http://localhost:3000"; js "http://localhost:3001";
            js "https://localhost:3000"; js "https://localhost:3001";
            js "http://127.0.0.1:3000"; js "http://127.0.0.1:3001";
            js "https://127.0.0.1:3000"; js "https://127.0.0.1:3001";
            match window with
            | Some location => GoogleDriveService.origin location
            | None => []
            end]
      with (localOrigins ++ [match window with
                             | Some location => GoogleDriveService.origin location
                             | None => []
                             end]).
    rewrite in_app_iff. cbn [In]. split.
    - intros [[[H|[H|[]]] _] Ht]; [now left|].
      right. split; [intros ->; discriminate|].
      destruct window as [location|]; [now exists location|].
      subst o. discriminate.
    - intros [H|(Hne & location & -> & ->)].
      + split; [split; [now left|tauto]|].
        apply localOrigins_truthy in H. now destruct o.
      + split; [split; [right; now left|tauto]|].
        now destruct (GoogleDriveService.origin location). }
  split; [|split; [exact Hmem|split; [|split]]].
  - unfold GoogleDriveService.getAuthorizedOrigins. cbv zeta.
    apply NoDup_filter. apply uniqueInOrder_spec.
  - unfold GoogleDriveService.checkRequiredOrigins.
    destruct window; [apply uniqueInOrder_spec|constructor].
  - intros ->. reflexivity.
  - intros location ->. split; [|split].
    + unfold GoogleDriveService.checkRequiredOrigins. cbv zeta.
      destruct (truthy _ && _ && _); reflexivity.
    + intros o Ho. apply Hmem in Ho.
      unfold GoogleDriveService.checkRequiredOrigins. cbv zeta.
      apply uniqueInOrder_spec. split; [|tauto].
      assert (Hin : In o [GoogleDriveService.origin location;
                          js "http://localhost:3001"; js "https://localhost:3001";
                          js "http://localhost:3000"; js "https://localhost:3000";
                          js "http://127.0.0.1:3001"; js "https://127.0.0.1:3001";
                          js "http://127.0.0.1:3000"; js "https://127.0.0.1:3000"]).
      { destruct Ho as [Ho|(_ & l & Hl & ->)].
        - unfold localOrigins in Ho. cbn [In] in Ho |- *. tauto.
        - injection Hl as <-. now left. }
      destruct (truthy _ && _ && _); [apply in_or_app; now left|exact Hin].
    + intros Hp H0 H1 o Ho.
      unfold GoogleDriveService.checkRequiredOrigins. cbv zeta.
      apply uniqueInOrder_spec. split; [|tauto].
      apply jseqb_neq in H0, H1. rewrite H0, H1.
      destruct (GoogleDriveService.port location) as [|c p] eqn:Ep;
        [contradiction|]. cbn [truthy negb andb].
      apply in_or_app. now right.
Qed.

Lemma authorized_origins_witness :
  let window := Some {| GoogleDriveService.origin := js "http://localhost:8080";
                        GoogleDriveService.port := js "8080" |} in
  head (GoogleDriveService.checkRequiredOrigins window)
  = Some (js "http://localhost:8080")
  /\ List.length (GoogleDriveService.checkRequiredOrigins window) = 12%nat
  /\ List.length (GoogleDriveService.getAuthorizedOrigins window) = 9%nat.
Proof.
  intros window.
  destruct (authorized_origins window) as (_ & _ & _ & _ & H).
  destruct (H _ eq_refl) as (Hh & _).
  split; [exact Hh|]. split; reflexivity.
Defined.

(** ** Adding a directory from a link *)

Lemma extractFolderIdFromUrl_not_nil (url : jsstring) :
  url <> [] -> DirectoryConfig.extractFolderIdFromUrl url <> [].
Proof.
  intros H. unfold DirectoryConfig.extractFolderIdFromUrl.
  destruct (DirectoryConfig.foldersMatch url) as [id|] eqn:E; [|exact H].
  now apply foldersMatch_spec in E as (Hne & _).
Qed.

(** X29: a directory added from the form.  With a name, a folder link
    or ID and a path template typed in, none of them empty,
    [handleAddDirectory] followed by [handleSave] closes the dialog and
    hands [onDirectoriesUpdated] the directories listed before followed
    by the new one, whose drive ID is the ID taken from what was typed;
    the form is empty again.  [handleCancel] instead puts back the
    directories the component was given. *)
Theorem new_directory_from_link
        (s : DirectoryConfig.State) (name link template : jsstring) :
  name <> [] -> link <> [] -> template <> [] ->
  let typed :=
    DirectoryConfig.changeNewLocalPath template
      (DirectoryConfig.changeNewDriveId link
         (DirectoryConfig.changeNewName name s)) in
  let added := DirectoryConfig.handleAddDirectory typed in
  snd (DirectoryConfig.handleSave added)
  = DirectoryConfig.editingDirectories s
      ++ [{| AudioDirectory.name := name;
             AudioDirectory.driveId :=
               DirectoryConfig.extractFolderIdFromUrl link;
             AudioDirectory.localPath := template |}]
  /\ DirectoryConfig.isOpen (fst (DirectoryConfig.handleSave added)) = false
  /\ DirectoryConfig.newDirectory (fst (DirectoryConfig.handleSave added))
     = DirectoryConfig.emptyDirectory
  /\ DirectoryConfig.showAddForm (fst (DirectoryConfig.handleSave added)) = false
  /\ (forall directories,
         DirectoryConfig.editingDirectories
           (DirectoryConfig.handleCancel directories added) = directories
         /\ DirectoryConfig.isOpen
              (DirectoryConfig.handleCancel directories added) = false).
Proof.
  intros Hn Hl Ht typed added.
  assert (Hid := extractFolderIdFromUrl_not_nil link Hl).
  assert (E : added
              = {| DirectoryConfig.isOpen := DirectoryConfig.isOpen s;
                   DirectoryConfig.editingDirectories :=
                     DirectoryConfig.editingDirectories s
                       ++ [{| AudioDirectory.name := name;
                              AudioDirectory.driveId :=
                                DirectoryConfig.extractFolderIdFromUrl link;
                              AudioDirectory.localPath := template |}];
                   DirectoryConfig.newDirectory := DirectoryConfig.emptyDirectory;
                   DirectoryConfig.showAddForm := false |}).
  { subst added typed. unfold DirectoryConfig.handleAddDirectory.
    cbn [DirectoryConfig.changeNewLocalPath DirectoryConfig.changeNewDriveId
         DirectoryConfig.changeNewName DirectoryConfig.newDirectory
         DirectoryConfig.withField DirectoryConfig.editingDirectories
         DirectoryConfig.isOpen DirectoryConfig.showAddForm
         AudioDirectory.name AudioDirectory.driveId AudioDirectory.localPath].
    destruct name; [contradiction|].
    destruct (DirectoryConfig.extractFolderIdFromUrl link); [contradiction|].
    destruct template; [contradiction|]. reflexivity. }
  rewrite E. cbn. repeat split.
Qed.

Lemma new_directory_from_link_witness :
  snd (DirectoryConfig.handleSave
         (DirectoryConfig.handleAddDirectory
            (DirectoryConfig.changeNewLocalPath
               (js "T:\REGFM RadioBOSS\Jingles\{audio_filename}")
               (DirectoryConfig.changeNewDriveId
                  (js "https://drive.google.com/drive/folders/1ABC123DEF456")
                  (DirectoryConfig.changeNewName
                     (js "Jingles - Audio")
                     (DirectoryConfig.initial []))))))
  = [{| AudioDirectory.name := js "Jingles - Audio";
        AudioDirectory.driveId := js "1ABC123DEF456";
        AudioDirectory.localPath :=
          js "T:\REGFM RadioBOSS\Jingles\{audio_filename}" |}].
Proof.
  destruct (new_directory_from_link
              (DirectoryConfig.initial []) (js "Jingles - Audio")
              (js "https://drive.google.com/drive/folders/1ABC123DEF456")
              (js "T:\REGFM RadioBOSS\Jingles\{audio_filename}"))
    as (H & _); try discriminate.
  rewrite H. reflexivity.
Defined.

(** ** Text without unpaired surrogates *)

Lemma nonSurrogate_small (c : N) :
  c < 55296 -> isLeadingSurrogate c = false /\ isTrailingSurrogate c = false.
Proof.
  intros H. unfold isLeadingSurrogate, isTrailingSurrogate.
  split; apply andb_false_iff; left; apply N.leb_gt; lia.
Qed.

Lemma wellFormed_cons (c : N) (s : jsstring) :
  isLeadingSurrogate c = false -> isTrailingSurrogate c = false ->
  c < 65536 -> wellFormed s = true -> wellFormed (c :: s) = true.
Proof.
  intros Hl Ht Hc Hs. cbn [wellFormed]. rewrite Hl, Ht, Hs.
  now rewrite (proj2 (N.ltb_lt _ _) Hc).
Qed.

Lemma wellFormed_tail (c : N) (s : jsstring) :
  isLeadingSurrogate c = false ->
  wellFormed (c :: s) = true -> wellFormed s = true.
Proof.
  intros Hl H. cbn [wellFormed] in H. rewrite Hl in H.
  now apply andb_true_iff in H as [_ H].
Qed.

Lemma wellFormed_pair (lead trail : N) (s : jsstring) :
  isLeadingSurrogate lead = true -> isTrailingSurrogate trail = true ->
  wellFormed s = true -> wellFormed (lead :: trail :: s) = true.
Proof. intros Hl Ht Hs. cbn [wellFormed]. now rewrite Hl, Ht, Hs. Qed.

Lemma surrogates_differ (c : N) :
  isLeadingSurrogate c = true -> isTrailingSurrogate c = false.
Proof.
  unfold isLeadingSurrogate, isTrailingSurrogate.
  rewrite andb_true_iff, andb_false_iff, !N.leb_le, !N.leb_gt. lia.
Qed.

Lemma wellFormed_app (a b : jsstring) :
  wellFormed a = true -> wellFormed b = true -> wellFormed (a ++ b) = true.
Proof.
  intros Ha Hb. revert a Ha. apply wellFormed_cases.
  - exact Hb.
  - intros c s Hl Ht Hc _ IH. now apply wellFormed_cons.
  - intros lead trail s Hl Ht _ IH. now apply wellFormed_pair.
Qed.

(** A well-formed string cut at a code unit that is no surrogate. *)
Lemma wellFormed_cut (a b : jsstring) (c : N) :
  isLeadingSurrogate c = false -> isTrailingSurrogate c = false ->
  wellFormed (a ++ c :: b) = true ->
  wellFormed a = true /\ wellFormed b = true.
Proof.
  intros Hl Ht.
  assert (G : forall (n : nat) a,
             (List.length a <= n)%nat -> wellFormed (a ++ c :: b) = true ->
             wellFormed a = true /\ wellFormed b = true).
  { induction n as [|n IH]; intros [|x a'] Hlen H;
      try (cbn [List.length] in Hlen; lia).
    - split; [reflexivity|]. now apply (wellFormed_tail c).
    - split; [reflexivity|]. now apply (wellFormed_tail c).
    - cbn [app wellFormed] in H. cbn [List.length] in Hlen.
      destruct (isLeadingSurrogate x) eqn:Ex.
      + destruct a' as [|y a'']; cbn [app] in H.
        * apply andb_true_iff in H as [H _]. congruence.
        * apply andb_true_iff in H as [Hy H]. cbn [List.length] in Hlen.
          destruct (IH a'' ltac:(lia) H) as [H1 H2].
          split; [now apply wellFormed_pair|exact H2].
      + apply andb_true_iff in H as [Hx H].
        apply andb_true_iff in Hx as [Hx1 Hx2].
        destruct (IH a' ltac:(lia) H) as [H1 H2].
        split; [|exact H2]. cbn [wellFormed]. now rewrite Ex, Hx1, Hx2, H1. }
  intros H. apply (G (List.length a) a); [lia|exact H].
Qed.

Lemma wellFormed_split (c : N) (s : jsstring) :
  isLeadingSurrogate c = false -> isTrailingSurrogate c = false ->
  wellFormed s = true ->
  Forall (fun t => wellFormed t = true) (split c s).
Proof.
  intros Hl Ht. revert s. apply wellFormed_cases.
  - repeat constructor.
  - intros x s Hxl Hxt Hx Hs IH. cbn [split].
    destruct (x =? c).
    + constructor; [reflexivity|exact IH].
    + destruct (split c s) as [|t ts].
      * constructor; [|constructor]. now apply wellFormed_cons.
      * inversion IH as [|? ? H1 H2]; subst.
        constructor; [|exact H2]. now apply wellFormed_cons.
  - intros lead trail s Hlead Htrail Hs IH. cbn [split].
    assert (E1 : (lead =? c) = false).
    { apply N.eqb_neq. intros ->. congruence. }
    assert (E2 : (trail =? c) = false).
    { apply N.eqb_neq. intros ->. congruence. }
    rewrite E1, E2.
    destruct (split c s) as [|t ts].
    + constructor; [|constructor]. now apply wellFormed_pair.
    + inversion IH as [|? ? H1 H2]; subst.
      constructor; [|exact H2]. now apply wellFormed_pair.
Qed.

Lemma wellFormed_replacePlusBySpace (s : jsstring) :
  wellFormed s = true -> wellFormed (replacePlusBySpace s) = true.
Proof.
  revert s. apply wellFormed_cases.
  - reflexivity.
  - intros c s Hl Ht Hc _ IH. unfold replacePlusBySpace in *. cbn [map].
    destruct (c =? PLUS).
    + apply wellFormed_cons; [reflexivity|reflexivity|reflexivity|exact IH].
    + now apply wellFormed_cons.
  - intros lead trail s Hl Ht _ IH. unfold replacePlusBySpace in *. cbn [map].
    assert (E1 : (lead =? PLUS) = false).
    { apply N.eqb_neq. intros ->. discriminate. }
    assert (E2 : (trail =? PLUS) = false).
    { apply N.eqb_neq. intros ->. discriminate. }
    rewrite E1, E2. now apply wellFormed_pair.
Qed.

Lemma hexValue_small (h v : N) : hexValue h = Some v -> h < 128 /\ v < 16.
Proof.
  unfold hexValue.
  destruct ((48 <=? h) && (h <=? 57)) eqn:E1;
    [|destruct ((65 <=? h) && (h <=? 70)) eqn:E2;
      [|destruct ((97 <=? h) && (h <=? 102)) eqn:E3; [|discriminate]]];
    intros [= <-];
    match goal with
    | H : _ && _ = true |- _ =>
        apply andb_true_iff in H as [?%N.leb_le ?%N.leb_le]
    end; lia.
Qed.

Lemma ParseHexOctet_small (h1 h2 B : N) :
  ParseHexOctet h1 h2 = Some B -> h1 < 128 /\ h2 < 128 /\ B < 256.
Proof.
  unfold ParseHexOctet.
  destruct (hexValue h1) as [a|] eqn:E1; [|discriminate].
  destruct (hexValue h2) as [b|] eqn:E2; [|discriminate].
  intros HB. assert (E : B = 16 * a + b) by congruence.
  apply hexValue_small in E1 as [? ?].
  apply hexValue_small in E2 as [? ?]. repeat split; lia.
Qed.

Lemma escapeOctet_small (p h1 h2 b : N) :
  escapeOctet p h1 h2 = Some b -> p = PERCENT /\ h1 < 128 /\ h2 < 128 /\ b < 256.
Proof.
  unfold escapeOctet. destruct (p =? PERCENT) eqn:E; [|discriminate].
  apply N.eqb_eq in E. intros H. apply ParseHexOctet_small in H. tauto.
Qed.

(** Skipping an escape sequence in a well-formed string. *)
Lemma wellFormed_skip3 (p h1 h2 : N) (s : jsstring) :
  p < 128 -> h1 < 128 -> h2 < 128 ->
  wellFormed (p :: h1 :: h2 :: s) = true -> wellFormed s = true.
Proof.
  intros Hp H1 H2 H.
  apply wellFormed_tail in H; [|apply nonSurrogate_small; lia].
  apply wellFormed_tail in H; [|apply nonSurrogate_small; lia].
  apply wellFormed_tail in H; [exact H|apply nonSurrogate_small; lia].
Qed.

Lemma wellFormed_codePoint (V : N) (t : jsstring) :
  V <= 1114111 -> ~ (55296 <= V <= 57343) -> wellFormed t = true ->
  wellFormed (UTF16EncodeCodePoint V ++ t) = true.
Proof.
  intros Hmax Hs Ht. unfold UTF16EncodeCodePoint.
  destruct (V <=? 65535) eqn:E.
  - apply N.leb_le in E. cbn [app]. apply wellFormed_cons; [| |lia|exact Ht].
    + unfold isLeadingSurrogate. apply andb_false_iff.
      rewrite !N.leb_gt. lia.
    + unfold isTrailingSurrogate. apply andb_false_iff.
      rewrite !N.leb_gt. lia.
  - apply N.leb_gt in E. cbn [app]. apply wellFormed_pair; [| |exact Ht].
    + unfold isLeadingSurrogate. apply andb_true_iff.
      rewrite !N.leb_le. lia.
    + unfold isTrailingSurrogate. apply andb_true_iff.
      rewrite !N.leb_le. lia.
Qed.

Lemma leadingOnes_range (B : N) :
  match leadingOnes B with
  | 0%nat => B < 128
  | 1%nat => 128 <= B < 192
  | 2%nat => 192 <= B < 224
  | 3%nat => 224 <= B < 240
  | 4%nat => 240 <= B < 248
  | _ => 248 <= B
  end.
Proof.
  unfold leadingOnes.
  destruct (B <? 128) eqn:E1; [apply N.ltb_lt in E1; exact E1|].
  destruct (B <? 192) eqn:E2; [apply N.ltb_lt in E2; apply N.ltb_ge in E1; lia|].
  destruct (B <? 224) eqn:E3; [apply N.ltb_lt in E3; apply N.ltb_ge in E2; lia|].
  destruct (B <? 240) eqn:E4; [apply N.ltb_lt in E4; apply N.ltb_ge in E3; lia|].
  destruct (B <? 248) eqn:E5; [apply N.ltb_lt in E5; apply N.ltb_ge in E4; lia|].
  apply N.ltb_ge in E5. exact E5.
Qed.

Lemma utf8CodePoint_scalar (octets : list N) (V : N) :
  match octets with
  | [b0; _] => 192 <= b0 < 224
  | [b0; _; _] => 224 <= b0 < 240
  | [b0; _; _; _] => 240 <= b0 < 248
  | _ => True
  end ->
  utf8CodePoint octets = Some V ->
  V <= 1114111 /\ ~ (55296 <= V <= 57343).
Proof.
  unfold utf8CodePoint, isContinuation.
  destruct octets as [|b0 [|b1 [|b2 [|b3 [|? ?]]]]]; intros HB; try discriminate.
  - destruct (_ && _) eqn:E; [|discriminate]. intros [= <-].
    apply andb_true_iff in E as [E1 E2].
    apply andb_true_iff in E1 as [E11 E12].
    apply N.leb_le in E11, E2. apply N.ltb_lt in E12. lia.
  - destruct (_ && _) eqn:E; [|discriminate]. intros [= <-].
    apply andb_true_iff in E as [E1 E2].
    apply andb_true_iff in E1 as [E1 E3].
    apply andb_true_iff in E1 as [E1 E4].
    apply andb_true_iff in E1 as [E11 E12].
    apply andb_true_iff in E4 as [E41 E42].
    apply negb_true_iff, andb_false_iff in E2.
    rewrite !N.leb_gt in E2.
    apply N.leb_le in E11, E41, E3. apply N.ltb_lt in E12, E42. lia.
  - destruct (_ && _) eqn:E; [|discriminate]. intros [= <-].
    apply andb_true_iff in E as [E1 E2].
    apply andb_true_iff in E1 as [E1 E3].
    apply N.leb_le in E2, E3. lia.
Qed.

Lemma Decode_wellFormed (s t : jsstring) :
  wellFormed s = true -> Decode s = Ok t -> wellFormed t = true.
Proof.
  assert (Hcons : forall b u x,
             rmap (cons b) (Decode u) = Ok x ->
             exists y, Decode u = Ok y /\ x = b :: y).
  { intros b u x H. destruct (Decode u) as [y|]; [|discriminate].
    injection H as <-. now exists y. }
  assert (Happ : forall V u x,
             rmap (app (UTF16EncodeCodePoint V)) (Decode u) = Ok x ->
             exists y, Decode u = Ok y /\ x = UTF16EncodeCodePoint V ++ y).
  { intros V u x H. destruct (Decode u) as [y|]; [|discriminate].
    injection H as <-. now exists y. }
  assert (G : forall (n : nat) s t,
             (List.length s <= n)%nat -> wellFormed s = true ->
             Decode s = Ok t -> wellFormed t = true).
  { clear s t. induction n as [|n IH]; intros [|C s1] t Hlen Hwf Hd;
      try (cbn [List.length] in Hlen; lia);
      try (injection Hd as <-; reflexivity).
    cbn [List.length] in Hlen.
    destruct (N.eq_dec C PERCENT) as [->|HC].
    - destruct s1 as [|h1 [|h2 s2]]; try discriminate.
      rewrite Decode_percent in Hd.
      destruct (ParseHexOctet h1 h2) as [B|] eqn:EB; [|discriminate].
      destruct (ParseHexOctet_small _ _ _ EB) as (Hh1 & Hh2 & HB).
      assert (Hs2 : wellFormed s2 = true).
      { apply (wellFormed_skip3 PERCENT h1 h2); auto. reflexivity. }
      cbn [List.length] in Hlen.
      pose proof (leadingOnes_range B) as HR.
      destruct (leadingOnes B) as [|[|[|[|[|k]]]]]; try discriminate.
      + apply Hcons in Hd as (y & Hy & ->).
        apply wellFormed_cons; try (apply nonSurrogate_small; lia); try lia.
        apply (IH s2 y); [lia|exact Hs2|exact Hy].
      + destruct s2 as [|p1 [|a1 [|a2 s3]]]; try discriminate.
        unfold octetsCodePoint in Hd. cbn [fold_right] in Hd.
        destruct (escapeOctet p1 a1 a2) as [b1|] eqn:E1; [|discriminate].
        destruct (utf8CodePoint [B; b1]) as [V|] eqn:EV; [|discriminate].
        apply Happ in Hd as (y & Hy & ->).
        apply escapeOctet_small in E1 as (-> & Ha1 & Ha2 & _).
        destruct (utf8CodePoint_scalar [B; b1] V HR EV) as [HV1 HV2].
        apply wellFormed_codePoint; auto.
        cbn [List.length] in Hlen.
        apply (IH s3 y); [lia| |exact Hy].
        apply (wellFormed_skip3 PERCENT a1 a2); auto. reflexivity.
      + destruct s2 as [|p1 [|a1 [|a2 [|p2 [|b1 [|b2 s4]]]]]]; try discriminate.
        unfold octetsCodePoint in Hd. cbn [fold_right] in Hd.
        destruct (escapeOctet p2 b1 b2) as [c2|] eqn:E2;
          [|destruct (escapeOctet p1 a1 a2); discriminate].
        destruct (escapeOctet p1 a1 a2) as [c1|] eqn:E1; [|discriminate].
        destruct (utf8CodePoint [B; c1; c2]) as [V|] eqn:EV; [|discriminate].
        apply Happ in Hd as (y & Hy & ->).
        apply escapeOctet_small in E1 as (-> & Ha1 & Ha2 & _).
        apply escapeOctet_small in E2 as (-> & Hb1 & Hb2 & _).
        destruct (utf8CodePoint_scalar [B; c1; c2] V HR EV) as [HV1 HV2].
        apply wellFormed_codePoint; auto.
        cbn [List.length] in Hlen.
        apply (IH s4 y); [lia| |exact Hy].
        apply (wellFormed_skip3 PERCENT b1 b2); auto; [reflexivity|].
        apply (wellFormed_skip3 PERCENT a1 a2); auto. reflexivity.
      + destruct s2 as [|p1 [|a1 [|a2 [|p2 [|b1 [|b2 [|p3 [|c1 [|c2 s5]]]]]]]]];
          try discriminate.
        unfold octetsCodePoint in Hd. cbn [fold_right] in Hd.
        destruct (escapeOctet p3 c1 c2) as [d3|] eqn:E3;
          [|destruct (escapeOctet p2 b1 b2); destruct (escapeOctet p1 a1 a2);
            discriminate].
        destruct (escapeOctet p2 b1 b2) as [d2|] eqn:E2;
          [|destruct (escapeOctet p1 a1 a2); discriminate].
        destruct (escapeOctet p1 a1 a2) as [d1|] eqn:E1; [|discriminate].
        destruct (utf8CodePoint [B; d1; d2; d3]) as [V|] eqn:EV; [|discriminate].
        apply Happ in Hd as (y & Hy & ->).
        apply escapeOctet_small in E1 as (-> & Ha1 & Ha2 & _).
        apply escapeOctet_small in E2 as (-> & Hb1 & Hb2 & _).
        apply escapeOctet_small in E3 as (-> & Hc1 & Hc2 & _).
        destruct (utf8CodePoint_scalar [B; d1; d2; d3] V HR EV) as [HV1 HV2].
        apply wellFormed_codePoint; auto.
        cbn [List.length] in Hlen.
        apply (IH s5 y); [lia| |exact Hy].
        apply (wellFormed_skip3 PERCENT c1 c2); auto; [reflexivity|].
        apply (wellFormed_skip3 PERCENT b1 b2); auto; [reflexivity|].
        apply (wellFormed_skip3 PERCENT a1 a2); auto. reflexivity.
    - rewrite Decode_literal in Hd by exact HC.
      apply Hcons in Hd as (y & Hy & ->).
      cbn [wellFormed] in Hwf.
      destruct (isLeadingSurrogate C) eqn:EC.
      + destruct s1 as [|C2 s2]; [discriminate|].
        apply andb_true_iff in Hwf as [HC2 Hs2].
        assert (HC2' : C2 <> PERCENT) by (intros ->; discriminate).
        rewrite Decode_literal in Hy by exact HC2'.
        apply Hcons in Hy as (z & Hz & ->).
        apply wellFormed_pair; auto.
        cbn [List.length] in Hlen. apply (IH s2 z); [lia|exact Hs2|exact Hz].
      + apply andb_true_iff in Hwf as [Hwf Hs1].
        apply andb_true_iff in Hwf as [Ht Hc].
        apply negb_true_iff in Ht. apply N.ltb_lt in Hc.
        apply wellFormed_cons; auto.
        apply (IH s1 y); [lia|exact Hs1|exact Hy]. }
  apply (G (List.length s)). lia.
Qed.

(** The container name read from a text without unpaired surrogates has
    none either. *)
Lemma decode_name_wellFormed (raw : jsstring) (d : Document) :
  wellFormed raw = true -> decode raw = Ok d -> wellFormed (name d) = true.
Proof.
  intros Hwf Hd. unfold decode in Hd.
  destruct (parseLines_name _ _ _ Hd)
    as [[-> _]|(before & line & after & m1 & m2 & Hl & _ & Hm & _ & Hn)];
    [reflexivity|].
  assert (Hline : wellFormed line = true).
  { assert (Hall := wellFormed_split LF raw eq_refl eq_refl Hwf).
    rewrite Forall_forall in Hall. apply Hall.
    assert (Hin : In line (contentLines raw)).
    { rewrite Hl. apply in_or_app. right. now left. }
    unfold contentLines in Hin. now apply filter_In in Hin as [Hin _]. }
  apply containerMatch_spec in Hm as (pre & r & E & _).
  assert (Hm1 : wellFormed m1 = true).
  { rewrite E in Hline.
    change (js "Container=<") with (js "Container=" ++ [60]) in Hline.
    rewrite <- app_assoc in Hline. rewrite app_assoc in Hline.
    cbn [app] in Hline.
    apply (wellFormed_cut _ _ 60 eq_refl eq_refl) in Hline as [_ Hline].
    now apply (wellFormed_cut _ _ GT eq_refl eq_refl) in Hline as [Hline _]. }
  apply (Decode_wellFormed (replacePlusBySpace m1)); [|exact Hn].
  now apply wellFormed_replacePlusBySpace.
Qed.

(** ** The round trip on a text as fetched *)

(** C1: a text as the component is given it has no unpaired surrogate
    ([response.text()] decodes UTF-8).  For every document that the
    decoder produces from such a text and that has items, the encoder
    returns a text that decodes to the same container name and the same
    paths in the same order. *)
Theorem decode_encode_roundtrip (raw : jsstring) (d : Document) :
  wellFormed raw = true -> decode raw = Ok d -> items d <> [] ->
  exists text d',
    encode d = Ok text
    /\ decode text = Ok d'
    /\ name d' = name d
    /\ map path (items d') = map path (items d).
Proof.
  intros Hwf Hd Hitems.
  apply (decoded_document_roundtrip raw d Hd Hitems).
  now apply (decode_name_wellFormed raw).
Qed.

Lemma decode_encode_roundtrip_witness :
  exists text d',
    encode {| name := [74; 97; 122; 122; 32; 38; 32; 55357; 56832];
              items := [{| path := js "T:\x y.mp3"; filename := js "x y" |};
                        {| path := js "T:\z.wav"; filename := js "z" |}] |}
    = Ok text
    /\ decode text = Ok d'
    /\ name d' = [74; 97; 122; 122; 32; 38; 32; 55357; 56832]
    /\ map path (items d') = [js "T:\x y.mp3"; js "T:\z.wav"].
Proof.
  apply (decode_encode_roundtrip
           (js "Container=<Jazz+%26+%F0%9F%98%80> T:\x y.mp3 | |T:\z.wav")
           {| name := [74; 97; 122; 122; 32; 38; 32; 55357; 56832];
              items := [{| path := js "T:\x y.mp3"; filename := js "x y" |};
                        {| path := js "T:\z.wav"; filename := js "z" |}] |}).
  - reflexivity.
  - reflexivity.
  - discriminate.
Defined.

(** ** The display name of every entry *)

Lemma flat_map_lineItems (lines : list jsstring) :
  flat_map lineItems lines = map entryOf (flat_map lineEntries lines).
Proof.
  induction lines as [|line lines IH]; [reflexivity|].
  cbn [flat_map]. rewrite map_app, IH. f_equal.
  unfold lineItems, lineEntries.
  destruct (isManifestLine line); [|reflexivity].
  destruct (containerMatch line) as [[m1 m2]|]; reflexivity.
Qed.

Lemma manifestEntries_not_blank (raw p : jsstring) :
  In p (manifestEntries raw) -> trim p <> [].
Proof.
  unfold manifestEntries. rewrite in_flat_map. intros (line & _ & Hp).
  unfold lineEntries in Hp.
  destruct (isManifestLine line); [|destruct Hp].
  destruct (containerMatch line) as [[m1 m2]|]; [|destruct Hp].
  apply filter_In in Hp as [_ Hp]. intros E. rewrite E in Hp. discriminate.
Qed.

(** C3, amended: the items of a decoded document are, one for one and in
    order, the non-blank entries of the manifest lines of the text.  The
    path of an item is its entry [p] trimmed; its display name is
    computed from [p] itself, untrimmed.  The token is the text after
    the last backslash of [p] when that is not empty, all of [p] when it
    has no backslash, and, when [p] ends with a backslash, the text
    after its last slash (all of [p] without one).  If the token has a
    last dot with at least one code unit after it and no slash among
    them, the display name is the text before that dot, empty for a name
    with only a leading dot; otherwise it is the whole token. *)
Theorem decoded_displayName (raw : jsstring) (d : Document) :
  decode raw = Ok d ->
  Forall2
    (fun it p =>
       path it = trim p /\ trim p <> []
       /\ exists token,
            token = fullFilename p
            /\ (forall a t, p = a ++ BACKSLASH :: t -> ~ In BACKSLASH t ->
                            t <> [] -> token = t)
            /\ (~ In BACKSLASH p -> token = p)
            /\ (forall a, p = a ++ [BACKSLASH] ->
                          (forall b t, p = b ++ SLASH :: t -> ~ In SLASH t ->
                                       token = t)
                          /\ (~ In SLASH p -> token = p))
            /\ (forall a e, token = a ++ DOT :: e ->
                            e <> [] -> ~ In DOT e -> ~ In SLASH e ->
                            filename it = a)
            /\ ((forall a e, token = a ++ DOT :: e -> ~ In DOT e ->
                             e = [] \/ In SLASH e) ->
                filename it = token))
    (items d) (manifestEntries raw).
Proof.
  intros Hd. unfold decode in Hd. apply parseLines_items in Hd.
  cbn [items app] in Hd. rewrite Hd, flat_map_lineItems.
  fold (manifestEntries raw).
  assert (Hne := manifestEntries_not_blank raw).
  induction (manifestEntries raw) as [|p l IH]; [constructor|].
  cbn [map]. constructor.
  - destruct (fullFilename_cases p) as (F1 & F2 & F3).
    split; [reflexivity|]. split; [apply Hne; now left|].
    exists (fullFilename p).
    split; [reflexivity|]. split; [exact F1|]. split; [exact F2|].
    split; [exact F3|]. split.
    + intros a e E He Hdot Hslash. cbn [filename entryOf].
      rewrite E. now apply removeFileExtension_strips.
    + intros H. cbn [filename entryOf].
      now apply (removeFileExtension_keeps []).
  - apply IH. intros q Hq. apply Hne. now right.
Qed.

Lemma decoded_displayName_witness :
  Forall2
    (fun it p => path it = trim p /\ trim p <> [])
    [{| path := js "a.mp3"; filename := js " a" |};
     {| path := js "C:\music\song.mp3"; filename := js "song" |}]
    [js " a.mp3"; js "C:\music\song.mp3 "].
Proof.
  assert (H := decoded_displayName
                 (js "#EXTM3U" ++ [LF]
                    ++ js "Container=<n> a.mp3|C:\music\song.mp3 " ++ [LF])
                 {| name := js "n";
                    items := [{| path := js "a.mp3"; filename := js " a" |};
                              {| path := js "C:\music\song.mp3";
                                 filename := js "song" |}] |}
                 eq_refl).
  change (manifestEntries _) with [js " a.mp3"; js "C:\music\song.mp3 "] in H.
  cbn [items] in H.
  refine (Forall2_impl _ _ H).
  intros it p (H1 & H2 & _). split; [exact H1|exact H2].
Defined.

(** ** The list of playlists *)

Lemma insertByName_Permutation (localeCompare : jsstring -> jsstring -> Z)
      (x : GoogleDriveFile.t) (l : list GoogleDriveFile.t) :
  Permutation (PlaylistList.insertByName localeCompare x l) (x :: l).
Proof.
  induction l as [|y l IH]; cbn [PlaylistList.insertByName]; [reflexivity|].
  destruct (0 <? localeCompare _ _)%Z; [|reflexivity].
  rewrite IH. apply perm_swap.
Qed.

Lemma sortByName_Permutation (localeCompare : jsstring -> jsstring -> Z)
      (l : list GoogleDriveFile.t) :
  Permutation (PlaylistList.sortByName localeCompare l) l.
Proof.
  unfold PlaylistList.sortByName.
  induction l as [|x l IH]; cbn [fold_right]; [reflexivity|].
  rewrite insertByName_Permutation. now constructor.
Qed.

Lemma filteredPlaylists_held (toLowerCase : jsstring -> jsstring)
      (localeCompare : jsstring -> jsstring -> Z)
      (q : jsstring) (s : PlaylistList.State) :
  Permutation
    (PlaylistList.playlists
       (fst (PlaylistList.filteredPlaylists toLowerCase localeCompare q s)))
    (PlaylistList.playlists s).
Proof.
  unfold PlaylistList.filteredPlaylists.
  destruct (truthy q); cbn [fst PlaylistList.playlists]; [reflexivity|].
  apply sortByName_Permutation.
Qed.

Lemma afterRenders_held (toLowerCase : jsstring -> jsstring)
      (localeCompare : jsstring -> jsstring -> Z)
      (searches : list jsstring) (s : PlaylistList.State) :
  Permutation
    (PlaylistList.playlists (afterRenders toLowerCase localeCompare searches s))
    (PlaylistList.playlists s).
Proof.
  unfold afterRenders. revert s.
  induction searches as [|q searches IH]; intros s; cbn [fold_left];
    [reflexivity|].
  rewrite IH. apply filteredPlaylists_held.
Qed.

Lemma filteredPlaylists_shown (toLowerCase : jsstring -> jsstring)
      (localeCompare : jsstring -> jsstring -> Z)
      (q : jsstring) (s : PlaylistList.State) (file : GoogleDriveFile.t) :
  In file (snd (PlaylistList.filteredPlaylists toLowerCase localeCompare q s)) ->
  In file (PlaylistList.playlists s).
Proof.
  unfold PlaylistList.filteredPlaylists.
  destruct (truthy q); cbn [snd]; intros H.
  - apply (Permutation_in _ (sortByName_Permutation localeCompare _)) in H.
    now apply filter_In in H as [H _].
  - now apply (Permutation_in _ (sortByName_Permutation localeCompare _)) in H.
Qed.

(** X17: what [loadInitialData] leaves in the list of playlists,
    whatever [toLowerCase] and [localeCompare] compute.  When the
    listing succeeds the list set is the listed files whose name ends
    with [.m3u8]; the renders that follow keep these files and may
    rearrange them, since the memo [filteredPlaylists] sorts the state
    array in place when there is no search text.  Every file shown was
    listed and ends with [.m3u8]; without a search text the list shown
    is the list held, and a file created by [createNewPlaylist] is in
    it whenever the listing has it.  When the folder is not configured
    the storage client is not asked; in that case and when the listing
    fails the list held before stays, and a failure whose message names
    an authentication problem shows no error. *)
Theorem loadInitialData_playlists
        (toLowerCase : jsstring -> jsstring)
        (localeCompare : jsstring -> jsstring -> Z)
        (folderId : jsstring)
        (listFiles : jsstring -> PlaylistList.ListResult)
        (onAuthError : bool) (s : PlaylistList.State) :
  let r := PlaylistList.loadInitialData folderId listFiles onAuthError s in
  PlaylistList.isLoading (fst r) = false
  /\ (forall files,
         folderId <> [] -> listFiles folderId = PlaylistList.Listed files ->
         PlaylistList.error (fst r) = None
         /\ forall searches,
              let held := afterRenders toLowerCase localeCompare searches
                                       (fst r) in
              let shown q :=
                snd (PlaylistList.filteredPlaylists toLowerCase localeCompare
                                                    q held) in
              Permutation (PlaylistList.playlists held)
                          (filter PlaylistList.isM3u8 files)
              /\ (forall q file,
                     In file (shown q) ->
                     In file files /\ PlaylistList.isM3u8 file = true)
              /\ shown []
                 = PlaylistList.playlists
                     (afterRenders toLowerCase localeCompare (searches ++ [[]])
                                   (fst r))
              /\ (forall file n,
                     In file files ->
                     GoogleDriveFile.name file = PlaylistOperations.fileNameOf n ->
                     In file (shown [])))
  /\ (folderId = [] ->
      forall listFiles',
        r = PlaylistList.loadInitialData folderId listFiles' onAuthError s)
  /\ ((folderId = [] \/ exists m, listFiles folderId = PlaylistList.ListRejected m) ->
      PlaylistList.playlists (fst r) = PlaylistList.playlists s)
  /\ (forall m,
         folderId <> [] ->
         listFiles folderId = PlaylistList.ListRejected (Some m) ->
         isAuthenticationError m = true ->
         PlaylistList.error (fst r) = None
         /\ snd r = if onAuthError then [OnAuthError] else []).
Proof.
  cbv zeta. split; [|split; [|split; [|split]]].
  - unfold PlaylistList.loadInitialData.
    destruct folderId; cbn [truthy negb]; [reflexivity|].
    destruct (listFiles _) as [fs|m]; [reflexivity|].
    now destruct (isAuthenticationError _).
  - intros files Hne H.
    assert (E : PlaylistList.loadInitialData folderId listFiles onAuthError s
                = ({| PlaylistList.playlists := filter PlaylistList.isM3u8 files;
                      PlaylistList.isLoading := false;
                      PlaylistList.error := None |}, [])).
    { unfold PlaylistList.loadInitialData.
      destruct folderId as [|c t]; [contradiction|].
      cbn [truthy negb]. now rewrite H. }
    rewrite E. cbn [fst PlaylistList.error]. split; [reflexivity|].
    intros searches.
    set (s0 := {| PlaylistList.playlists := filter PlaylistList.isM3u8 files;
                  PlaylistList.isLoading := false;
                  PlaylistList.error := None |}).
    assert (Hheld : Permutation
                      (PlaylistList.playlists
                         (afterRenders toLowerCase localeCompare searches s0))
                      (filter PlaylistList.isM3u8 files)).
    { apply (afterRenders_held toLowerCase localeCompare searches s0). }
    assert (Hshown : forall q file,
               In file (snd (PlaylistList.filteredPlaylists
                               toLowerCase localeCompare q
                               (afterRenders toLowerCase localeCompare
                                             searches s0))) ->
               In file files /\ PlaylistList.isM3u8 file = true).
    { intros q file Hin. apply filteredPlaylists_shown in Hin.
      apply (Permutation_in _ Hheld) in Hin. now apply filter_In in Hin. }
    split; [exact Hheld|]. split; [exact Hshown|]. split.
    + unfold afterRenders. rewrite fold_left_app. cbn [fold_left].
      reflexivity.
    + intros file n Hin Hn.
      unfold PlaylistList.filteredPlaylists. cbn [truthy snd].
      apply (Permutation_in _
               (Permutation_sym (sortByName_Permutation localeCompare _))).
      apply (Permutation_in _ (Permutation_sym Hheld)).
      apply filter_In. split; [exact Hin|].
      unfold PlaylistList.isM3u8. rewrite Hn. apply fileNameOf_endsWith.
  - intros -> listFiles'. reflexivity.
  - unfold PlaylistList.loadInitialData. intros [->|[m H]]; [reflexivity|].
    destruct folderId; cbn [truthy negb]; [reflexivity|].
    rewrite H. now destruct (isAuthenticationError _).
  - unfold PlaylistList.loadInitialData.
    intros m Hne H Ha. destruct folderId as [|c t]; [contradiction|].
    cbn [truthy negb]. rewrite H, Ha. split; reflexivity.
Qed.

Lemma loadInitialData_playlists_witness :
  let byFirstUnit (a b : jsstring) := (Z.of_N (hd 0%N a) - Z.of_N (hd 0%N b))%Z in
  let notes := {| GoogleDriveFile.id := js "1";
                  GoogleDriveFile.name := js "notes.txt" |} in
  let b := {| GoogleDriveFile.id := js "2";
              GoogleDriveFile.name := js "breakfast.m3u8" |} in
  let a := {| GoogleDriveFile.id := js "3";
              GoogleDriveFile.name := js "afternoon.m3u8" |} in
  let r := PlaylistList.loadInitialData
             FolderConfig.PLAYLIST_FOLDER_ID
             (fun _ => PlaylistList.Listed [notes; b; a]) true
             {| PlaylistList.playlists := []; PlaylistList.isLoading := true;
                PlaylistList.error := None |} in
  PlaylistList.playlists (fst r) = [b; a]
  /\ PlaylistList.playlists
       (afterRenders (fun x => x) byFirstUnit [[]] (fst r)) = [a; b]
  /\ Permutation
       (PlaylistList.playlists
          (afterRenders (fun x => x) byFirstUnit [[]] (fst r)))
       [b; a].
Proof.
  intros byFirstUnit notes b a r.
  split; [reflexivity|]. split; [reflexivity|].
  destruct (loadInitialData_playlists
              (fun x => x) byFirstUnit FolderConfig.PLAYLIST_FOLDER_ID
              (fun _ => PlaylistList.Listed [notes; b; a]) true
              {| PlaylistList.playlists := []; PlaylistList.isLoading := true;
                 PlaylistList.error := None |}) as (_ & H & _).
  destruct (H [notes; b; a] ltac:(vm_compute; discriminate) eq_refl)
    as (_ & H').
  exact (proj1 (H' [[]])).
Defined.
